(** * nai-to-pix: the NovelAI / PixAI prompt converter

    A shallow embedding of the converter module (the scanners [parseNovelAI]
    and [parsePixAI], the serializers [segmentsToPixAI] and
    [segmentsToNovelAI]) and of the conversion effect of the [Converter]
    component, followed by the properties of the specification. The
    repository holds several revisions of both files; the one embedded is
    the one the specification describes: emphasis that multiplies (1.05 and
    0.95 for NovelAI, 1.1 and 0.9 for PixAI), depths that a weight control
    token resets, and a negative prompt that is split off or merged. The
    earlier [parseNovelAI] of src/utils/converter.ts is embedded beside it
    in the module [Legacy]. The state of the component with
    [toggleDirection] and the [PromptHighlighter] component follow the
    vocabulary of the specification, and further properties of the code
    close the file.

    JavaScript values are modelled as follows:
    - a string is the list of its UTF-16 code units ([jsstring]);
    - a number is an IEEE 754 binary64 value, [spec_float] with
      [prec = 53] and [emax = 1024]; arithmetic is the correctly rounded
      arithmetic of [SpecFloat];
    - the bracket depths are integers ([Z]) and the scan index is the
      suffix of the text left to scan; both stay far below 2^53, the range
      in which a JavaScript number counts exactly, because a string is
      shorter than that;
    - an optional field is an [option];
    - [Math.random] is a state: an oracle of draws and a position in it. *)

From Stdlib Require Import ZArith NArith List String Ascii Bool Lia.
From Stdlib Require Import Floats.SpecFloat.
From Stdlib Require Import DecimalN.
Import ListNotations.
Open Scope Z_scope.

(** ** Strings *)

Module JsString.

Definition cu := N.
Definition jsstring := list cu.

Fixpoint js (s : string) : jsstring :=
  match s with
  | EmptyString => []
  | String a s' => N_of_ascii a :: js s'
  end.

Definition ch (a : ascii) : cu := N_of_ascii a.

Definition cu_eqb (a b : cu) : bool := N.eqb a b.

(** WhiteSpace and LineTerminator code points, the ones [trim] strips. *)
Definition is_space (c : cu) : bool :=
  ((9 <=? c) && (c <=? 13) || (c =? 32) || (c =? 160) || (c =? 5760)
   || (8192 <=? c) && (c <=? 8202) || (c =? 8232) || (c =? 8233)
   || (c =? 8239) || (c =? 8287) || (c =? 12288) || (c =? 65279))%N.

(** LineTerminator code points, the ones [.] does not match. *)
Definition is_line_terminator (c : cu) : bool :=
  ((c =? 10) || (c =? 13) || (c =? 8232) || (c =? 8233))%N.

(** [\d] *)
Definition is_digit (c : cu) : bool := ((48 <=? c) && (c <=? 57))%N.

Fixpoint trimStart (s : jsstring) : jsstring :=
  match s with
  | [] => []
  | c :: s' => if is_space c then trimStart s' else s
  end.

Definition trimEnd (s : jsstring) : jsstring := rev (trimStart (rev s)).

Definition trim (s : jsstring) : jsstring := trimEnd (trimStart s).

(** A string is truthy when it is not empty. *)
Definition truthy (s : jsstring) : bool :=
  match s with [] => false | _ => true end.

Fixpoint jsstring_eqb (a b : jsstring) : bool :=
  match a, b with
  | [], [] => true
  | x :: a', y :: b' => cu_eqb x y && jsstring_eqb a' b'
  | _, _ => false
  end.

(** [Array.prototype.join] *)
Fixpoint join (sep : jsstring) (l : list jsstring) : jsstring :=
  match l with
  | [] => []
  | [x] => x
  | x :: rest => x ++ sep ++ join sep rest
  end.

(** The longest prefix of characters satisfying [p], and what follows it. *)
Fixpoint span (p : cu -> bool) (s : jsstring) : jsstring * jsstring :=
  match s with
  | [] => ([], [])
  | c :: s' =>
      if p c then let '(a, b) := span p s' in (c :: a, b) else ([], s)
  end.

Fixpoint starts_with (pre s : jsstring) : option jsstring :=
  match pre, s with
  | [], _ => Some s
  | p :: pre', c :: s' => if cu_eqb p c then starts_with pre' s' else None
  | _ :: _, [] => None
  end.

End JsString.
Import JsString.

(** ** Numbers *)

Module JsNumber.

Definition prec : Z := 53.
Definition emax : Z := 1024.
Definition number := spec_float.

Definition mul : number -> number -> number := SFmul prec emax.
Definition div : number -> number -> number := SFdiv prec emax.
Definition of_Z (n : Z) : number := binary_normalize prec emax n 0 false.

(** The binary64 value nearest to [p / q] (ties to even). *)
Definition of_ratio (p q : positive) : number :=
  div (S754_finite false p 0) (S754_finite false q 0).

(** The binary64 value nearest to [c * 10^e], for [c >= 0]. *)
Definition of_decimal (c : Z) (e : Z) : number :=
  match c with
  | Zpos p =>
      if 0 <=? e then of_Z (c * 10 ^ e)
      else of_ratio p (Z.to_pos (10 ^ (- e)))
  | _ => S754_zero false
  end.

Definition one : number := of_Z 1.
Definition hundred : number := of_Z 100.

Definition is_nan (x : number) : bool :=
  match x with S754_nan => true | _ => false end.

Definition is_finite (x : number) : bool :=
  match x with S754_zero _ | S754_finite _ _ _ => true | _ => false end.

(** [===] on numbers *)
Definition strict_eq (x y : number) : bool := SFeqb x y.

(** [x < 0] and [x >= 0] *)
Definition lt_zero (x : number) : bool := SFltb x (S754_zero false).
Definition ge_zero (x : number) : bool := SFleb (S754_zero false) x.

(** ToBoolean on a number: false for +0, -0 and NaN. *)
Definition truthy (x : number) : bool :=
  match x with S754_zero _ | S754_nan => false | _ => true end.

Definition Math_abs (x : number) : number := SFabs x.

(** [Math.round]: the integer nearest to [x], ties towards +Infinity;
    [-0] for [-0.5 <= x < 0]. *)
Definition Math_round (x : number) : number :=
  match x with
  | S754_finite s m e =>
      if 0 <=? e then x
      else
        let d := 2 ^ (- e) in
        let n := (2 * cond_Zopp s (Zpos m) + d) / (2 * d) in
        if n =? 0 then S754_zero s else of_Z n
  | _ => x
  end.

(** [Math.pow] at an integer exponent. ECMA-262 leaves the accuracy of
    [Math.pow] to the implementation; this is the correctly rounded power,
    with the special cases the standard fixes. *)
Definition Math_pow (b : number) (n : Z) : number :=
  if n =? 0 then one
  else
    let odd := Z.odd n in
    let k := Z.to_pos (Z.abs n) in
    match b with
    | S754_nan => S754_nan
    | S754_infinity s =>
        if 0 <? n then S754_infinity (s && odd) else S754_zero (s && odd)
    | S754_zero s =>
        if 0 <? n then S754_zero (s && odd) else S754_infinity (s && odd)
    | S754_finite s m e =>
        let mk := Pos.pow m k in
        let ek := e * Zpos k in
        if 0 <? n then binary_round prec emax (s && odd) mk ek
        else div (S754_finite (s && odd) 1 0) (S754_finite false mk ek)
    end.

(** *** parseFloat *)

Definition digit_val (c : cu) : Z := Z.of_N c - 48.

Definition digits_val (ds : jsstring) : Z :=
  fold_left (fun acc c => 10 * acc + digit_val c) ds 0.

Definition exponent_part (s : jsstring) : Z :=
  match s with
  | c :: s' =>
      if (c =? 101)%N || (c =? 69)%N then
        match s' with
        | sg :: s'' =>
            if (sg =? 43)%N then
              match fst (span is_digit s'') with [] => 0 | es => digits_val es end
            else if (sg =? 45)%N then
              match fst (span is_digit s'') with [] => 0 | es => - digits_val es end
            else
              match fst (span is_digit s') with [] => 0 | es => digits_val es end
        | [] => 0
        end
      else 0
  | [] => 0
  end.

Definition parse_unsigned (s : jsstring) : number :=
  match starts_with (js "Infinity") s with
  | Some _ => S754_infinity false
  | None =>
      let '(ip, r1) := span is_digit s in
      let '(fp, r2) :=
        match r1 with
        | c :: r1' => if (c =? 46)%N then span is_digit r1' else ([], r1)
        | [] => ([], r1)
        end in
      match ip ++ fp with
      | [] => S754_nan
      | ds => of_decimal (digits_val ds) (exponent_part r2 - Z.of_nat (List.length fp))
      end
  end.

Definition parseFloat (s : jsstring) : number :=
  match trimStart s with
  | c :: s' =>
      if (c =? 45)%N then SFopp (parse_unsigned s')
      else if (c =? 43)%N then parse_unsigned s'
      else parse_unsigned (c :: s')
  | [] => S754_nan
  end.

(** *** Number::toString (radix 10) *)

Fixpoint uint_digits (u : Decimal.uint) : jsstring :=
  match u with
  | Decimal.Nil => []
  | Decimal.D0 u' => 48%N :: uint_digits u'
  | Decimal.D1 u' => 49%N :: uint_digits u'
  | Decimal.D2 u' => 50%N :: uint_digits u'
  | Decimal.D3 u' => 51%N :: uint_digits u'
  | Decimal.D4 u' => 52%N :: uint_digits u'
  | Decimal.D5 u' => 53%N :: uint_digits u'
  | Decimal.D6 u' => 54%N :: uint_digits u'
  | Decimal.D7 u' => 55%N :: uint_digits u'
  | Decimal.D8 u' => 56%N :: uint_digits u'
  | Decimal.D9 u' => 57%N :: uint_digits u'
  end.

(** The decimal digits of a non-negative integer, without leading zeros
    (["0"] for zero). *)
Definition Z_digits (n : Z) : jsstring := uint_digits (N.to_uint (Z.to_N n)).

(** [x * 10^e] rounded down to an integer, for the rational [x = p / q]. *)
Definition scale_floor (p q : Z) (e : Z) : Z :=
  if 0 <=? e then (p * 10 ^ e) / q else p / (q * 10 ^ (- e)).

Definition scale_exact (p q : Z) (e : Z) : bool :=
  if 0 <=? e then (p * 10 ^ e) mod q =? 0 else p mod (q * 10 ^ (- e)) =? 0.

(** The least [n] with [p / q < 10^n], searched upwards from [n]. *)
Fixpoint magnitude_up (fuel : nat) (p q : Z) (n : Z) : Z :=
  match fuel with
  | O => n
  | S f => if scale_floor p q (- n) =? 0 then n else magnitude_up f p q (n + 1)
  end.

Fixpoint magnitude_down (fuel : nat) (p q : Z) (n : Z) : Z :=
  match fuel with
  | O => n
  | S f =>
      if scale_floor p q (- (n - 1)) =? 0 then magnitude_down f p q (n - 1)
      else n
  end.

Definition magnitude (p q : Z) : Z :=
  if q <=? p then magnitude_up 400 p q 1 else magnitude_down 400 p q 0.

(** The shortest digit string [s] (of [k] digits) and the exponent [n] with
    [s * 10^(n-k)] rounding to [x = p / q], as Number::toString asks for. *)
Fixpoint shortest (fuel : nat) (x : number) (p q : Z) (n0 : Z) (k : Z)
  : Z * Z * Z :=
  let lo := scale_floor p q (k - n0) in
  let hi := lo + 1 in
  let norm c := if c =? 10 ^ k then (10 ^ (k - 1), k, n0 + 1) else (c, k, n0) in
  let ok c := SFeqb (of_decimal c (n0 - k)) x in
  match fuel with
  | O => (lo, k, n0)
  | S f =>
      if scale_exact p q (k - n0) then (lo, k, n0)
      else
        match ok lo, ok hi with
        | true, false => (lo, k, n0)
        | false, true => norm hi
        | true, true =>
            (* the nearer of the two; the even one on a tie *)
            let sp := if 0 <=? k - n0 then p * 10 ^ (k - n0) else p in
            let sq := if 0 <=? k - n0 then q else q * 10 ^ (n0 - k) in
            match (2 * sp) ?= ((2 * lo + 1) * sq) with
            | Lt => (lo, k, n0)
            | Gt => norm hi
            | Eq => if Z.even lo then (lo, k, n0) else norm hi
            end
        | false, false => shortest f x p q n0 (k + 1)
        end
  end.

Definition zeros (n : Z) : jsstring := repeat 48%N (Z.to_nat n).

Definition format_decimal (s k n : Z) : jsstring :=
  let ds := Z_digits s in
  if (k <=? n) && (n <=? 21) then ds ++ zeros (n - k)
  else if (0 <? n) && (n <=? 21) then
    firstn (Z.to_nat n) ds ++ js "." ++ skipn (Z.to_nat n) ds
  else if (-6 <? n) && (n <=? 0) then js "0." ++ zeros (- n) ++ ds
  else
    let e := n - 1 in
    let es := (if 0 <=? e then js "+" else js "-") ++ Z_digits (Z.abs e) in
    if k =? 1 then ds ++ js "e" ++ es
    else firstn 1 ds ++ js "." ++ skipn 1 ds ++ js "e" ++ es.

Definition toString_pos (m : positive) (e : Z) : jsstring :=
  let p := if 0 <=? e then Zpos m * 2 ^ e else Zpos m in
  let q := if 0 <=? e then 1 else 2 ^ (- e) in
  let '(s, k, n) := shortest 17 (S754_finite false m e) p q (magnitude p q) 1 in
  format_decimal s k n.

Definition toString (x : number) : jsstring :=
  match x with
  | S754_nan => js "NaN"
  | S754_zero _ => js "0"
  | S754_infinity false => js "Infinity"
  | S754_infinity true => js "-Infinity"
  | S754_finite false m e => toString_pos m e
  | S754_finite true m e => js "-" ++ toString_pos m e
  end.

(** The number a decimal literal of the source denotes. *)
Definition lit (s : string) : number := parseFloat (js s).

End JsNumber.

Import JsNumber.

(** ** Math.random and generateId *)

Module JsRandom.

(** The generator is an oracle: draw [i] is the numerator of the [i]-th
    number, a multiple of 2^-53 in [0, 1); [pos] counts the draws made. *)
Record Rng := { draws : nat -> N; pos : nat }.

Definition Math_random (r : Rng) : number * Rng :=
  (binary_normalize prec emax (Z.of_N (draws r (pos r)) mod 2 ^ 53) (-53) false,
   {| draws := draws r; pos := S (pos r) |}).

Definition digit36 (d : Z) : cu :=
  if d <? 10 then Z.to_N (48 + d) else Z.to_N (87 + d).

(** The base-36 digits of the fraction [p / q], [0 <= p < q]. *)
Fixpoint frac36 (fuel : nat) (p q : Z) : jsstring :=
  match fuel with
  | O => []
  | S f =>
      if p =? 0 then []
      else digit36 ((36 * p) / q) :: frac36 f ((36 * p) mod q) q
  end.

Fixpoint int36 (fuel : nat) (n : Z) (acc : jsstring) : jsstring :=
  match fuel with
  | O => acc
  | S f =>
      if n <? 36 then digit36 n :: acc
      else int36 f (n / 36) (digit36 (n mod 36) :: acc)
  end.

(** [Number.prototype.toString(36)]. The digits of the fraction are those
    of the exact expansion; an implementation may stop at the shortest
    string that identifies the number. *)
Definition toString36 (x : number) : jsstring :=
  match x with
  | S754_nan => js "NaN"
  | S754_zero _ => js "0"
  | S754_infinity s => if s then js "-Infinity" else js "Infinity"
  | S754_finite s m e =>
      let p := if 0 <=? e then Zpos m * 2 ^ e else Zpos m in
      let q := if 0 <=? e then 1 else 2 ^ (- e) in
      (if s then js "-" else [])
        ++ int36 400 (p / q) []
        ++ (if p mod q =? 0 then [] else js "." ++ frac36 1100 (p mod q) q)
  end.

(** [String.prototype.substr(start, length)], for in-range arguments. *)
Definition substr (s : jsstring) (start len : nat) : jsstring :=
  firstn len (skipn start s).

End JsRandom.
Import JsRandom.

(** ** types.ts *)

Inductive ConversionDirection := NAI_TO_PIX | PIX_TO_NAI.

Inductive SegmentType := TText | TWeight.

Record ParsedSegment := {
  seg_id : jsstring;
  seg_type : SegmentType;
  seg_raw : jsstring;
  seg_content : option jsstring;
  seg_weight : option number
}.

Definition segment_type_eqb (a b : SegmentType) : bool :=
  match a, b with
  | TText, TText | TWeight, TWeight => true
  | _, _ => false
  end.

(** ** The converter module *)

Definition generateId (r : Rng) : jsstring * Rng :=
  let '(x, r') := Math_random r in (substr (toString36 x) 2 9, r').

(** [text.replace(/([()])/g, '\\$1')] *)
Fixpoint escapePixAI (text : jsstring) : jsstring :=
  match text with
  | [] => []
  | c :: s =>
      if (c =? 40)%N || (c =? 41)%N then 92%N :: c :: escapePixAI s
      else c :: escapePixAI s
  end.

(** [text.replace(/\\([()])/g, '$1')] *)
Fixpoint unescapePixAI (text : jsstring) : jsstring :=
  match text with
  | [] => []
  | c :: s =>
      match s with
      | d :: s' =>
          if (c =? 92)%N && ((d =? 40)%N || (d =? 41)%N)
          then d :: unescapePixAI s'
          else c :: unescapePixAI s
      | [] => [c]
      end
  end.

Definition roundWeight (num : number) : number :=
  div (Math_round (mul num hundred)) hundred.

(** The fractional part [(?:\.\d+)?] at the head of [s]: the text it
    matches (empty when it does not apply) and the rest. *)
Definition fraction_opt (s : jsstring) : jsstring * jsstring :=
  match s with
  | c :: s' =>
      if (c =? 46)%N then
        match span is_digit s' with
        | ([], _) => ([], s)
        | (fd, r) => (c :: fd, r)
        end
      else ([], s)
  | [] => ([], s)
  end.

(** [/^(\d*(?:\.\d+)?)?::/]: the capture group (undefined when it matched
    nothing) and the length of the match. The greedy choice is the only
    match: giving back a digit leaves a digit where [.] or [:] is required. *)
Definition weightControlRegex (s : jsstring) : option (option jsstring * nat) :=
  let '(ip, r1) := span is_digit s in
  let '(fp, r2) := fraction_opt r1 in
  match starts_with (js "::") r2 with
  | Some _ =>
      let num := ip ++ fp in
      Some (if JsString.truthy num then Some num else None,
            (List.length num + 2)%nat)
  | None => None
  end.

(** The run [(?:[^:()\\]|\\.)*] at the head of [s] and the rest. The two
    alternatives start with different characters, so the run is unique,
    and no shorter run is followed by a colon. *)
Fixpoint content_run (s : jsstring) : jsstring * jsstring :=
  match s with
  | [] => ([], [])
  | c :: s' =>
      if (c =? 92)%N then
        match s' with
        | d :: s'' =>
            if is_line_terminator d then ([], s)
            else let '(a, b) := content_run s'' in (c :: d :: a, b)
        | [] => ([], s)
        end
      else if (c =? 58)%N || (c =? 40)%N || (c =? 41)%N then ([], s)
      else let '(a, b) := content_run s' in (c :: a, b)
  end.

(** [/^\(((?:[^:()\\]|\\.)+):(\d+(?:\.\d+)?)\)/]: the two capture groups
    and the length of the match. *)
Definition explicitWeightRegex (s : jsstring)
  : option (jsstring * jsstring * nat) :=
  match s with
  | c :: s1 =>
      if (c =? 40)%N then
        let '(body, r1) := content_run s1 in
        match body, r1 with
        | _ :: _, colon :: r2 =>
            if (colon =? 58)%N then
              let '(ip, r3) := span is_digit r2 in
              let '(fp, r4) := fraction_opt r3 in
              match ip, r4 with
              | _ :: _, close :: _ =>
                  if (close =? 41)%N then
                    Some (body, ip ++ fp,
                          (List.length body + List.length (ip ++ fp) + 3)%nat)
                  else None
              | _, _ => None
              end
            else None
        | _, _ => None
        end
      else None
  | [] => None
  end.

(** *** parseNovelAI *)

Module NovelAI.

(** The local variables of [parseNovelAI], and the generator its
    [generateId] calls draw from. *)
Record State := {
  segments : list ParsedSegment;
  curlyDepth : Z;
  squareDepth : Z;
  activeBaseWeight : number;
  buffer : jsstring;
  rng : Rng
}.

Definition init (r : Rng) : State :=
  {| segments := []; curlyDepth := 0; squareDepth := 0;
     activeBaseWeight := one; buffer := []; rng := r |}.

Definition resolvedWeight (st : State) : number :=
  let curlyMult := Math_pow (lit "1.05") (curlyDepth st) in
  let squareMult := Math_pow (lit "0.95") (squareDepth st) in
  roundWeight (mul (mul (activeBaseWeight st) curlyMult) squareMult).

Definition flush (st : State) : State :=
  let trimmed := trim (buffer st) in
  if JsString.truthy trimmed then
    let finalWeight := resolvedWeight st in
    let '(i, r) := generateId (rng st) in
    {| segments := segments st ++
         [{| seg_id := i;
             seg_type := if strict_eq finalWeight one then TText else TWeight;
             seg_raw := trimmed;
             seg_content := Some trimmed;
             seg_weight := Some finalWeight |}];
       curlyDepth := curlyDepth st; squareDepth := squareDepth st;
       activeBaseWeight := activeBaseWeight st; buffer := []; rng := r |}
  else
    {| segments := segments st;
       curlyDepth := curlyDepth st; squareDepth := squareDepth st;
       activeBaseWeight := activeBaseWeight st; buffer := []; rng := rng st |}.

(** The body of the branch taken on a weight control token. *)
Definition weightControl (numStr : option jsstring) (st : State) : State :=
  let st1 := flush st in
  let base :=
    match numStr with
    | Some ns =>
        let w := parseFloat ns in
        if negb (is_nan w) then w else activeBaseWeight st1
    | None => one
    end in
  {| segments := segments st1; curlyDepth := 0; squareDepth := 0;
     activeBaseWeight := base; buffer := buffer st1; rng := rng st1 |}.

Definition bracket (dc ds : Z) (st : State) : State :=
  let st1 := flush st in
  {| segments := segments st1;
     curlyDepth := curlyDepth st1 + dc; squareDepth := squareDepth st1 + ds;
     activeBaseWeight := activeBaseWeight st1; buffer := buffer st1;
     rng := rng st1 |}.

Definition append (char : cu) (st : State) : State :=
  {| segments := segments st;
     curlyDepth := curlyDepth st; squareDepth := squareDepth st;
     activeBaseWeight := activeBaseWeight st; buffer := buffer st ++ [char];
     rng := rng st |}.

(** One iteration of the [while] loop on the text from index [i] on:
    the state after it and the text from the new index on. *)
Definition step (st : State) (char : cu) (tl : jsstring) : State * jsstring :=
  let remaining := char :: tl in
  match weightControlRegex remaining with
  | Some (numStr, len) => (weightControl numStr st, skipn len remaining)
  | None =>
      if (char =? 123)%N then (bracket 1 0 st, tl)
      else if (char =? 125)%N then (bracket (-1) 0 st, tl)
      else if (char =? 91)%N then (bracket 0 1 st, tl)
      else if (char =? 93)%N then (bracket 0 (-1) st, tl)
      else if (char =? 44)%N then (flush st, tl)
      else (append char st, tl)
  end.

(** The [while (i < text.length)] loop; [None] when the iterations
    allowed by [fuel] do not reach the end of the text. *)
Fixpoint scan (fuel : nat) (st : State) (rest : jsstring) : option State :=
  match rest with
  | [] => Some st
  | char :: tl =>
      match fuel with
      | O => None
      | S fuel' => let '(st', rest') := step st char tl in scan fuel' st' rest'
      end
  end.

Definition parseNovelAI (r : Rng) (text : jsstring)
  : list ParsedSegment * Rng :=
  if negb (JsString.truthy text) then ([], r)
  else
    match scan (List.length text) (init r) text with
    | Some st => let st' := flush st in (segments st', rng st')
    | None => ([], r)
    end.

End NovelAI.

(** *** parsePixAI *)

Module PixAI.

Record State := {
  segments : list ParsedSegment;
  parenDepth : Z;
  squareDepth : Z;
  buffer : jsstring;
  rng : Rng
}.

Definition init (r : Rng) : State :=
  {| segments := []; parenDepth := 0; squareDepth := 0;
     buffer := []; rng := r |}.

Definition ambientWeight (st : State) : number :=
  let parenMult := Math_pow (lit "1.1") (parenDepth st) in
  let squareMult := Math_pow (lit "0.9") (squareDepth st) in
  mul (mul one parenMult) squareMult.

(** [flush(overrideWeight)]; every call in the source passes no argument,
    [None] here. *)
Definition flush (overrideWeight : option number) (st : State) : State :=
  let trimmed := trim (buffer st) in
  if JsString.truthy trimmed then
    let finalWeight :=
      roundWeight
        match overrideWeight with
        | Some w => w
        | None => ambientWeight st
        end in
    let '(i, r) := generateId (rng st) in
    {| segments := segments st ++
         [{| seg_id := i;
             seg_type := if strict_eq finalWeight one then TText else TWeight;
             seg_raw := trimmed;
             seg_content := Some (unescapePixAI trimmed);
             seg_weight := Some finalWeight |}];
       parenDepth := parenDepth st; squareDepth := squareDepth st;
       buffer := []; rng := r |}
  else
    {| segments := segments st;
       parenDepth := parenDepth st; squareDepth := squareDepth st;
       buffer := []; rng := rng st |}.

(** The body of the branch taken on an explicit weight token
    [(content:weight)], whose text is [whole]. *)
Definition explicitWeight (content numStr whole : jsstring) (st : State)
  : State :=
  let st1 := flush None st in
  let weight := parseFloat numStr in
  let '(i, r) := generateId (rng st1) in
  {| segments := segments st1 ++
       [{| seg_id := i;
           seg_type := TWeight;
           seg_raw := whole;
           seg_content := Some (unescapePixAI (trim content));
           seg_weight := Some weight |}];
     parenDepth := parenDepth st1; squareDepth := squareDepth st1;
     buffer := buffer st1; rng := r |}.

Definition setDepths (p s : Z) (st : State) : State :=
  {| segments := segments st; parenDepth := p; squareDepth := s;
     buffer := buffer st; rng := rng st |}.

Definition append (chars : jsstring) (st : State) : State :=
  {| segments := segments st;
     parenDepth := parenDepth st; squareDepth := squareDepth st;
     buffer := buffer st ++ chars; rng := rng st |}.

(** The bracket, comma and normal character cases. *)
Definition plain (st : State) (char : cu) : State :=
  if (char =? 40)%N then
    let st1 := flush None st in
    setDepths (parenDepth st1 + 1) (squareDepth st1) st1
  else if (char =? 41)%N then
    let st1 := flush None st in
    setDepths (Z.max 0 (parenDepth st1 - 1)) (squareDepth st1) st1
  else if (char =? 91)%N then
    let st1 := flush None st in
    setDepths (parenDepth st1) (squareDepth st1 + 1) st1
  else if (char =? 93)%N then
    let st1 := flush None st in
    setDepths (parenDepth st1) (Z.max 0 (squareDepth st1 - 1)) st1
  else if (char =? 44)%N then flush None st
  else append [char] st.

Definition step (st : State) (char : cu) (tl : jsstring) : State * jsstring :=
  match (char =? 92)%N, tl with
  | true, next :: tl' => (append [char; next] st, tl')
  | _, _ =>
      let remaining := char :: tl in
      match (if (char =? 40)%N then explicitWeightRegex remaining else None) with
      | Some (content, numStr, len) =>
          (explicitWeight content numStr (firstn len remaining) st,
           skipn len remaining)
      | None => (plain st char, tl)
      end
  end.

Fixpoint scan (fuel : nat) (st : State) (rest : jsstring) : option State :=
  match rest with
  | [] => Some st
  | char :: tl =>
      match fuel with
      | O => None
      | S fuel' => let '(st', rest') := step st char tl in scan fuel' st' rest'
      end
  end.

Definition parsePixAI (r : Rng) (text : jsstring)
  : list ParsedSegment * Rng :=
  if negb (JsString.truthy text) then ([], r)
  else
    match scan (List.length text) (init r) text with
    | Some st => let st' := flush None st in (segments st', rng st')
    | None => ([], r)
    end.

End PixAI.

(** *** The serializers *)

Definition undefined_str : jsstring := js "undefined".

(** The filter predicate of [segmentsToPixAI]:
    [seg.content && seg.content.trim().length > 0]. *)
Definition has_content (seg : ParsedSegment) : bool :=
  match seg_content seg with
  | Some c => JsString.truthy c && (0 <? List.length (trim c))%nat
  | None => false
  end.

(** [seg.weight || 1.0] *)
Definition weight_or_one (w : option number) : number :=
  match w with
  | Some x => if JsNumber.truthy x then x else one
  | None => one
  end.

(** The tag [segmentsToPixAI] renders for a segment that passed the filter. *)
Definition renderPixAI (seg : ParsedSegment) : jsstring :=
  let w := weight_or_one (seg_weight seg) in
  let content :=
    escapePixAI match seg_content seg with Some c => c | None => [] end in
  if strict_eq w one then content
  else js "(" ++ content ++ js ":" ++ toString w ++ js ")".

Definition segmentsToPixAI (segs : list ParsedSegment) : jsstring :=
  join (js ", ") (map renderPixAI (filter has_content segs)).

(** A template literal renders an absent field as ["undefined"]. *)
Definition weight_str (w : option number) : jsstring :=
  match w with Some x => toString x | None => undefined_str end.

Definition content_str (c : option jsstring) : jsstring :=
  match c with Some s => s | None => undefined_str end.

Definition renderNovelAI (seg : ParsedSegment) : jsstring :=
  if segment_type_eqb (seg_type seg) TText
     || match seg_weight seg with
        | Some w => strict_eq w one
        | None => false
        end
  then
    match seg_content seg with
    | Some c => if JsString.truthy c then c else seg_raw seg
    | None => seg_raw seg
    end
  else weight_str (seg_weight seg) ++ js "::"
         ++ content_str (seg_content seg) ++ js "::".

Definition segmentsToNovelAI (segs : list ParsedSegment) : jsstring :=
  join (js ", ") (map renderNovelAI segs).

Definition convertToPixAI (r : Rng) (text : jsstring) : jsstring * Rng :=
  let '(segs, r') := NovelAI.parseNovelAI r text in (segmentsToPixAI segs, r').

Definition convertToNovelAI (r : Rng) (text : jsstring) : jsstring * Rng :=
  let '(segs, r') := PixAI.parsePixAI r text in (segmentsToNovelAI segs, r').

(** ** The Converter component: the conversion effect *)

Module Converter.

Record Result := {
  resultText : jsstring;
  resultNegativeText : jsstring;
  segments : list ParsedSegment
}.

Definition with_weight (w : number) (s : ParsedSegment) : ParsedSegment :=
  {| seg_id := seg_id s; seg_type := seg_type s; seg_raw := seg_raw s;
     seg_content := seg_content s; seg_weight := Some w |}.

(** [s.weight === undefined || s.weight >= 0] *)
Definition is_positive (s : ParsedSegment) : bool :=
  match seg_weight s with Some w => ge_zero w | None => true end.

(** [s.weight !== undefined && s.weight < 0] *)
Definition is_negative (s : ParsedSegment) : bool :=
  match seg_weight s with Some w => lt_zero w | None => false end.

(** [{ ...s, weight: Math.abs(s.weight!) }]; on an absent weight
    [Math.abs(undefined)] is NaN. *)
Definition flip_positive (s : ParsedSegment) : ParsedSegment :=
  with_weight
    match seg_weight s with Some w => Math_abs w | None => S754_nan end s.

(** [{ ...s, weight: (s.weight || 1.0) * -1 }] *)
Definition force_negative (s : ParsedSegment) : ParsedSegment :=
  with_weight (mul (weight_or_one (seg_weight s)) (of_Z (-1))) s.

(** The body of the effect: the values given to [setResultText],
    [setResultNegativeText] and [setSegments]. *)
Definition convert (direction : ConversionDirection)
    (sourceText sourceNegativeText : jsstring) (r : Rng) : Result * Rng :=
  match direction with
  | NAI_TO_PIX =>
      let '(parsed, r1) := NovelAI.parseNovelAI r sourceText in
      let positiveSegs := filter is_positive parsed in
      let negativeSegs := map flip_positive (filter is_negative parsed) in
      ({| resultText := segmentsToPixAI positiveSegs;
          resultNegativeText := segmentsToPixAI negativeSegs;
          segments := parsed |}, r1)
  | PIX_TO_NAI =>
      let '(positiveSegs, r1) := PixAI.parsePixAI r sourceText in
      let '(negativeSegsRaw, r2) := PixAI.parsePixAI r1 sourceNegativeText in
      let negativeSegs := map force_negative negativeSegsRaw in
      let allSegments := positiveSegs ++ negativeSegs in
      ({| resultText := segmentsToNovelAI allSegments;
          resultNegativeText := [];
          segments := allSegments |}, r2)
  end.

End Converter.


(** ** The earlier revision of parseNovelAI (src/utils/converter.ts)

    It differs from the revision above in three places: a bracket level adds
    or subtracts 0.1 instead of multiplying, a closing bracket does not take
    a depth below zero, and a weight control token leaves the depths as
    they are. The specification follows the revision above. *)

Module Legacy.

Definition add : number -> number -> number := SFadd prec emax.
Definition sub : number -> number -> number := SFsub prec emax.
Definition thousand : number := of_Z 1000.

Record State := {
  segments : list ParsedSegment;
  currentBaseWeight : number;
  curlyDepth : Z;
  squareDepth : Z;
  buffer : jsstring;
  rng : Rng
}.

Definition init (r : Rng) : State :=
  {| segments := []; currentBaseWeight := one; curlyDepth := 0;
     squareDepth := 0; buffer := []; rng := r |}.

Definition resolvedWeight (st : State) : number :=
  let modifier :=
    sub (mul (of_Z (curlyDepth st)) (lit "0.1"))
        (mul (of_Z (squareDepth st)) (lit "0.1")) in
  let finalWeight := add (currentBaseWeight st) modifier in
  div (Math_round (mul finalWeight thousand)) thousand.

Definition flush (st : State) : State :=
  let trimmed := trim (buffer st) in
  if JsString.truthy trimmed then
    let finalWeight := resolvedWeight st in
    let '(i, r) := generateId (rng st) in
    {| segments := segments st ++
         [{| seg_id := i;
             seg_type := if strict_eq finalWeight one then TText else TWeight;
             seg_raw := trimmed;
             seg_content := Some trimmed;
             seg_weight := Some finalWeight |}];
       currentBaseWeight := currentBaseWeight st;
       curlyDepth := curlyDepth st; squareDepth := squareDepth st;
       buffer := []; rng := r |}
  else
    {| segments := segments st;
       currentBaseWeight := currentBaseWeight st;
       curlyDepth := curlyDepth st; squareDepth := squareDepth st;
       buffer := []; rng := rng st |}.

Definition weightControl (numStr : option jsstring) (st : State) : State :=
  let st1 := flush st in
  let base :=
    match numStr with
    | Some ns =>
        let w := parseFloat ns in
        if negb (is_nan w) then w else currentBaseWeight st1
    | None => one
    end in
  {| segments := segments st1; currentBaseWeight := base;
     curlyDepth := curlyDepth st1; squareDepth := squareDepth st1;
     buffer := buffer st1; rng := rng st1 |}.

Definition setDepths (c s : Z) (st : State) : State :=
  {| segments := segments st; currentBaseWeight := currentBaseWeight st;
     curlyDepth := c; squareDepth := s; buffer := buffer st; rng := rng st |}.

Definition append (char : cu) (st : State) : State :=
  {| segments := segments st; currentBaseWeight := currentBaseWeight st;
     curlyDepth := curlyDepth st; squareDepth := squareDepth st;
     buffer := buffer st ++ [char]; rng := rng st |}.

Definition step (st : State) (char : cu) (tl : jsstring) : State * jsstring :=
  let remaining := char :: tl in
  match weightControlRegex remaining with
  | Some (numStr, len) => (weightControl numStr st, skipn len remaining)
  | None =>
      if (char =? 123)%N then
        let st1 := flush st in
        (setDepths (curlyDepth st1 + 1) (squareDepth st1) st1, tl)
      else if (char =? 125)%N then
        let st1 := flush st in
        (setDepths (Z.max 0 (curlyDepth st1 - 1)) (squareDepth st1) st1, tl)
      else if (char =? 91)%N then
        let st1 := flush st in
        (setDepths (curlyDepth st1) (squareDepth st1 + 1) st1, tl)
      else if (char =? 93)%N then
        let st1 := flush st in
        (setDepths (curlyDepth st1) (Z.max 0 (squareDepth st1 - 1)) st1, tl)
      else if (char =? 44)%N then (flush st, tl)
      else (append char st, tl)
  end.

Fixpoint scan (fuel : nat) (st : State) (rest : jsstring) : option State :=
  match rest with
  | [] => Some st
  | char :: tl =>
      match fuel with
      | O => None
      | S fuel' => let '(st', rest') := step st char tl in scan fuel' st' rest'
      end
  end.

Definition parseNovelAI (r : Rng) (text : jsstring)
  : list ParsedSegment * Rng :=
  if negb (JsString.truthy text) then ([], r)
  else
    match scan (List.length text) (init r) text with
    | Some st => let st' := flush st in (segments st', rng st')
    | None => ([], r)
    end.

End Legacy.

(** * Vocabulary of the properties *)

(** ** Segments up to their identifiers *)

(** A segment without its identifier. *)
Definition erase_id (s : ParsedSegment) : ParsedSegment :=
  {| seg_id := []; seg_type := seg_type s; seg_raw := seg_raw s;
     seg_content := seg_content s; seg_weight := seg_weight s |}.

(** The segment, without identifier, of a type, raw text, content and
    weight. *)
Definition erased (ty : SegmentType) (raw content : string) (w : number)
  : ParsedSegment :=
  {| seg_id := []; seg_type := ty; seg_raw := js raw;
     seg_content := Some (js content); seg_weight := Some w |}.

(** A state of the generator, to run the code on. *)
Definition sample_rng : Rng :=
  {| draws := fun i => (N.of_nat i * 1234567891234567 + 987654321987)%N;
     pos := 0 |}.

(** Two scanner states that differ in identifiers and generator only. *)
Definition nai_sim (a b : NovelAI.State) : Prop :=
  map erase_id (NovelAI.segments a) = map erase_id (NovelAI.segments b)
  /\ NovelAI.curlyDepth a = NovelAI.curlyDepth b
  /\ NovelAI.squareDepth a = NovelAI.squareDepth b
  /\ NovelAI.activeBaseWeight a = NovelAI.activeBaseWeight b
  /\ NovelAI.buffer a = NovelAI.buffer b.

Definition pix_sim (a b : PixAI.State) : Prop :=
  map erase_id (PixAI.segments a) = map erase_id (PixAI.segments b)
  /\ PixAI.parenDepth a = PixAI.parenDepth b
  /\ PixAI.squareDepth a = PixAI.squareDepth b
  /\ PixAI.buffer a = PixAI.buffer b.

(** The generator during a scan started at [r0]: the same oracle, one draw
    per segment. *)
Definition nai_rng_inv (r0 : Rng) (st : NovelAI.State) : Prop :=
  draws (NovelAI.rng st) = draws r0
  /\ pos (NovelAI.rng st) = (pos r0 + List.length (NovelAI.segments st))%nat.

Definition pix_rng_inv (r0 : Rng) (st : PixAI.State) : Prop :=
  draws (PixAI.rng st) = draws r0
  /\ pos (PixAI.rng st) = (pos r0 + List.length (PixAI.segments st))%nat.

(** ** Contents *)

(** A segment whose content is present and not blank. *)
Definition nonblank_content (s : ParsedSegment) : Prop :=
  exists c, seg_content s = Some c /\ JsString.truthy (trim c) = true.

(** A segment of the explicit weight path: its raw text starts with the
    opening parenthesis of the token. *)
Definition override_segment (s : ParsedSegment) : Prop :=
  exists tl, seg_raw s = 40%N :: tl.

(** ** Weights *)

(** A segment whose weight is present, finite and not NaN. *)
Definition finite_weight (s : ParsedSegment) : Prop :=
  exists w, seg_weight s = Some w /\ is_finite w = true.

(** A number that is zero or a finite canonical binary64 value below
    [2^E] in magnitude. *)
Definition bounded_by (E : Z) (x : number) : Prop :=
  match x with
  | S754_zero _ => True
  | S754_finite _ m e =>
      bounded prec emax m e = true /\ Zpos (digits2_pos m) + e <= E
  | _ => False
  end.

(** A number whose sign bit, if it has one, is [s]. *)
Definition sign_is (s : bool) (x : number) : Prop :=
  match x with
  | S754_zero s' | S754_infinity s' | S754_finite s' _ _ => s' = s
  | S754_nan => True
  end.

(** Equality of representations. *)
Definition number_eqb (x y : number) : bool :=
  match x, y with
  | S754_zero a, S754_zero b => Bool.eqb a b
  | S754_infinity a, S754_infinity b => Bool.eqb a b
  | S754_nan, S754_nan => true
  | S754_finite a m e, S754_finite b n f =>
      Bool.eqb a b && Pos.eqb m n && Z.eqb e f
  | _, _ => false
  end.

(** The text a number pattern captures: digits [ip], then possibly a point
    and at least one digit [fp]. *)
Definition decimal_shape (ip fp : jsstring) : Prop :=
  forallb is_digit ip = true
  /\ (fp = [] \/ exists fd, fp = 46%N :: fd /\ fd <> []
                           /\ forallb is_digit fd = true).

Definition frac_digits (fp : jsstring) : jsstring :=
  match fp with [] => [] | _ :: fd => fd end.

(** A text that [\d+(?:\.\d+)?] matches whole. *)
Definition decimal_lit (s : jsstring) : bool :=
  match span is_digit s with
  | (_ :: _, r1) =>
      match fraction_opt r1 with (_, []) => true | _ => false end
  | _ => false
  end.

(** The weight [c / 100]: the binary64 value nearest to it. *)
Definition centi (c : Z) : number := of_decimal c (-2).

(** The weight [c / 100] is truthy; it is 1 when [c] is 100, and otherwise
    it is not 1, is rendered as a decimal literal and parsed back to
    itself. *)
Definition centi_ok (c : Z) : bool :=
  let w := centi c in
  JsNumber.truthy w
  && (if c =? 100 then number_eqb w one
      else negb (strict_eq w one) && decimal_lit (toString w)
           && number_eqb (parseFloat (toString w)) w).

(** A literal of [n] digits 9. *)
Definition nines (n : nat) : jsstring := repeat 57%N n.

(** ** Numbers and nesting of a text *)

(** The largest value of [f] on the suffixes of a text. *)
Fixpoint over_suffixes (f : jsstring -> Z) (s : jsstring) : Z :=
  Z.max (f s) match s with [] => 0 | _ :: tl => over_suffixes f tl end.

(** The number of digits a text starts with. *)
Definition leading_digits (s : jsstring) : nat :=
  List.length (fst (span is_digit s)).

(** The digits before the point of the number that a weight control token
    at the head of [s] captures, and of the number of an explicit weight
    token at the head of [s]; 0 where no token matches. *)
Definition nai_literal_digits (s : jsstring) : Z :=
  match weightControlRegex s with
  | Some (Some _, _) => Z.of_nat (leading_digits s)
  | _ => 0
  end.

Definition pix_literal_digits (s : jsstring) : Z :=
  match explicitWeightRegex s with
  | Some (_, ns, _) => Z.of_nat (leading_digits ns)
  | None => 0
  end.

(** The most digits before the point in a number of a weight token of the
    text, for each format. *)
Definition nai_number_digits : jsstring -> Z :=
  over_suffixes nai_literal_digits.

Definition pix_number_digits : jsstring -> Z :=
  over_suffixes pix_literal_digits.

(** The depth by which the brackets of [parseNovelAI] raise a weight: the
    open curly brackets, times 1.05 each, and the square brackets closed
    without being open, divided by 0.95 each. *)
Definition nai_raise (cd sd : Z) : Z := Z.max cd 0 + Z.max (- sd) 0.

(** The largest such depth on the way through [s] from the depths [cd] and
    [sd], and the largest over the stretches of a text: a weight control
    token sets both depths back to 0 wherever it stands. *)
Fixpoint nai_reach (cd sd : Z) (s : jsstring) : Z :=
  Z.max (nai_raise cd sd)
    match s with
    | [] => 0
    | c :: tl =>
        if (c =? 123)%N then nai_reach (cd + 1) sd tl
        else if (c =? 125)%N then nai_reach (cd - 1) sd tl
        else if (c =? 91)%N then nai_reach cd (sd + 1) tl
        else if (c =? 93)%N then nai_reach cd (sd - 1) tl
        else nai_reach cd sd tl
    end.

Definition nai_depth : jsstring -> Z := over_suffixes (nai_reach 0 0).

(** The deepest nesting of parentheses on the way through [s] from the
    depth [pd]: as in [parsePixAI], a backslash hides the character after
    it and a closing parenthesis at depth 0 is ignored; the parentheses of
    an explicit weight token, which the scanner passes over, count as one
    level. Square brackets lower a weight, whatever their depth. *)
Fixpoint pix_reach (pd : Z) (s : jsstring) : Z :=
  Z.max pd
    match s with
    | [] => 0
    | c :: tl =>
        if (c =? 92)%N then
          match tl with
          | _ :: tl' => pix_reach pd tl'
          | [] => 0
          end
        else if (c =? 40)%N then pix_reach (pd + 1) tl
        else if (c =? 41)%N then pix_reach (Z.max 0 (pd - 1)) tl
        else pix_reach pd tl
    end.

Definition pix_depth : jsstring -> Z := pix_reach 0.

(** A character that is no backslash and no parenthesis. *)
Definition depth_neutral (c : cu) : bool :=
  negb ((c =? 92) || (c =? 40) || (c =? 41))%N.

(** The digits and the brackets of a text. *)
Definition digit_count (s : jsstring) : nat := List.length (filter is_digit s).

Definition is_bracket (c : cu) : bool :=
  ((c =? 40) || (c =? 41) || (c =? 91) || (c =? 93) || (c =? 123)
   || (c =? 125))%N.

Definition bracket_count (s : jsstring) : nat :=
  List.length (filter is_bracket s).

(** A number of binary digits that holds every integer of [D] decimal
    digits. *)
Definition digit_bits (D : Z) : Z := (10 * D + 2) / 3.

(** ** Invariants of the scanners *)

(** The state of [parseNovelAI] with [rest] left to scan: every segment
    has a finite weight, the base weight is below [10^D], as is every
    number to come, and the depths stay within [B]. *)
Definition nai_bounded_inv (D B : Z) (st : NovelAI.State) (rest : jsstring)
  : Prop :=
  Forall finite_weight (NovelAI.segments st)
  /\ bounded_by (digit_bits D + 2) (NovelAI.activeBaseWeight st)
  /\ nai_reach (NovelAI.curlyDepth st) (NovelAI.squareDepth st) rest <= B
  /\ nai_depth rest <= B
  /\ nai_number_digits rest <= D.

Definition pix_bounded_inv (D B : Z) (st : PixAI.State) (rest : jsstring)
  : Prop :=
  Forall finite_weight (PixAI.segments st)
  /\ 0 <= PixAI.parenDepth st /\ 0 <= PixAI.squareDepth st
  /\ pix_reach (PixAI.parenDepth st) rest <= B
  /\ pix_number_digits rest <= D.

(** No segment of [parseNovelAI] has a negative weight, and the base weight
    has no minus sign. *)
Definition nai_sign_inv (st : NovelAI.State) : Prop :=
  Forall (fun s => Converter.is_negative s = false) (NovelAI.segments st)
  /\ sign_is false (NovelAI.activeBaseWeight st).

(** ** The round trip through Format B *)

(** Contents whose rendering in Format B scans back as one tag: under an
    explicit weight, and as plain text. *)
Definition token_safe (content : jsstring) : bool :=
  forallb (fun c => negb ((c =? 92) || (c =? 58))%N) content.

Definition plain_safe (content : jsstring) : bool :=
  forallb (fun c => negb ((c =? 92) || (c =? 44) || (c =? 91) || (c =? 93))%N)
          content.

(** A segment with non-blank content and a weight from 0.01 to 99.99 in
    steps of 0.01, whose content has no character that Format B would read
    as syntax: no backslash; no colon under a weight other than 1; no comma
    or square bracket under the weight 1. *)
Definition roundtrip_segment (s : ParsedSegment) : Prop :=
  exists content c,
    seg_content s = Some content /\ seg_weight s = Some (centi c)
    /\ 1 <= c <= 9999
    /\ JsString.truthy (trim content) = true
    /\ (if c =? 100 then plain_safe content else token_safe content) = true.

(** A text made of escape pairs and single characters: every backslash is
    followed by a character that [pair] admits, and every other character
    is one that [single] admits. *)
Fixpoint escaped_text (pair single : cu -> bool) (s : jsstring) : bool :=
  match s with
  | [] => true
  | c :: s' =>
      if (c =? 92)%N then
        match s' with
        | d :: s'' => pair d && escaped_text pair single s''
        | [] => false
        end
      else single c && escaped_text pair single s'
  end.

(** An escaped content that the content part of the explicit weight
    pattern matches whole: outside the escape pairs no colon and no
    parenthesis, and no line terminator after a backslash. *)
Definition token_text : jsstring -> bool :=
  escaped_text (fun d => negb (is_line_terminator d))
               (fun c => negb ((c =? 58) || (c =? 40) || (c =? 41))%N).

(** An escaped content that the loop of [parsePixAI] moves to the buffer:
    outside the escape pairs no parenthesis, square bracket or comma. *)
Definition plain_text : jsstring -> bool :=
  escaped_text (fun _ => true)
               (fun c => negb ((c =? 40) || (c =? 41) || (c =? 91)
                               || (c =? 93) || (c =? 44))%N).

(** A number whose string is digits with an optional fraction that
    [parseFloat] reads back to the number. *)
Definition reads_back (w : number) : bool :=
  decimal_lit (toString w) && number_eqb (parseFloat (toString w)) w.

(** A weight in the override form: not zero or NaN, and either 1 or a
    number other than 1 that reads back from its string. *)
Definition override_weight (w : number) : bool :=
  JsNumber.truthy w
  && (number_eqb w one || negb (strict_eq w one) && reads_back w).

(** A segment in the override form whose content is not blank and, once
    escaped, scans as one tag: as plain text under the weight 1, as the
    content of an explicit weight token otherwise. *)
Definition override_form (s : ParsedSegment) : bool :=
  match seg_content s, seg_weight s with
  | Some content, Some w =>
      JsString.truthy (trim content) && override_weight w
      && (if strict_eq w one then plain_text (escapePixAI content)
          else token_text (escapePixAI content))
  | _, _ => false
  end.

(** The loop of [parsePixAI] on [rest], with the iterations it needs. *)
Definition pix_run (st : PixAI.State) (rest : jsstring) : option PixAI.State :=
  PixAI.scan (List.length rest) st rest.

(** A state between two tags of a rendered text: blank buffer, no open
    bracket. *)
Definition pix_idle (st : PixAI.State) : Prop :=
  JsString.truthy (trim (PixAI.buffer st)) = false
  /\ PixAI.parenDepth st = 0 /\ PixAI.squareDepth st = 0.

(** ** Tags under brackets *)

(** The loop of [parseNovelAI] on [rest], with the iterations it needs. *)
Definition nai_run (st : NovelAI.State) (rest : jsstring)
  : option NovelAI.State :=
  NovelAI.scan (List.length rest) st rest.


(** * Vocabulary of the further properties *)

(** ** Prompts without weight syntax *)

(** A character of a tag that [parseNovelAI] keeps as text when no colon
    follows in the prompt: no colon, curly or square bracket, or comma. *)
Definition nai_plain_char (c : cu) : bool :=
  negb ((c =? 58) || (c =? 123) || (c =? 125) || (c =? 91) || (c =? 93)
        || (c =? 44))%N.

(** A character of a tag that [parsePixAI] keeps as text: no backslash,
    parenthesis, square bracket or comma. *)
Definition pix_plain_char (c : cu) : bool :=
  negb ((c =? 92) || (c =? 40) || (c =? 41) || (c =? 91) || (c =? 93)
        || (c =? 44))%N.

Definition not_colon (c : cu) : bool := negb (c =? 58)%N.

(** A tag that is not blank. *)
Definition nonblank (t : jsstring) : bool := JsString.truthy (trim t).

(** The segment, without identifier, of a tag scanned outside any weight
    syntax: weight 1, the trimmed tag as raw text and as content. *)
Definition plain_segment (t : jsstring) : ParsedSegment :=
  {| seg_id := []; seg_type := TText; seg_raw := trim t;
     seg_content := Some (trim t); seg_weight := Some one |}.

(** ** Weights and segments of the scanners *)

(** A number in canonical form: a finite value has the mantissa and the
    exponent of its binary64 encoding. *)
Definition canonical (x : number) : Prop :=
  match x with
  | S754_finite _ m e => bounded prec emax m e = true
  | _ => True
  end.

(** A character that [parseNovelAI] appends to its buffer: no curly or
    square bracket and no comma. *)
Definition nai_buffer_char (c : cu) : bool :=
  negb ((c =? 123) || (c =? 125) || (c =? 91) || (c =? 93) || (c =? 44))%N.

(** The form of a segment of [parseNovelAI]. *)
Definition nai_segment_form (s : ParsedSegment) : Prop :=
  exists w,
    seg_weight s = Some w
    /\ seg_content s = Some (seg_raw s)
    /\ seg_type s = (if strict_eq w one then TText else TWeight)
    /\ seg_raw s <> [] /\ trim (seg_raw s) = seg_raw s
    /\ forallb nai_buffer_char (seg_raw s) = true
    /\ canonical w /\ lt_zero w = false.

(** The form of a segment of [parsePixAI]. *)
Definition pix_segment_form (s : ParsedSegment) : Prop :=
  exists w c,
    seg_weight s = Some w /\ seg_content s = Some c
    /\ (seg_type s = TText -> strict_eq w one = true)
    /\ seg_raw s <> []
    /\ canonical w /\ sign_is false w.

(** ** The Converter component: its state and [toggleDirection] *)

Module Component.

(** The values of the [useState] hooks. *)
Record State := {
  direction : ConversionDirection;
  sourceText : jsstring;
  sourceNegativeText : jsstring;
  resultText : jsstring;
  resultNegativeText : jsstring;
  segments : list ParsedSegment
}.

Definition initial : State :=
  {| direction := NAI_TO_PIX; sourceText := []; sourceNegativeText := [];
     resultText := []; resultNegativeText := []; segments := [] |}.

(** The effect: it runs after a render in which [sourceText],
    [sourceNegativeText] or [direction] changed and sets the three
    results. *)
Definition effect (s : State) (r : Rng) : State * Rng :=
  let '(res, r') :=
    Converter.convert (direction s) (sourceText s) (sourceNegativeText s) r in
  ({| direction := direction s; sourceText := sourceText s;
      sourceNegativeText := sourceNegativeText s;
      resultText := Converter.resultText res;
      resultNegativeText := Converter.resultNegativeText res;
      segments := Converter.segments res |}, r').

(** [toggleDirection]: the other direction, with the outputs as inputs. *)
Definition toggleDirection (s : State) : State :=
  {| direction :=
       match direction s with
       | NAI_TO_PIX => PIX_TO_NAI
       | PIX_TO_NAI => NAI_TO_PIX
       end;
     sourceText := resultText s;
     sourceNegativeText := resultNegativeText s;
     resultText := resultText s;
     resultNegativeText := resultNegativeText s;
     segments := segments s |}.

End Component.

(** ** The round trip through Format B, contents included *)

(** A segment whose content has no white space at either end. *)
Definition trimmed_content (s : ParsedSegment) : Prop :=
  exists c, seg_content s = Some c /\ trim c = c.

(** What [parsePixAI] scans, identifier apart, from the rendering of a
    segment of weight [c / 100]: the content and the weight of the
    segment; the type and the raw text of the path that scans it. *)
Definition rescanned (s : ParsedSegment) : ParsedSegment :=
  {| seg_id := [];
     seg_type :=
       match seg_weight s with
       | Some w => if strict_eq w one then TText else TWeight
       | None => TText
       end;
     seg_raw := renderPixAI s;
     seg_content := seg_content s;
     seg_weight := seg_weight s |}.

(** ** The round trip through Format A *)

(** The weight [c / 100] is what [roundWeight] makes of it, and what
    [parseNovelAI] resolves from it as base weight at depth zero. *)
Definition centi_fixed (c : Z) : bool :=
  number_eqb
    (roundWeight (mul (mul (centi c) (Math_pow (lit "1.05") 0))
                      (Math_pow (lit "0.95") 0)))
    (centi c)
  && number_eqb (roundWeight (centi c)) (centi c).

(** A content that [parseNovelAI] reads back as one tag between [w::] and
    [::]: no colon, bracket or comma, and no digit at the end. *)
Definition nai_token_safe (content : jsstring) : bool :=
  forallb nai_plain_char content && negb (is_digit (last content 0%N)).

(** A segment of weight [c / 100], from 0.01 to 99.99, of type [text]
    exactly when the weight is 1, whose content is trimmed, not empty and
    free of the characters NovelAI reads as syntax. *)
Definition nai_roundtrip_segment (s : ParsedSegment) : Prop :=
  exists content c,
    seg_content s = Some content /\ seg_weight s = Some (centi c)
    /\ 1 <= c <= 9999
    /\ seg_type s = (if c =? 100 then TText else TWeight)
    /\ content <> [] /\ trim content = content
    /\ (if c =? 100 then forallb nai_plain_char content
        else nai_token_safe content) = true.

(** What [parseNovelAI] scans, identifier apart, from the rendering of
    such a segment: the segment, with its content as raw text. *)
Definition nai_rescanned (s : ParsedSegment) : ParsedSegment :=
  {| seg_id := []; seg_type := seg_type s;
     seg_raw := match seg_content s with Some c => c | None => [] end;
     seg_content := seg_content s; seg_weight := seg_weight s |}.

(** A state of [parseNovelAI] between two tags of a rendered text: blank
    buffer, no open bracket, base weight 1. *)
Definition nai_idle (st : NovelAI.State) : Prop :=
  forallb is_space (NovelAI.buffer st) = true
  /\ NovelAI.curlyDepth st = 0 /\ NovelAI.squareDepth st = 0
  /\ NovelAI.activeBaseWeight st = one.

(** ** The PromptHighlighter component *)

Module PromptHighlighter.

(** What the component renders for a segment: a plain span with its key
    and text, or a badge with its key, colour classes, and the weight and
    content it shows. *)
Inductive Span :=
| Plain (key text : jsstring)
| Badge (key colorClass : jsstring) (weight : option number)
        (content : option jsstring).

Definition high : jsstring := js "bg-red-950/40 text-red-200 border-red-800/50".
Definition low : jsstring :=
  js "bg-blue-950/40 text-blue-200 border-blue-800/50".
Definition neutral : jsstring :=
  js "bg-green-950/40 text-green-200 border-green-800/50".

Definition getWeightColor (weight : number) : jsstring :=
  if SFltb one weight then high
  else if SFltb weight one then low
  else neutral.

(** The body of [segments.map]. *)
Definition segmentSpan (seg : ParsedSegment) : Span :=
  if segment_type_eqb (seg_type seg) TText
     || match seg_weight seg with
        | Some w => strict_eq w one
        | None => false
        end
  then
    Plain (seg_id seg)
      match seg_content seg with
      | Some c => if JsString.truthy c then c else seg_raw seg
      | None => seg_raw seg
      end
  else
    Badge (seg_id seg) (getWeightColor (weight_or_one (seg_weight seg)))
          (seg_weight seg) (seg_content seg).

(** The component: the placeholder when there is no segment and a
    placeholder is given, the spans otherwise. *)
Inductive View :=
| Placeholder (text : jsstring)
| Spans (spans : list Span).

Definition render (segments : list ParsedSegment)
    (placeholder : option jsstring) : View :=
  match segments, placeholder with
  | [], Some p => if JsString.truthy p then Placeholder p else Spans []
  | _, _ => Spans (map segmentSpan segments)
  end.

End PromptHighlighter.

(** ** Identifiers *)

(** A digit of base 36: [0-9a-z]. *)
Definition is_base36 (c : cu) : bool :=
  (is_digit c || (97 <=? c) && (c <=? 122))%N.

(** ** The earlier revision *)

(** The loop of the earlier [parseNovelAI] on [rest], with the iterations
    it needs. *)
Definition legacy_run (st : Legacy.State) (rest : jsstring)
  : option Legacy.State :=
  Legacy.scan (List.length rest) st rest.

(** ** Groups of tags in brackets *)

(** The segment, without identifier, that [parseNovelAI] scans from the
    tag [t] at the depths [n] and [m] under the base weight 1. *)
Definition nai_group_segment (n m : Z) (t : jsstring) : ParsedSegment :=
  let w :=
    roundWeight (mul (mul one (Math_pow (lit "1.05") n))
                     (Math_pow (lit "0.95") m)) in
  {| seg_id := [];
     seg_type := if strict_eq w one then TText else TWeight;
     seg_raw := trim t; seg_content := Some (trim t);
     seg_weight := Some w |}.

(** The segment, without identifier, that [parsePixAI] scans from the tag
    [t] at the depths [n] and [m]. *)
Definition pix_group_segment (n m : Z) (t : jsstring) : ParsedSegment :=
  let w :=
    roundWeight (mul (mul one (Math_pow (lit "1.1") n))
                     (Math_pow (lit "0.9") m)) in
  {| seg_id := [];
     seg_type := if strict_eq w one then TText else TWeight;
     seg_raw := trim t; seg_content := Some (trim t);
     seg_weight := Some w |}.

(** A character of a tag in a PixAI group: no backslash, parenthesis,
    square bracket, comma or colon. *)
Definition pix_group_char (c : cu) : bool := pix_plain_char c && not_colon c.

(** * Properties *)

(** ** Lists and strings *)

Lemma skipn_length_le {A} (n : nat) (l : list A) :
  (List.length (skipn n l) <= List.length l)%nat.
Proof. rewrite length_skipn. lia. Qed.

Lemma forallb_rev {A} (p : A -> bool) l : forallb p (rev l) = forallb p l.
Proof.
  induction l as [|x l IH]; simpl; [reflexivity|].
  rewrite forallb_app, IH. simpl. rewrite andb_true_r. apply andb_comm.
Qed.

Lemma join_cons2 sep x y l :
  join sep (x :: y :: l) = x ++ sep ++ join sep (y :: l).
Proof. reflexivity. Qed.

Lemma span_eq p s : fst (span p s) ++ snd (span p s) = s.
Proof.
  induction s as [|c s IH]; simpl; [reflexivity|].
  destruct (p c); [|reflexivity]. destruct (span p s). simpl in *. congruence.
Qed.

Lemma span_all p s t :
  forallb p s = true -> span p (s ++ t) = (s ++ fst (span p t), snd (span p t)).
Proof.
  induction s as [|c s IH]; simpl; intros H.
  - now destruct (span p t).
  - apply andb_prop in H as [Hc Hs]. rewrite Hc, (IH Hs). reflexivity.
Qed.

Lemma span_prefix p s : forallb p (fst (span p s)) = true.
Proof.
  induction s as [|c s IH]; simpl; [reflexivity|].
  destruct (p c) eqn:E; [|reflexivity]. destruct (span p s). simpl in *.
  now rewrite E.
Qed.

Lemma span_stop p s t :
  snd (span p s) <> [] -> span p (s ++ t) = (fst (span p s), snd (span p s) ++ t).
Proof.
  induction s as [|c s IH]; simpl; intros H; [congruence|].
  destruct (p c); [|reflexivity]. destruct (span p s) as [a b]. simpl in *.
  now rewrite (IH H).
Qed.

Lemma starts_with_eq pre : forall s r, starts_with pre s = Some r -> s = pre ++ r.
Proof.
  induction pre as [|p pre IH]; intros [|c s] r H; simpl in H;
    try discriminate; try (injection H as <-; reflexivity).
  unfold cu_eqb in H. destruct (N.eqb_spec p c) as [->|]; [|discriminate].
  simpl. f_equal. now apply IH.
Qed.

Lemma is_digit_range c : is_digit c = true -> (48 <= c <= 57)%N.
Proof.
  unfold is_digit. intros H. apply andb_prop in H as [A B].
  apply N.leb_le in A. apply N.leb_le in B. lia.
Qed.

Lemma is_digit_not_space c : is_digit c = true -> is_space c = false.
Proof.
  intros H. apply is_digit_range in H. unfold is_space.
  repeat match goal with
  | |- context [(c <=? ?k)%N] => rewrite (proj2 (N.leb_gt c k)) by lia
  | |- context [(?k <=? c)%N] => rewrite (proj2 (N.leb_gt k c)) by lia
  | |- context [(c =? ?k)%N] => rewrite (proj2 (N.eqb_neq c k)) by lia
  end.
  now rewrite !andb_false_r.
Qed.

Lemma is_digit_neq c k :
  is_digit c = true -> (k < 48 \/ 57 < k)%N -> (c =? k)%N = false.
Proof. intros H Hk. apply is_digit_range in H. apply N.eqb_neq. lia. Qed.

Lemma span_digits_then ip rest :
  forallb is_digit ip = true ->
  match rest with [] => True | c :: _ => is_digit c = false end ->
  span is_digit (ip ++ rest) = (ip, rest).
Proof.
  intros Hi Hr. rewrite span_all by exact Hi.
  destruct rest as [|c rest]; [simpl; now rewrite app_nil_r|].
  simpl. rewrite Hr. simpl. now rewrite app_nil_r.
Qed.

Lemma span_digits_all ds :
  forallb is_digit ds = true -> span is_digit ds = (ds, []).
Proof.
  intros H. pose proof (span_digits_then ds [] H I) as E.
  now rewrite app_nil_r in E.
Qed.

Lemma trimStart_nil_iff s : trimStart s = [] <-> forallb is_space s = true.
Proof.
  induction s as [|c s IH]; simpl; [tauto|].
  destruct (is_space c); simpl; [exact IH|]. split; discriminate.
Qed.

Lemma trimStart_blank s :
  forallb is_space (trimStart s) = true -> forallb is_space s = true.
Proof.
  induction s as [|c s IH]; simpl; [auto|].
  destruct (is_space c) eqn:E; simpl; [exact IH|]. rewrite E. discriminate.
Qed.

Lemma trim_nil_iff s : trim s = [] <-> forallb is_space s = true.
Proof.
  unfold trim, trimEnd. split.
  - intros H. apply (f_equal (@rev cu)) in H. rewrite rev_involutive in H.
    simpl in H. apply trimStart_nil_iff in H. rewrite forallb_rev in H.
    now apply trimStart_blank.
  - intros H. apply trimStart_nil_iff in H. rewrite H. reflexivity.
Qed.

Lemma truthy_trim s :
  JsString.truthy (trim s) = negb (forallb is_space s).
Proof.
  destruct (forallb is_space s) eqn:E.
  - apply trim_nil_iff in E. now rewrite E.
  - destruct (trim s) eqn:T; [|reflexivity].
    apply trim_nil_iff in T. congruence.
Qed.

Lemma trim_blank s :
  forallb is_space (trim s) = true -> forallb is_space s = true.
Proof.
  unfold trim, trimEnd. rewrite forallb_rev. intros H.
  apply trimStart_blank in H. rewrite forallb_rev in H.
  now apply trimStart_blank.
Qed.

Lemma trim_trim_truthy s :
  JsString.truthy (trim s) = true -> JsString.truthy (trim (trim s)) = true.
Proof.
  rewrite !truthy_trim. intros H. apply negb_true_iff in H.
  apply negb_true_iff. destruct (forallb is_space (trim s)) eqn:E; auto.
  apply trim_blank in E. congruence.
Qed.

Lemma escapePixAI_blank s :
  forallb is_space (escapePixAI s) = forallb is_space s.
Proof.
  induction s as [|c s IH]; simpl; [reflexivity|].
  destruct ((c =? 40)%N || (c =? 41)%N) eqn:E; simpl; [|now rewrite IH].
  apply orb_prop in E as [E|E]; apply N.eqb_eq in E; subst c; reflexivity.
Qed.

Lemma unescapePixAI_blank n : forall s,
  (List.length s <= n)%nat ->
  forallb is_space (unescapePixAI s) = true -> forallb is_space s = true.
Proof.
  induction n as [|n IH]; intros [|c s] Hl; simpl in Hl; try lia; auto.
  cbn [unescapePixAI]. destruct s as [|d s'].
  - auto.
  - destruct ((c =? 92)%N && ((d =? 40)%N || (d =? 41)%N)) eqn:E.
    + apply andb_prop in E as [_ E]. cbn [forallb]. intros H.
      apply andb_prop in H as [Hd _]. exfalso.
      apply orb_prop in E as [E|E]; apply N.eqb_eq in E; subst d; discriminate.
    + cbn [forallb]. intros H. apply andb_prop in H as [Hc Hs].
      rewrite Hc. apply (IH (d :: s')); [simpl in *; lia|exact Hs].
Qed.

Lemma filter_idem {A} (p : A -> bool) l : filter p (filter p l) = filter p l.
Proof.
  induction l as [|a l IH]; [reflexivity|]. cbn [filter].
  destruct (p a) eqn:E; [|exact IH]. cbn [filter]. now rewrite E, IH.
Qed.

Lemma over_suffixes_head f s : f s <= over_suffixes f s.
Proof. destruct s; cbn [over_suffixes]; lia. Qed.

Lemma over_suffixes_cons f c s : over_suffixes f s <= over_suffixes f (c :: s).
Proof. cbn [over_suffixes]. lia. Qed.

Lemma over_suffixes_nonneg f s : 0 <= over_suffixes f s.
Proof.
  induction s as [|c s IH]; cbn [over_suffixes]; [lia|].
  cbn [over_suffixes] in IH. lia.
Qed.

Lemma over_suffixes_skipn f n : forall s,
  over_suffixes f (skipn n s) <= over_suffixes f s.
Proof.
  induction n as [|n IH]; intros s; [reflexivity|].
  destruct s as [|c s]; [reflexivity|]. cbn [skipn].
  pose proof (IH s). pose proof (over_suffixes_cons f c s). lia.
Qed.

Lemma over_suffixes_le f M s :
  0 <= M -> (forall n, f (skipn n s) <= M) -> over_suffixes f s <= M.
Proof.
  intros HM. induction s as [|c s IH]; intros H.
  - cbn [over_suffixes]. specialize (H O). cbn in H. lia.
  - cbn [over_suffixes]. pose proof (H O) as H0. cbn [skipn] in H0.
    assert (over_suffixes f s <= M)
      by (apply IH; intros n; exact (H (S n))).
    cbn [over_suffixes] in *. lia.
Qed.

Lemma bracket_count_cons c s :
  bracket_count (c :: s)
  = ((if is_bracket c then 1 else 0) + bracket_count s)%nat.
Proof. unfold bracket_count. cbn [filter]. now destruct (is_bracket c). Qed.

Lemma bracket_count_app l1 l2 :
  bracket_count (l1 ++ l2) = (bracket_count l1 + bracket_count l2)%nat.
Proof. unfold bracket_count. now rewrite filter_app, length_app. Qed.

Lemma bracket_count_skipn n s :
  (bracket_count (skipn n s) <= bracket_count s)%nat.
Proof.
  rewrite <- (firstn_skipn n s) at 2. rewrite bracket_count_app. lia.
Qed.

Lemma digit_not_bracket c : is_digit c = true -> is_bracket c = false.
Proof.
  unfold is_digit, is_bracket. intros H. apply andb_prop in H as [A B].
  apply N.leb_le in A, B.
  repeat (apply orb_false_intro); apply N.eqb_neq; lia.
Qed.

Lemma digits_brackets_length s :
  (digit_count s + bracket_count s <= List.length s)%nat.
Proof.
  unfold digit_count, bracket_count.
  induction s as [|c s IH]; [reflexivity|]. cbn [filter List.length].
  destruct (is_digit c) eqn:E.
  - rewrite (digit_not_bracket c E). cbn [List.length]. lia.
  - destruct (is_bracket c); cbn [List.length]; lia.
Qed.

Lemma leading_digits_count s : (leading_digits s <= digit_count s)%nat.
Proof.
  unfold leading_digits, digit_count.
  induction s as [|c s IH]; [reflexivity|]. cbn [span filter].
  destruct (is_digit c); [|cbn; lia].
  destruct (span is_digit s) as [a b]. cbn [fst List.length] in *. lia.
Qed.

Lemma digit_count_skipn n : forall s,
  (digit_count (skipn n s) <= digit_count s)%nat.
Proof.
  induction n as [|n IH]; intros s; [reflexivity|].
  destruct s as [|c s]; [reflexivity|]. cbn [skipn]. specialize (IH s).
  unfold digit_count in *. cbn [filter]. destruct (is_digit c);
    cbn [List.length]; lia.
Qed.

Lemma escaped_text_ind (pair single : cu -> bool) (P : jsstring -> Prop) :
  P [] ->
  (forall d s, pair d = true -> escaped_text pair single s = true -> P s ->
     P (92%N :: d :: s)) ->
  (forall c s, (c =? 92)%N = false -> single c = true ->
     escaped_text pair single s = true -> P s -> P (c :: s)) ->
  forall s, escaped_text pair single s = true -> P s.
Proof.
  intros H0 Hp Hs s.
  assert (G : forall n s, (List.length s <= n)%nat ->
                escaped_text pair single s = true -> P s).
  { clear s. induction n as [|n IH]; intros [|c s] Hl H; simpl in Hl;
      try exact H0; try lia.
    cbn [escaped_text] in H. destruct (c =? 92)%N eqn:E.
    - destruct s as [|d s']; [discriminate|].
      apply andb_prop in H as [Hd Hr]. apply N.eqb_eq in E. subst c.
      apply Hp; auto. apply IH; [simpl in Hl; lia|exact Hr].
    - apply andb_prop in H as [Hc Hr]. apply Hs; auto. apply IH; [lia|exact Hr]. }
  apply (G (List.length s)). lia.
Qed.

(** ** Binary64 arithmetic *)

(** *** Binary digits *)

Lemma digits2_pos_log2 p : Zpos (digits2_pos p) = Z.log2 (Zpos p) + 1.
Proof.
  induction p as [p IH|p IH|]; simpl digits2_pos; try reflexivity;
    rewrite Pos2Z.inj_succ, IH; simpl Z.log2;
    destruct p; simpl; try reflexivity; lia.
Qed.

Lemma Zdigits2_log2 m : 0 < m -> Zdigits2 m = Z.log2 m + 1.
Proof. destruct m; try lia. intros _. apply digits2_pos_log2. Qed.

Lemma Zdigits2_nonneg m : 0 <= Zdigits2 m.
Proof. destruct m; simpl; lia. Qed.

Lemma Zdigits2_abs n : Zdigits2 n = Zdigits2 (Z.abs n).
Proof. destruct n; reflexivity. Qed.

Lemma Zdigits2_le m n : 0 <= m <= n -> Zdigits2 m <= Zdigits2 n.
Proof.
  intros [H0 H]. destruct (Z.eq_dec m 0) as [->|Hm].
  - apply Zdigits2_nonneg.
  - rewrite !Zdigits2_log2 by lia. pose proof (Z.log2_le_mono m n H). lia.
Qed.

Lemma Zdigits2_lt_pow m k : 0 <= m < 2 ^ k -> 0 <= k -> Zdigits2 m <= k.
Proof.
  intros [H0 H] Hk. destruct (Z.eq_dec m 0) as [->|Hm]; [simpl; lia|].
  rewrite Zdigits2_log2 by lia.
  assert (Z.log2 m < k) by (apply Z.log2_lt_pow2; lia). lia.
Qed.

Lemma Zdigits2_ge_pow m k : 2 ^ k <= m -> 0 <= k -> k + 1 <= Zdigits2 m.
Proof.
  intros H Hk. assert (0 < 2 ^ k) by (apply Z.pow_pos_nonneg; lia).
  rewrite Zdigits2_log2 by lia.
  assert (k <= Z.log2 m) by (apply Z.log2_le_pow2; lia). lia.
Qed.

Lemma Zdigits2_bounds m :
  0 < m -> 2 ^ (Zdigits2 m - 1) <= m < 2 ^ Zdigits2 m.
Proof.
  intros H. rewrite Zdigits2_log2 by lia.
  replace (Z.log2 m + 1 - 1) with (Z.log2 m) by lia.
  pose proof (Z.log2_spec m H). rewrite <- Z.add_1_r in *. lia.
Qed.

Lemma Zdigits2_succ m : 0 <= m -> Zdigits2 (m + 1) <= Zdigits2 m + 1.
Proof.
  intros H. destruct (Z.eq_dec m 0) as [->|Hm]; [simpl; lia|].
  pose proof (Zdigits2_bounds m ltac:(lia)) as [_ Hu].
  pose proof (Zdigits2_nonneg m).
  apply Zdigits2_lt_pow; [|lia].
  rewrite Z.pow_add_r by lia. lia.
Qed.

Lemma Zdigits2_mul_le a b :
  0 < a -> 0 < b -> Zdigits2 (a * b) <= Zdigits2 a + Zdigits2 b.
Proof.
  intros Ha Hb.
  pose proof (Zdigits2_bounds a Ha) as [_ Ua].
  pose proof (Zdigits2_bounds b Hb) as [_ Ub].
  pose proof (Zdigits2_nonneg a). pose proof (Zdigits2_nonneg b).
  apply Zdigits2_lt_pow; [|lia]. rewrite Z.pow_add_r by lia. nia.
Qed.

Lemma Zdigits2_mul_ge a b :
  0 < a -> 0 < b -> Zdigits2 a + Zdigits2 b - 1 <= Zdigits2 (a * b).
Proof.
  intros Ha Hb.
  pose proof (Zdigits2_bounds a Ha) as [La _].
  pose proof (Zdigits2_bounds b Hb) as [Lb _].
  assert (1 <= Zdigits2 a) by (rewrite Zdigits2_log2 by lia; pose proof (Z.log2_nonneg a); lia).
  assert (1 <= Zdigits2 b) by (rewrite Zdigits2_log2 by lia; pose proof (Z.log2_nonneg b); lia).
  assert (2 ^ (Zdigits2 a - 1 + (Zdigits2 b - 1)) <= a * b).
  { rewrite Z.pow_add_r by lia.
    assert (0 < 2 ^ (Zdigits2 a - 1)) by (apply Z.pow_pos_nonneg; lia).
    assert (0 < 2 ^ (Zdigits2 b - 1)) by (apply Z.pow_pos_nonneg; lia). nia. }
  pose proof (Zdigits2_ge_pow (a * b) _ H1 ltac:(lia)). lia.
Qed.

Lemma Zdigits2_div_pow2 m n :
  0 <= m -> 0 <= n ->
  let q := m / 2 ^ n in
  0 <= q /\ (q = 0 \/ (0 < q /\ Zdigits2 q = Zdigits2 m - n)).
Proof.
  intros Hm Hn q. assert (0 < 2 ^ n) by (apply Z.pow_pos_nonneg; lia).
  assert (Hq : 0 <= q) by (apply Z.div_pos; lia).
  split; [exact Hq|]. destruct (Z.eq_dec q 0) as [E|E]; [now left|right].
  split; [lia|]. assert (0 < m).
  { destruct (Z.eq_dec m 0) as [->|]; [|lia]. unfold q in E.
    rewrite Z.div_0_l in E; lia. }
  assert (Hge : 2 ^ n <= m).
  { destruct (Z_lt_le_dec m (2 ^ n)) as [L|L]; [|exact L].
    unfold q in E. rewrite Z.div_small in E; lia. }
  assert (n <= Z.log2 m) by (apply Z.log2_le_pow2; lia).
  rewrite !Zdigits2_log2 by lia. unfold q.
  rewrite <- Z.shiftr_div_pow2 by lia. rewrite Z.log2_shiftr by lia. lia.
Qed.

Lemma digits2_pos_shift m d :
  Zpos (digits2_pos (Pos.iter xO m d)) = Zpos (digits2_pos m) + Zpos d.
Proof.
  induction d as [|d IH] using Pos.peano_ind.
  - simpl. lia.
  - rewrite Pos.iter_succ. simpl digits2_pos. rewrite Pos2Z.inj_succ, IH. lia.
Qed.

Lemma Zdigits2_pow m k :
  let d := Zpos (digits2_pos m) in
  Zpos k * (d - 1) + 1 <= Zpos (digits2_pos (m ^ k)) <= Zpos k * d.
Proof.
  intros d. induction k as [|k IH] using Pos.peano_ind.
  - rewrite Pos.pow_1_r. fold d. lia.
  - rewrite Pos.pow_succ_r, Pos2Z.inj_succ.
    pose proof (Zdigits2_mul_le (Zpos m) (Zpos (m ^ k)) ltac:(lia) ltac:(lia)) as U.
    pose proof (Zdigits2_mul_ge (Zpos m) (Zpos (m ^ k)) ltac:(lia) ltac:(lia)) as L.
    change (Zpos m * Zpos (m ^ k)) with (Zpos (m * m ^ k)) in U, L.
    change (Zdigits2 (Zpos (m * m ^ k)))
      with (Zpos (digits2_pos (m * m ^ k))) in U, L.
    change (Zdigits2 (Zpos (m ^ k))) with (Zpos (digits2_pos (m ^ k))) in U, L.
    change (Zdigits2 (Zpos m)) with d in U, L. lia.
Qed.

(** *** Rounding keeps a bounded value finite *)

Lemma shr_1_m mrs : 0 <= shr_m mrs -> shr_m (shr_1 mrs) = shr_m mrs / 2.
Proof.
  destruct mrs as [m r s]. simpl. intros H.
  destruct m as [|[p|p|]|p]; try lia; simpl shr_m.
  - reflexivity.
  - apply (Z.div_unique (Zpos p~1) 2 (Zpos p) 1); lia.
  - apply (Z.div_unique (Zpos p~0) 2 (Zpos p) 0); lia.
  - reflexivity.
Qed.

Lemma iter_shr_1_m p : forall mrs,
  0 <= shr_m mrs ->
  shr_m (iter_pos shr_1 p mrs) = shr_m mrs / 2 ^ Zpos p.
Proof.
  assert (P2 : forall q, 0 < 2 ^ Zpos q) by (intros; apply Z.pow_pos_nonneg; lia).
  assert (NN : forall m k, 0 <= m -> 0 < k -> 0 <= m / k)
    by (intros; apply Z.div_pos; lia).
  induction p as [p IH|p IH|]; intros mrs H; simpl iter_pos.
  - rewrite IH, IH, shr_1_m by
      (rewrite ?IH, ?shr_1_m by (rewrite ?shr_1_m by lia; auto with zarith);
       auto with zarith).
    rewrite !Z.div_div by (pose proof (P2 p); lia).
    f_equal. replace (Zpos p~1) with (1 + Zpos p + Zpos p) by lia.
    rewrite !Z.pow_add_r by lia. change (2 ^ 1) with 2. lia.
  - rewrite IH, IH by (rewrite ?IH by auto; auto with zarith).
    rewrite !Z.div_div by (pose proof (P2 p); lia).
    f_equal. replace (Zpos p~0) with (Zpos p + Zpos p) by lia.
    rewrite !Z.pow_add_r by lia. reflexivity.
  - rewrite shr_1_m by lia. reflexivity.
Qed.

Lemma shr_record_of_loc_m m l : shr_m (shr_record_of_loc m l) = m.
Proof. destruct l as [|[]]; reflexivity. Qed.

Lemma shr_fexp_spec m e l :
  0 <= m -> e <= fexp prec emax (Zdigits2 m + e) ->
  shr_m (fst (shr_fexp prec emax m e l))
    = m / 2 ^ (fexp prec emax (Zdigits2 m + e) - e)
  /\ snd (shr_fexp prec emax m e l) = fexp prec emax (Zdigits2 m + e).
Proof.
  intros Hm He. unfold shr_fexp, shr.
  destruct (fexp prec emax (Zdigits2 m + e) - e) as [|p|p] eqn:En; try lia.
  - simpl. rewrite shr_record_of_loc_m, Z.div_1_r. split; lia.
  - simpl. rewrite iter_shr_1_m by (rewrite shr_record_of_loc_m; exact Hm).
    rewrite shr_record_of_loc_m. split; [reflexivity|lia].
Qed.

Lemma round_nearest_even_bounds m l :
  m <= round_nearest_even m l <= m + 1.
Proof.
  unfold round_nearest_even. destruct l as [|[]]; try lia.
  destruct (Z.even m); lia.
Qed.

Lemma binary_round_aux_bounded s mx ex lx E :
  0 <= mx -> ex <= fexp prec emax (Zdigits2 mx + ex) ->
  Zdigits2 mx + ex <= E -> -1074 <= E <= 1023 ->
  bounded_by (E + 1) (binary_round_aux prec emax s mx ex lx).
Proof.
  intros Hm He Hd HE. unfold binary_round_aux.
  destruct (shr_fexp_spec mx ex lx Hm He) as [M1 E1].
  destruct (shr_fexp prec emax mx ex lx) as [mrs' e'] eqn:S1.
  simpl in M1, E1.
  set (n1 := fexp prec emax (Zdigits2 mx + ex) - ex) in *.
  assert (Hn1 : 0 <= n1) by (unfold n1; lia).
  destruct (Zdigits2_div_pow2 mx n1 Hm Hn1) as [Q0 Q1]. rewrite <- M1 in Q0, Q1.
  pose proof (round_nearest_even_bounds (shr_m mrs') (loc_of_shr_record mrs')) as R.
  set (m1 := round_nearest_even (shr_m mrs') (loc_of_shr_record mrs')) in *.
  assert (Hm1 : 0 <= m1) by lia.
  assert (D1 : Zdigits2 m1 + e' <= E + 1 /\ e' <= fexp prec emax (Zdigits2 m1 + e')).
  { pose proof (Zdigits2_le (shr_m mrs') m1 ltac:(lia)).
    pose proof (Zdigits2_le m1 (shr_m mrs' + 1) ltac:(lia)).
    pose proof (Zdigits2_succ (shr_m mrs') Q0).
    pose proof (Zdigits2_nonneg mx). pose proof (Zdigits2_nonneg m1).
    destruct Q1 as [Z|[P Dq]].
    - rewrite Z in *. simpl in *.
      destruct (Z.eq_dec mx 0) as [->|Hx].
      + simpl in *. unfold fexp, emin, prec, emax in *. lia.
      + assert (Zdigits2 mx <= n1).
        { destruct (Z_lt_le_dec n1 (Zdigits2 mx)) as [L|L]; [|exact L].
          exfalso. pose proof (Zdigits2_bounds mx ltac:(lia)) as [Lb _].
          assert (2 ^ n1 <= mx).
          { eapply Z.le_trans; [|exact Lb]. apply Z.pow_le_mono_r; lia. }
          assert (0 < 2 ^ n1) by (apply Z.pow_pos_nonneg; lia).
          assert (1 <= mx / 2 ^ n1).
          { apply Z.div_le_lower_bound; lia. }
          lia. }
        unfold n1, fexp, emin, prec, emax in *. lia.
    - unfold n1, fexp, emin, prec, emax in *. lia. }
  destruct D1 as [D1 P1].
  destruct (shr_fexp_spec m1 e' loc_Exact Hm1 P1) as [M2 E2].
  destruct (shr_fexp prec emax m1 e' loc_Exact) as [mrs'' e''] eqn:S2.
  simpl in M2, E2.
  set (n2 := fexp prec emax (Zdigits2 m1 + e') - e') in *.
  assert (Hn2 : 0 <= n2) by (unfold n2; lia).
  destruct (Zdigits2_div_pow2 m1 n2 Hm1 Hn2) as [Q2 Q3]. rewrite <- M2 in Q2, Q3.
  destruct (shr_m mrs'') as [|m|m] eqn:Em; try lia; [exact I|].
  destruct Q3 as [Z|[P Dq]]; [discriminate|].
  assert (Hfin : e'' <= emax - prec)
    by (unfold n2, fexp, emin, prec, emax in *; lia).
  change (Zdigits2 (Zpos m)) with (Zpos (digits2_pos m)) in Dq.
  assert (Hsum : Zpos (digits2_pos m) + e'' = Zdigits2 m1 + e')
    by (unfold n2 in *; lia).
  assert (Hcan : fexp prec emax (Zpos (digits2_pos m) + e'') = e'')
    by (rewrite Hsum; lia).
  apply Z.leb_le in Hfin. rewrite Hfin. cbn [bounded_by].
  split; [|lia].
  unfold bounded, canonical_mantissa. rewrite Hfin, andb_true_r.
  now apply Z.eqb_eq.
Qed.

Lemma binary_round_bounded s m e E :
  Zpos (digits2_pos m) + e <= E -> -1074 <= E <= 1023 ->
  bounded_by (E + 1) (binary_round prec emax s m e).
Proof.
  intros Hd HE. unfold binary_round, shl_align.
  destruct (fexp prec emax (Zpos (digits2_pos m) + e) - e) as [|p|p] eqn:En.
  - apply binary_round_aux_bounded; simpl Zdigits2; lia.
  - apply binary_round_aux_bounded; simpl Zdigits2; lia.
  - apply binary_round_aux_bounded; simpl Zdigits2;
      rewrite ?digits2_pos_shift; try lia.
    replace (Zpos (digits2_pos m) + Zpos p
             + fexp prec emax (Zpos (digits2_pos m) + e))
      with (Zpos (digits2_pos m) + e) by lia. lia.
Qed.

Lemma bounded_by_le E E' x : bounded_by E x -> E <= E' -> bounded_by E' x.
Proof.
  destruct x; simpl; auto. intros [V B] H. split; [exact V|lia].
Qed.

Lemma bounded_by_finite E x : bounded_by E x -> is_finite x = true.
Proof. destruct x; simpl; tauto. Qed.

Lemma bounded_canonical m e :
  bounded prec emax m e = true ->
  fexp prec emax (Zpos (digits2_pos m) + e) = e /\ e <= 971.
Proof.
  unfold bounded, canonical_mantissa. intros H.
  apply andb_prop in H as [Hc He]. apply Z.eqb_eq in Hc. apply Z.leb_le in He.
  unfold emax, prec in *. split; [exact Hc|lia].
Qed.

Lemma of_Z_bounded n E :
  Zdigits2 n <= E -> 0 <= E <= 1023 -> bounded_by (E + 1) (of_Z n).
Proof.
  intros Hd HE. unfold of_Z, binary_normalize. destruct n; [exact I| |];
    apply binary_round_bounded; simpl in Hd; lia.
Qed.

Lemma one_bounded : bounded_by 1 one.
Proof. split; [reflexivity|]. simpl. lia. Qed.

Lemma hundred_finite :
  hundred = S754_finite false 7036874417766400 (-46).
Proof. reflexivity. Qed.

Lemma mul_bounded a b x y :
  bounded_by a x -> bounded_by b y -> -1074 <= a + b <= 1023 ->
  bounded_by (a + b + 1) (mul x y).
Proof.
  destruct x as [sx|sx| |sx mx ex], y as [sy|sy| |sy my ey];
    try (simpl; tauto).
  unfold bounded_by, mul, SFmul. intros [Vx Bx] [Vy By] HE.
  apply bounded_canonical in Vx as [Cx _]. apply bounded_canonical in Vy as [Cy _].
  pose proof (Zdigits2_mul_le (Zpos mx) (Zpos my) ltac:(lia) ltac:(lia)) as U.
  pose proof (Zdigits2_mul_ge (Zpos mx) (Zpos my) ltac:(lia) ltac:(lia)) as L.
  change (Zpos mx * Zpos my) with (Zpos (mx * my)) in U, L.
  change (Zdigits2 (Zpos mx)) with (Zpos (digits2_pos mx)) in U, L.
  change (Zdigits2 (Zpos my)) with (Zpos (digits2_pos my)) in U, L.
  apply binary_round_aux_bounded;
    change (Zdigits2 (Zpos (mx * my))) with (Zpos (digits2_pos (mx * my))) in *;
    unfold fexp, emin, prec, emax in *; lia.
Qed.

(** The quotient of two finite values, whatever their mantissas. *)
Lemma div_bounded s1 m1 e1 s2 m2 e2 E :
  Zpos (digits2_pos m1) + e1 - (Zpos (digits2_pos m2) + e2) + 1 <= E ->
  -1074 <= E <= 1023 ->
  bounded_by (E + 1) (div (S754_finite s1 m1 e1) (S754_finite s2 m2 e2)).
Proof.
  intros Hd HE. unfold div, SFdiv, SFdiv_core_binary.
  change (Zdigits2 (Zpos m1)) with (Zpos (digits2_pos m1)).
  change (Zdigits2 (Zpos m2)) with (Zpos (digits2_pos m2)).
  set (d1 := Zpos (digits2_pos m1)) in *. set (d2 := Zpos (digits2_pos m2)) in *.
  set (e' := Z.min (fexp prec emax (d1 + e1 - (d2 + e2))) (e1 - e2)).
  set (sh := e1 - e2 - e').
  assert (Hs : 0 <= sh) by (unfold sh, e'; lia).
  set (m' := match sh with Zpos _ => Z.shiftl (Zpos m1) sh | Z0 => Zpos m1
             | Zneg _ => 0 end).
  assert (Em : m' = Zpos m1 * 2 ^ sh).
  { unfold m'. clearbody sh. destruct sh; try lia.
    apply Z.shiftl_mul_pow2. lia. }
  clearbody m'.
  pose proof (Z_div_mod m' (Zpos m2) ltac:(lia)) as DM.
  destruct (Z.div_eucl m' (Zpos m2)) as [q r]. destruct DM as [DM Hr].
  pose proof (Zdigits2_bounds (Zpos m1) ltac:(lia)) as [L1 U1].
  pose proof (Zdigits2_bounds (Zpos m2) ltac:(lia)) as [L2 U2].
  change (Zdigits2 (Zpos m1)) with d1 in *.
  change (Zdigits2 (Zpos m2)) with d2 in *.
  assert (P1 : 1 <= d1) by (unfold d1; lia).
  assert (P2 : 1 <= d2) by (unfold d2; lia).
  assert (Ps : 0 < 2 ^ sh) by (apply Z.pow_pos_nonneg; lia).
  assert (Hq : 0 <= q) by nia.
  (* upper bound on the quotient *)
  assert (Uq : Zdigits2 q <= d1 + sh - d2 + 1 \/ q = 0).
  { destruct (Z.eq_dec q 0) as [->|Nq]; [now right|left].
    assert (0 <= d1 + sh - d2 + 1).
    { destruct (Z_lt_le_dec (d1 + sh) (d2 - 1)) as [Lt|Ge]; [|lia].
      exfalso. assert (2 ^ (d1 + sh) <= 2 ^ (d2 - 1))
        by (apply Z.pow_le_mono_r; lia).
      rewrite Z.pow_add_r in H by lia. nia. }
    apply Zdigits2_lt_pow; [|lia]. split; [lia|].
    assert (2 ^ (d1 + sh) = 2 ^ (d1 + sh - d2 + 1) * 2 ^ (d2 - 1))
      by (rewrite <- Z.pow_add_r by lia; f_equal; lia).
    assert (m' < 2 ^ (d1 + sh)) by (rewrite Z.pow_add_r by lia; nia).
    assert (0 < 2 ^ (d1 + sh - d2 + 1)) by (apply Z.pow_pos_nonneg; lia).
    nia. }
  (* lower bound on the quotient *)
  assert (Lq : d1 + sh - d2 <= Zdigits2 q \/ d1 + sh - d2 <= 0).
  { destruct (Z_lt_le_dec 0 (d1 + sh - d2)) as [Pos|]; [left|now right].
    assert (2 ^ (d1 + sh - d2 - 1) <= q).
    { assert (2 ^ (d1 - 1 + sh) = 2 ^ (d1 + sh - d2 - 1) * 2 ^ d2)
        by (rewrite <- Z.pow_add_r by lia; f_equal; lia).
      assert (2 ^ (d1 - 1 + sh) <= m') by (rewrite Z.pow_add_r by lia; nia).
      assert (0 < 2 ^ (d1 + sh - d2 - 1)) by (apply Z.pow_pos_nonneg; lia).
      nia. }
    pose proof (Zdigits2_ge_pow q _ H ltac:(lia)). lia. }
  pose proof (Zdigits2_nonneg q) as Nq.
  apply binary_round_aux_bounded; try lia.
  - unfold sh, e', fexp, emin, prec, emax in *. lia.
  - destruct Uq as [Uq| ->]; [unfold sh in *; lia|].
    simpl. unfold e', fexp, emin, prec, emax in *. lia.
Qed.

Lemma Math_round_bounded a x :
  bounded_by a x -> 0 <= a <= 1021 -> bounded_by (a + 2) (Math_round x).
Proof.
  intros B Ha. destruct x as [s|s| |s m e]; try exact B.
  unfold Math_round. destruct (0 <=? e) eqn:Ee.
  - apply (bounded_by_le a); [exact B|lia].
  - apply Z.leb_gt in Ee. destruct B as [_ B].
    set (d := 2 ^ (- e)).
    assert (Pd : 0 < d) by (apply Z.pow_pos_nonneg; lia).
    set (num := 2 * cond_Zopp s (Zpos m) + d).
    pose proof (Z.div_mod num (2 * d) ltac:(lia)) as DM.
    pose proof (Z.mod_pos_bound num (2 * d) ltac:(lia)) as Hr.
    set (n := num / (2 * d)) in *. set (r := num mod (2 * d)) in *.
    destruct (n =? 0); [exact I|].
    replace (a + 2) with (a + 1 + 1) by lia. apply of_Z_bounded; [|lia].
    rewrite Zdigits2_abs. apply Zdigits2_lt_pow; [|lia].
    pose proof (Zdigits2_bounds (Zpos m) ltac:(lia)) as [_ U].
    change (Zdigits2 (Zpos m)) with (Zpos (digits2_pos m)) in U.
    assert (Hm : Zpos m < 2 ^ a * d).
    { unfold d. rewrite <- Z.pow_add_r by lia.
      eapply Z.lt_le_trans; [exact U|]. apply Z.pow_le_mono_r; lia. }
    assert (Pa : 0 < 2 ^ a) by (apply Z.pow_pos_nonneg; lia).
    rewrite (Z.pow_add_r 2 a 1) by lia. change (2 ^ 1) with 2.
    unfold num in DM. clearbody n r d.
    destruct s; simpl cond_Zopp in DM; split; try lia; nia.
Qed.

Lemma roundWeight_bounded a x :
  bounded_by a x -> 0 <= a <= 1013 -> bounded_by (a + 5) (roundWeight x).
Proof.
  intros B Ha. unfold roundWeight.
  assert (B1 : bounded_by (a + 7 + 1) (mul x hundred)).
  { apply mul_bounded; [exact B| |lia]. rewrite hundred_finite.
    split; [reflexivity|]. simpl. lia. }
  apply Math_round_bounded in B1; [|lia].
  destruct (Math_round (mul x hundred)) as [s|s| |s m e]; try contradiction.
  - exact I.
  - destruct B1 as [_ B1]. rewrite hundred_finite.
    replace (a + 5) with (a + 4 + 1) by lia.
    apply div_bounded; simpl digits2_pos; lia.
Qed.

Lemma Math_pow_bounded s m e n E :
  let d := Zpos (digits2_pos m) in
  (0 < n -> n * (d + e) <= E) ->
  (n < 0 -> 1 + n * (d - 1 + e) <= E) ->
  0 <= E <= 1023 ->
  bounded_by (E + 1) (Math_pow (S754_finite s m e) n).
Proof.
  intros d Hp Hn HE. unfold Math_pow.
  destruct (n =? 0) eqn:E0.
  { apply (bounded_by_le 1); [|lia]. split; [reflexivity|]. simpl. lia. }
  apply Z.eqb_neq in E0.
  pose proof (Zdigits2_pow m (Z.to_pos (Z.abs n))) as [L U]. fold d in L, U.
  rewrite Z2Pos.id in L, U by lia.
  destruct (0 <? n) eqn:Es.
  - apply Z.ltb_lt in Es. specialize (Hp Es).
    apply binary_round_bounded; [|lia].
    rewrite Z2Pos.id by lia. nia.
  - apply Z.ltb_ge in Es. assert (Hneg : n < 0) by lia. specialize (Hn Hneg).
    apply div_bounded; [|lia]. simpl digits2_pos.
    rewrite Z2Pos.id by lia. nia.
Qed.

Lemma raise_pow_bounded n :
  (Z.max n 0 <= 1000 ->
   bounded_by (Z.max n 0 + 2) (Math_pow (lit "1.05") n)
   /\ bounded_by (Z.max n 0 + 2) (Math_pow (lit "1.1") n))
  /\ (Z.max (- n) 0 <= 1000 ->
      bounded_by (Z.max (- n) 0 + 2) (Math_pow (lit "0.95") n))
  /\ (0 <= n -> bounded_by 2 (Math_pow (lit "0.9") n)).
Proof.
  change (lit "1.05") with (S754_finite false 4728779608739021 (-52)).
  change (lit "0.95") with (S754_finite false 8556839292003942 (-53)).
  change (lit "1.1") with (S754_finite false 4953959590107546 (-52)).
  change (lit "0.9") with (S754_finite false 8106479329266893 (-53)).
  repeat split.
  - replace (Z.max n 0 + 2) with (Z.max n 0 + 1 + 1) by lia.
    apply Math_pow_bounded; simpl digits2_pos; lia.
  - replace (Z.max n 0 + 2) with (Z.max n 0 + 1 + 1) by lia.
    apply Math_pow_bounded; simpl digits2_pos; lia.
  - intros H. replace (Z.max (- n) 0 + 2) with (Z.max (- n) 0 + 1 + 1) by lia.
    apply Math_pow_bounded; simpl digits2_pos; lia.
  - intros H. change 2 with (1 + 1).
    apply Math_pow_bounded; simpl digits2_pos; lia.
Qed.

(** *** Rounding never yields NaN and keeps the sign *)

Lemma iter_shr_1_nonneg p : forall mrs,
  0 <= shr_m mrs -> 0 <= shr_m (iter_pos shr_1 p mrs).
Proof.
  intros mrs H. rewrite iter_shr_1_m by exact H.
  apply Z.div_pos; [exact H|]. apply Z.pow_pos_nonneg; lia.
Qed.

Lemma shr_fexp_nonneg m e l :
  0 <= m -> 0 <= shr_m (fst (shr_fexp prec emax m e l)).
Proof.
  intros H. unfold shr_fexp, shr.
  destruct (fexp prec emax (Zdigits2 m + e) - e); cbn [fst];
    try (rewrite shr_record_of_loc_m; exact H).
  apply iter_shr_1_nonneg. now rewrite shr_record_of_loc_m.
Qed.

Lemma binary_round_aux_not_nan s mx ex lx :
  0 <= mx -> is_nan (binary_round_aux prec emax s mx ex lx) = false.
Proof.
  intros H. unfold binary_round_aux.
  pose proof (shr_fexp_nonneg mx ex lx H) as H1.
  destruct (shr_fexp prec emax mx ex lx) as [mrs' e']. cbn [fst] in H1.
  pose proof (round_nearest_even_bounds (shr_m mrs') (loc_of_shr_record mrs')) as R.
  pose proof (shr_fexp_nonneg _ e' loc_Exact (Z.le_trans _ _ _ H1 (proj1 R))) as H2.
  destruct (shr_fexp prec emax _ e' loc_Exact) as [mrs'' e''].
  cbn [fst] in H2. destruct (shr_m mrs''); try lia; [reflexivity|].
  destruct (e'' <=? emax - prec); reflexivity.
Qed.

Lemma of_decimal_not_nan c e : is_nan (of_decimal c e) = false.
Proof.
  unfold of_decimal. destruct c as [|p|p]; try reflexivity.
  destruct (0 <=? e).
  - unfold of_Z, binary_normalize.
    destruct (Zpos p * 10 ^ e) as [|q|q]; try reflexivity;
      unfold binary_round; destruct (shl_align _ _ _);
      apply binary_round_aux_not_nan; lia.
  - unfold of_ratio, div, SFdiv, SFdiv_core_binary.
    set (m' := match _ with Zpos _ => _ | Z0 => _ | Zneg _ => _ end).
    assert (Hm : 0 <= m').
    { unfold m'. destruct (_ - _ - _); try lia. apply Z.shiftl_nonneg. lia. }
    pose proof (Z_div_mod m' (Zpos (Z.to_pos (10 ^ (- e)))) ltac:(lia)) as DM.
    destruct (Z.div_eucl m' _) as [q r]. destruct DM as [DM Hr].
    apply binary_round_aux_not_nan. nia.
Qed.

Lemma binary_round_aux_sign s mx ex lx :
  sign_is s (binary_round_aux prec emax s mx ex lx).
Proof.
  unfold binary_round_aux. destruct (shr_fexp prec emax mx ex lx) as [a b].
  destruct (shr_fexp prec emax _ b loc_Exact) as [c d].
  destruct (shr_m c); try exact I; [reflexivity|].
  destruct (d <=? emax - prec); reflexivity.
Qed.

Lemma binary_round_sign s m e : sign_is s (binary_round prec emax s m e).
Proof.
  unfold binary_round. destruct (shl_align _ _ _).
  apply binary_round_aux_sign.
Qed.

Lemma of_Z_sign n : 0 <= n -> sign_is false (of_Z n).
Proof.
  unfold of_Z, binary_normalize. destruct n; try lia; intros _;
    [reflexivity|apply binary_round_sign].
Qed.

Lemma mul_sign x y :
  sign_is false x -> sign_is false y -> sign_is false (mul x y).
Proof.
  destruct x, y; simpl; try tauto; intros -> ->; try reflexivity.
  apply binary_round_aux_sign.
Qed.

Lemma div_finite_sign x m e :
  sign_is false x -> sign_is false (div x (S754_finite false m e)).
Proof.
  destruct x as [s|s| |s mx ex]; simpl; try tauto; intros ->; try reflexivity.
  unfold div, SFdiv. destruct (SFdiv_core_binary _ _ _ _ _ _) as [[q e'] l].
  apply binary_round_aux_sign.
Qed.

Lemma Math_round_sign x : sign_is false x -> sign_is false (Math_round x).
Proof.
  destruct x as [s|s| |s m e]; try tauto. simpl sign_is. intros ->.
  unfold Math_round. destruct (0 <=? e) eqn:Ee; [reflexivity|].
  apply Z.leb_gt in Ee. cbn [cond_Zopp].
  assert (0 <= (2 * Zpos m + 2 ^ (- e)) / (2 * 2 ^ (- e))).
  { assert (0 < 2 ^ (- e)) by (apply Z.pow_pos_nonneg; lia).
    apply Z.div_pos; lia. }
  destruct (_ =? 0); [reflexivity|]. now apply of_Z_sign.
Qed.

Lemma roundWeight_sign x : sign_is false x -> sign_is false (roundWeight x).
Proof.
  intros H. unfold roundWeight. rewrite hundred_finite.
  apply div_finite_sign, Math_round_sign, mul_sign; [exact H|reflexivity].
Qed.

Lemma Math_pow_sign m e n : sign_is false (Math_pow (S754_finite false m e) n).
Proof.
  unfold Math_pow. destruct (n =? 0); [reflexivity|].
  cbn [andb]. destruct (0 <? n); [apply binary_round_sign|].
  apply div_finite_sign. reflexivity.
Qed.

Lemma of_decimal_sign c e : sign_is false (of_decimal c e).
Proof.
  unfold of_decimal. destruct c as [|p|p]; try reflexivity.
  destruct (0 <=? e).
  - apply of_Z_sign. assert (0 <= 10 ^ e) by (apply Z.pow_nonneg; lia). lia.
  - unfold of_ratio. apply div_finite_sign. reflexivity.
Qed.

Lemma sign_not_negative w : sign_is false w -> lt_zero w = false.
Proof. destruct w as [s|s| |s m e]; simpl; try tauto; intros ->; reflexivity. Qed.

(** *** Weights in steps of 0.01 are rendered and parsed back exactly *)

Lemma number_eqb_eq x y : number_eqb x y = true -> x = y.
Proof.
  destruct x, y; simpl; try discriminate; intros H.
  - apply Bool.eqb_prop in H. now subst.
  - apply Bool.eqb_prop in H. now subst.
  - reflexivity.
  - apply andb_prop in H as [H He]. apply andb_prop in H as [Hs Hm].
    apply Bool.eqb_prop in Hs. apply Pos.eqb_eq in Hm. apply Z.eqb_eq in He.
    now subst.
Qed.

Lemma centi_range_ok :
  forallb centi_ok (map Z.of_nat (seq 1 (Z.to_nat 9999))) = true.
Proof. vm_cast_no_check (eq_refl true). Qed.

Lemma centi_ok_range c : 1 <= c <= 9999 -> centi_ok c = true.
Proof.
  intros H. pose proof centi_range_ok as R. rewrite forallb_forall in R.
  apply R. rewrite in_map_iff. exists (Z.to_nat c). split; [lia|].
  apply in_seq. lia.
Qed.

Lemma pix_ambient_zero :
  roundWeight (mul (mul one (Math_pow (lit "1.1") 0)) (Math_pow (lit "0.9") 0))
  = one.
Proof. vm_compute. reflexivity. Qed.

(** ** Decimal literals *)

Lemma digits_val_bounds ds :
  forallb is_digit ds = true ->
  0 <= digits_val ds < 10 ^ Z.of_nat (List.length ds).
Proof.
  unfold digits_val.
  assert (G : forall acc, 0 <= acc -> forallb is_digit ds = true ->
    0 <= fold_left (fun a c => 10 * a + digit_val c) ds acc
      < (acc + 1) * 10 ^ Z.of_nat (List.length ds)).
  { induction ds as [|c ds IH]; intros acc Ha H.
    - simpl. lia.
    - simpl in H. apply andb_prop in H as [Hc Hs].
      apply is_digit_range in Hc.
      assert (0 <= digit_val c <= 9) by (unfold digit_val; lia).
      cbn [fold_left List.length]. rewrite Nat2Z.inj_succ, Z.pow_succ_r by lia.
      specialize (IH (10 * acc + digit_val c) ltac:(lia) Hs).
      assert (0 < 10 ^ Z.of_nat (List.length ds))
        by (apply Z.pow_pos_nonneg; lia).
      nia. }
  intros H. specialize (G 0 ltac:(lia) H). lia.
Qed.

Lemma parse_unsigned_decimal ip fp :
  decimal_shape ip fp -> ip ++ fp <> [] ->
  parse_unsigned (ip ++ fp) =
  of_decimal (digits_val (ip ++ frac_digits fp))
             (- Z.of_nat (List.length (frac_digits fp))).
Proof.
  intros [Hi Hf] Hne. unfold parse_unsigned.
  assert (Hinf : starts_with (js "Infinity") (ip ++ fp) = None).
  { destruct ip as [|d ip].
    - destruct Hf as [->|(fd & -> & _)]; [now elim Hne|reflexivity].
    - simpl in Hi. apply andb_prop in Hi as [Hd _].
      change (js "Infinity") with (73%N :: js "nfinity").
      cbn [starts_with app]. unfold cu_eqb.
      rewrite N.eqb_sym, (is_digit_neq d 73 Hd) by lia. reflexivity. }
  rewrite Hinf.
  destruct Hf as [->|(fd & -> & Hfd & Hdig)].
  - rewrite (span_digits_then ip [] Hi I).
    destruct ip as [|d ip]; [now elim Hne|]. reflexivity.
  - rewrite (span_digits_then ip (46%N :: fd) Hi eq_refl).
    change ((46 =? 46)%N) with true. cbv iota.
    rewrite (span_digits_all fd Hdig).
    cbn [frac_digits exponent_part].
    destruct (ip ++ fd) as [|x l] eqn:E.
    + destruct ip; [|discriminate]. destruct fd; [congruence|discriminate].
    + f_equal.
Qed.

Lemma parseFloat_decimal ip fp :
  decimal_shape ip fp -> ip ++ fp <> [] ->
  parseFloat (ip ++ fp) =
  of_decimal (digits_val (ip ++ frac_digits fp))
             (- Z.of_nat (List.length (frac_digits fp))).
Proof.
  intros Hs Hne. rewrite <- (parse_unsigned_decimal ip fp Hs Hne).
  unfold parseFloat. destruct Hs as [Hi Hf].
  destruct ip as [|d ip].
  - destruct Hf as [->|(fd & -> & _)]; [now elim Hne|reflexivity].
  - simpl in Hi. apply andb_prop in Hi as [Hd _].
    cbn [app trimStart]. rewrite (is_digit_not_space d Hd).
    rewrite (is_digit_neq d 45 Hd), (is_digit_neq d 43 Hd) by lia.
    reflexivity.
Qed.

Lemma digit_bits_pow L : 0 <= L -> 10 ^ L <= 2 ^ digit_bits L.
Proof.
  intros HL. unfold digit_bits.
  assert (G : forall q, 0 <= q ->
            10 ^ (3 * q) <= 2 ^ (10 * q)
            /\ 10 ^ (3 * q + 1) <= 2 ^ (10 * q + 4)
            /\ 10 ^ (3 * q + 2) <= 2 ^ (10 * q + 7)).
  { intros q Hq.
    assert (A : 10 ^ (3 * q) <= 2 ^ (10 * q)).
    { rewrite !Z.pow_mul_r by lia. change (10 ^ 3) with 1000.
      change (2 ^ 10) with 1024. apply Z.pow_le_mono_l. lia. }
    assert (P : 0 < 10 ^ (3 * q)) by (apply Z.pow_pos_nonneg; lia).
    repeat split; [exact A| |].
    - rewrite !Z.pow_add_r by lia. change (10 ^ 1) with 10.
      change (2 ^ 4) with 16. nia.
    - rewrite !Z.pow_add_r by lia. change (10 ^ 2) with 100.
      change (2 ^ 7) with 128. nia. }
  destruct (G (L / 3) ltac:(apply Z.div_pos; lia)) as (G0 & G1 & G2).
  pose proof (Z.div_mod L 3 ltac:(lia)) as E.
  pose proof (Z.mod_pos_bound L 3 ltac:(lia)) as M.
  assert (C : L mod 3 = 0 \/ L mod 3 = 1 \/ L mod 3 = 2) by lia.
  destruct C as [C|[C|C]]; rewrite C in E.
  - replace ((10 * L + 2) / 3) with (10 * (L / 3))
      by (apply Z.div_unique with (r := 2); lia).
    replace L with (3 * (L / 3)) at 1 by lia. exact G0.
  - replace ((10 * L + 2) / 3) with (10 * (L / 3) + 4)
      by (apply Z.div_unique with (r := 0); lia).
    replace L with (3 * (L / 3) + 1) at 1 by lia. exact G1.
  - replace ((10 * L + 2) / 3) with (10 * (L / 3) + 7)
      by (apply Z.div_unique with (r := 1); lia).
    replace L with (3 * (L / 3) + 2) at 1 by lia. exact G2.
Qed.

Lemma digit_bits_mono a b : a <= b -> digit_bits a <= digit_bits b.
Proof. intros H. unfold digit_bits. apply Z.div_le_mono; lia. Qed.

Lemma digit_bits_nonneg a : 0 <= a -> 0 <= digit_bits a.
Proof. intros H. unfold digit_bits. apply Z.div_pos; lia. Qed.

(** The value of [c * 10^(-F)] for [c] below [10^(L+F)]: below [10^L],
    however many digits follow the point. *)
Lemma of_decimal_digits_bounded c L F :
  0 <= c < 10 ^ (L + F) -> 0 <= L -> 0 <= F -> digit_bits L <= 1020 ->
  bounded_by (digit_bits L + 2) (of_decimal c (- F)).
Proof.
  intros Hc HL HF HB.
  pose proof (digit_bits_pow L HL) as P.
  pose proof (digit_bits_nonneg L HL) as K0.
  unfold of_decimal. destruct c as [|p|p]; try exact I.
  destruct (0 <=? - F) eqn:E.
  - apply Z.leb_le in E. assert (F = 0) by lia. subst F.
    rewrite Z.add_0_r in Hc. change (- 0) with 0.
    rewrite Z.pow_0_r, Z.mul_1_r.
    apply (bounded_by_le (digit_bits L + 1)); [|lia].
    apply of_Z_bounded; [|lia]. apply Zdigits2_lt_pow; lia.
  - rewrite Z.opp_involutive. unfold of_ratio.
    assert (Q : 0 < 10 ^ F) by (apply Z.pow_pos_nonneg; lia).
    replace (digit_bits L + 2) with (digit_bits L + 1 + 1) by lia.
    apply div_bounded; [|lia].
    assert (D : Zdigits2 (Zpos p) <= digit_bits L + Zdigits2 (10 ^ F)).
    { pose proof (Zdigits2_bounds (10 ^ F) Q) as [_ U].
      apply Zdigits2_lt_pow.
      - split; [lia|]. rewrite Z.pow_add_r in Hc by lia.
        rewrite Z.pow_add_r
          by (try lia; pose proof (Zdigits2_nonneg (10 ^ F)); lia).
        nia.
      - pose proof (Zdigits2_nonneg (10 ^ F)). lia. }
    change (Zdigits2 (Zpos p)) with (Zpos (digits2_pos p)) in D.
    destruct (10 ^ F) as [|q|q] eqn:Eq; try lia.
    change (Z.to_pos (Zpos q)) with q.
    change (Zdigits2 (Zpos q)) with (Zpos (digits2_pos q)) in D. lia.
Qed.

(** The number a token captures, by the digits before its point. *)
Lemma parseFloat_digits_bounded ip fp :
  decimal_shape ip fp -> ip ++ fp <> [] ->
  digit_bits (Z.of_nat (List.length ip)) <= 1020 ->
  bounded_by (digit_bits (Z.of_nat (List.length ip)) + 2)
             (parseFloat (ip ++ fp)).
Proof.
  intros Hs Hne Hl. rewrite (parseFloat_decimal ip fp Hs Hne).
  destruct Hs as [Hi Hf].
  assert (Hd : forallb is_digit (ip ++ frac_digits fp) = true).
  { rewrite forallb_app, Hi.
    destruct Hf as [->|(fd & -> & _ & Hdig)]; [reflexivity|exact Hdig]. }
  pose proof (digits_val_bounds _ Hd) as B.
  rewrite length_app, Nat2Z.inj_add in B.
  apply of_decimal_digits_bounded; lia.
Qed.

Lemma captured_number_parses ip fp :
  decimal_shape ip fp -> ip ++ fp <> [] -> is_nan (parseFloat (ip ++ fp)) = false.
Proof.
  intros Hs Hne. rewrite (parseFloat_decimal ip fp Hs Hne).
  apply of_decimal_not_nan.
Qed.

(** ** The two patterns *)

Lemma fraction_opt_shape s fp r :
  fraction_opt s = (fp, r) ->
  s = fp ++ r
  /\ (fp = [] \/ exists fd, fp = 46%N :: fd /\ fd <> []
                           /\ forallb is_digit fd = true).
Proof.
  unfold fraction_opt. destruct s as [|c s'].
  - intros H; injection H as <- <-. auto.
  - destruct (N.eqb_spec c 46) as [->|_].
    + pose proof (span_eq is_digit s') as Eq.
      pose proof (span_prefix is_digit s') as Hp.
      destruct (span is_digit s') as [[|d fd] r']; simpl in Eq, Hp;
        intros H; injection H as <- <-.
      * auto.
      * split; [simpl; now rewrite <- Eq|]. right. exists (d :: fd).
        repeat split; [discriminate|exact Hp].
    + intros H; injection H as <- <-. auto.
Qed.

Lemma weightControlRegex_shape s o len :
  weightControlRegex s = Some (o, len) ->
  let ns := match o with Some ns => ns | None => [] end in
  len = (List.length ns + 2)%nat
  /\ (len <= List.length s)%nat
  /\ match o with
     | Some _ => ns <> [] /\ exists ip fp, ns = ip ++ fp /\ decimal_shape ip fp
     | None => True
     end.
Proof.
  unfold weightControlRegex.
  pose proof (span_eq is_digit s) as Eq.
  pose proof (span_prefix is_digit s) as Hp.
  destruct (span is_digit s) as [ip r1]. simpl in Eq, Hp.
  destruct (fraction_opt r1) as [fp r2] eqn:Ef.
  apply fraction_opt_shape in Ef as [Er Hf].
  destruct (starts_with (js "::") r2) as [r3|] eqn:Es; [|discriminate].
  apply starts_with_eq in Es. intros H; injection H as <- <-.
  assert (Hlen : (List.length (ip ++ fp) + 2 <= List.length s)%nat).
  { rewrite <- Eq, Er, Es. rewrite !length_app. simpl. lia. }
  destruct (ip ++ fp) as [|x l] eqn:E; simpl.
  - repeat split. simpl in Hlen. lia.
  - repeat split; [simpl in Hlen; lia|discriminate|].
    exists ip, fp. rewrite E. repeat split; auto.
Qed.

Lemma content_run_length n : forall s,
  (List.length s <= n)%nat ->
  (List.length (snd (content_run s)) <= List.length s)%nat.
Proof.
  induction n as [|n IH]; intros [|c s] H; simpl in *; try lia.
  destruct (c =? 92)%N.
  - destruct s as [|d s'']; [simpl; lia|].
    destruct (is_line_terminator d); [simpl; lia|].
    specialize (IH s'' ltac:(simpl in H; lia)).
    destruct (content_run s''). simpl in *. lia.
  - destruct ((c =? 58)%N || (c =? 40)%N || (c =? 41)%N); [simpl; lia|].
    specialize (IH s ltac:(lia)).
    destruct (content_run s). simpl in *. lia.
Qed.

Lemma explicitWeightRegex_length s bd ns len :
  explicitWeightRegex s = Some (bd, ns, len) -> exists n, len = S n.
Proof.
  unfold explicitWeightRegex. destruct s as [|c l]; [discriminate|].
  destruct (c =? 40)%N; [|discriminate]. destruct (content_run l) as [body r1].
  destruct body; [discriminate|]. destruct r1 as [|colon r2]; [discriminate|].
  destruct (colon =? 58)%N; [|discriminate].
  destruct (span is_digit r2) as [ip r3]. destruct (fraction_opt r3) as [fp r4].
  destruct ip; [discriminate|]. destruct r4 as [|close r5]; [discriminate|].
  destruct (close =? 41)%N; [|discriminate].
  intros E; injection E as _ _ <-. eexists. rewrite Nat.add_comm. reflexivity.
Qed.

Lemma explicitWeightRegex_shape s body ns len :
  explicitWeightRegex s = Some (body, ns, len) ->
  ns <> [] /\ (List.length ns <= List.length s)%nat
  /\ exists ip fp, ns = ip ++ fp /\ decimal_shape ip fp.
Proof.
  unfold explicitWeightRegex. destruct s as [|c s1]; [discriminate|].
  destruct (c =? 40)%N; [|discriminate].
  pose proof (content_run_length (List.length s1) s1 (le_n _)) as Hc.
  destruct (content_run s1) as [bd r1]. simpl in Hc.
  destruct bd as [|b0 bd]; [discriminate|].
  destruct r1 as [|colon r2]; [discriminate|].
  destruct (colon =? 58)%N; [|discriminate].
  pose proof (span_eq is_digit r2) as Eq.
  pose proof (span_prefix is_digit r2) as Hp.
  destruct (span is_digit r2) as [ip r3]. simpl in Eq, Hp.
  destruct (fraction_opt r3) as [fp r4] eqn:Ef.
  apply fraction_opt_shape in Ef as [Er Hf].
  destruct ip as [|d ip]; [discriminate|].
  destruct r4 as [|close r5]; [discriminate|].
  destruct (close =? 41)%N; [|discriminate].
  intros H; injection H as _ <- _.
  split; [discriminate|]. split.
  - simpl in Hc. rewrite <- Eq, Er in Hc. rewrite !length_app in *.
    simpl in *. rewrite !length_app in *. lia.
  - exists (d :: ip), fp. repeat split; auto.
Qed.

Lemma content_run_eq n : forall s,
  (List.length s <= n)%nat -> fst (content_run s) ++ snd (content_run s) = s.
Proof.
  induction n as [|n IH]; intros [|c s] H; simpl in *; try lia;
    try reflexivity.
  destruct (c =? 92)%N.
  - destruct s as [|d s'']; [reflexivity|].
    destruct (is_line_terminator d); [reflexivity|].
    specialize (IH s'' ltac:(simpl in H; lia)).
    destruct (content_run s''). simpl in *. now rewrite IH.
  - destruct ((c =? 58)%N || (c =? 40)%N || (c =? 41)%N); [reflexivity|].
    specialize (IH s ltac:(lia)).
    destruct (content_run s). simpl in *. now rewrite IH.
Qed.

Lemma weightControlRegex_digits s ns len :
  weightControlRegex s = Some (Some ns, len) ->
  exists ip fp,
    ns = ip ++ fp /\ decimal_shape ip fp /\ ns <> []
    /\ List.length ip = leading_digits s.
Proof.
  unfold weightControlRegex, leading_digits.
  pose proof (span_prefix is_digit s) as Hp.
  destruct (span is_digit s) as [ip r1]. cbn [fst] in *.
  destruct (fraction_opt r1) as [fp r2] eqn:Ef.
  apply fraction_opt_shape in Ef as [Er Hf].
  destruct (starts_with (js "::") r2) as [r3|]; [|discriminate].
  intros H. injection H as H _.
  destruct (ip ++ fp) as [|x l] eqn:E; [discriminate|].
  cbn [JsString.truthy] in H. injection H as <-.
  exists ip, fp. rewrite E. repeat split; auto. discriminate.
Qed.

Lemma explicitWeightRegex_text s body ns len :
  explicitWeightRegex s = Some (body, ns, len) ->
  exists ip fp r,
    s = 40%N :: body ++ 58%N :: ns ++ 41%N :: r
    /\ body = fst (content_run (body ++ 58%N :: ns ++ 41%N :: r))
    /\ ns = ip ++ fp /\ decimal_shape ip fp /\ ip <> []
    /\ len = (List.length body + List.length ns + 3)%nat.
Proof.
  unfold explicitWeightRegex. destruct s as [|c s1]; [discriminate|].
  destruct (c =? 40)%N eqn:Ec; [|discriminate]. apply N.eqb_eq in Ec.
  pose proof (content_run_eq _ s1 (le_n _)) as Hc.
  destruct (content_run s1) as [bd r1] eqn:Er1. cbn [fst snd] in Hc.
  destruct bd as [|b0 bd]; [discriminate|].
  destruct r1 as [|colon r2]; [discriminate|].
  destruct (colon =? 58)%N eqn:Ek; [|discriminate]. apply N.eqb_eq in Ek.
  pose proof (span_eq is_digit r2) as Eq.
  pose proof (span_prefix is_digit r2) as Hp.
  destruct (span is_digit r2) as [ip r3]. cbn [fst snd] in *.
  destruct (fraction_opt r3) as [fp r4] eqn:Ef.
  apply fraction_opt_shape in Ef as [Er Hf].
  destruct ip as [|d ip]; [discriminate|].
  destruct r4 as [|close r5]; [discriminate|].
  destruct (close =? 41)%N eqn:El; [|discriminate]. apply N.eqb_eq in El.
  intros H; injection H as <- <- <-. subst c colon close.
  exists (d :: ip), fp, r5.
  assert (Es : s1 = (b0 :: bd) ++ 58%N :: ((d :: ip) ++ fp) ++ 41%N :: r5).
  { rewrite <- Hc, <- Eq, Er. rewrite <- !app_assoc. reflexivity. }
  repeat split; auto.
  - now rewrite Es.
  - rewrite Es in Er1. symmetry. exact (f_equal fst Er1).
  - discriminate.
Qed.

Lemma leading_digits_number ip fp :
  decimal_shape ip fp -> leading_digits (ip ++ fp) = List.length ip.
Proof.
  intros [Hi Hf]. unfold leading_digits.
  rewrite (span_digits_then ip fp Hi); [reflexivity|].
  destruct Hf as [->|(fd & -> & _)]; [exact I|reflexivity].
Qed.

(** A decimal literal followed by a closing parenthesis is read whole. *)
Lemma decimal_lit_close num tl :
  decimal_lit num = true ->
  exists ip fp,
    num = ip ++ fp /\ ip <> []
    /\ span is_digit (num ++ 41%N :: tl) = (ip, fp ++ 41%N :: tl)
    /\ fraction_opt (fp ++ 41%N :: tl) = (fp, 41%N :: tl).
Proof.
  unfold decimal_lit. intros H.
  pose proof (span_eq is_digit num) as Eq.
  pose proof (span_prefix is_digit num) as Hp.
  destruct (span is_digit num) as [ip r1] eqn:Es. simpl in Eq, Hp.
  destruct ip as [|d ip]; [discriminate|].
  exists (d :: ip), r1. split; [now symmetry|]. split; [discriminate|].
  destruct r1 as [|c s'].
  - split; [|reflexivity]. rewrite <- Eq, app_nil_r.
    rewrite span_all by exact Hp. simpl. now rewrite app_nil_r.
  - split.
    + pose proof (span_stop is_digit num (41%N :: tl)) as S.
      rewrite Es in S. simpl in S. apply S. discriminate.
    + unfold fraction_opt in *. cbn [app].
      destruct (c =? 46)%N; [|discriminate].
      pose proof (span_eq is_digit s') as Eq'.
      pose proof (span_prefix is_digit s') as Hp'.
      destruct (span is_digit s') as [fd r] eqn:Ef. simpl in Eq', Hp'.
      destruct fd as [|f fd]; [discriminate|].
      destruct r; [|discriminate]. rewrite app_nil_r in Eq'. subst s'.
      rewrite span_all by exact Hp'. cbn. now rewrite app_nil_r.
Qed.

Lemma content_run_escaped content rest :
  token_safe content = true ->
  content_run (escapePixAI content ++ 58%N :: rest)
  = (escapePixAI content, 58%N :: rest).
Proof.
  induction content as [|c s IH]; simpl; intros H; [reflexivity|].
  apply andb_prop in H as [Hc Hs]. apply negb_true_iff in Hc.
  apply orb_false_elim in Hc as [H92 H58].
  destruct ((c =? 40)%N || (c =? 41)%N) eqn:E.
  - cbn. assert (L : is_line_terminator c = false).
    { apply orb_prop in E as [E|E]; apply N.eqb_eq in E; subst c; reflexivity. }
    rewrite L, (IH Hs). reflexivity.
  - apply orb_false_elim in E as [H40 H41]. cbn.
    rewrite H92, H58, H40, H41. cbn. rewrite (IH Hs). reflexivity.
Qed.

Lemma explicitWeightRegex_token content num tl :
  token_safe content = true -> content <> [] -> decimal_lit num = true ->
  let esc := escapePixAI content in
  explicitWeightRegex (40%N :: esc ++ 58%N :: num ++ 41%N :: tl)
  = Some (esc, num, (List.length esc + List.length num + 3)%nat).
Proof.
  intros Hs Hn Hd esc. unfold explicitWeightRegex.
  change ((40 =? 40)%N) with true. cbv iota.
  unfold esc. rewrite (content_run_escaped content _ Hs).
  destruct (escapePixAI content) as [|e0 es] eqn:Ee.
  { destruct content; [congruence|]. simpl in Ee.
    destruct (_ || _); discriminate. }
  change ((58 =? 58)%N) with true. cbv iota.
  destruct (decimal_lit_close num tl Hd) as (ip & fp & -> & Hip & Sp & Fr).
  rewrite Sp, Fr. destruct ip; [congruence|].
  change ((41 =? 41)%N) with true. reflexivity.
Qed.

Lemma content_run_token_text esc rest :
  token_text esc = true ->
  content_run (esc ++ 58%N :: rest) = (esc, 58%N :: rest).
Proof.
  revert esc. unfold token_text.
  apply (escaped_text_ind _ _
           (fun esc => content_run (esc ++ 58%N :: rest)
                       = (esc, 58%N :: rest))).
  - reflexivity.
  - intros d s Hd _ IH. apply negb_true_iff in Hd. cbn [app content_run].
    change ((92 =? 92)%N) with true. cbv iota. rewrite Hd, IH. reflexivity.
  - intros c s Hc Hs _ IH. apply negb_true_iff in Hs. cbn [app content_run].
    rewrite Hc, Hs, IH. reflexivity.
Qed.

Lemma explicitWeightRegex_token_text esc num tl :
  token_text esc = true -> esc <> [] -> decimal_lit num = true ->
  explicitWeightRegex (40%N :: esc ++ 58%N :: num ++ 41%N :: tl)
  = Some (esc, num, (List.length esc + List.length num + 3)%nat).
Proof.
  intros Hs Hn Hd. unfold explicitWeightRegex.
  change ((40 =? 40)%N) with true. cbv iota.
  rewrite (content_run_token_text esc _ Hs).
  destruct esc as [|e0 es]; [congruence|].
  change ((58 =? 58)%N) with true. cbv iota.
  destruct (decimal_lit_close num tl Hd) as (ip & fp & -> & Hip & Sp & Fr).
  rewrite Sp, Fr. destruct ip; [congruence|].
  change ((41 =? 41)%N) with true. reflexivity.
Qed.

Lemma token_text_app (esc num tl : jsstring) :
  (40%N :: esc ++ 58%N :: num ++ [41%N]) ++ tl
  = 40%N :: esc ++ 58%N :: num ++ 41%N :: tl.
Proof.
  cbn [app]. rewrite <- app_assoc. cbn [app]. rewrite <- app_assoc.
  reflexivity.
Qed.

(** ** The scanners *)

(** *** The loops end, and do not depend on the generator *)

Lemma generateId_rng r :
  draws (snd (generateId r)) = draws r /\ pos (snd (generateId r)) = S (pos r).
Proof. unfold generateId, Math_random. simpl. auto. Qed.

Lemma nai_flush_sim a b : nai_sim a b -> nai_sim (NovelAI.flush a) (NovelAI.flush b).
Proof.
  intros (Hs & Hc & Hq & Hw & Hb). unfold NovelAI.flush, NovelAI.resolvedWeight.
  rewrite Hb, Hc, Hq, Hw.
  destruct (JsString.truthy (trim (NovelAI.buffer b))).
  - destruct (generateId (NovelAI.rng a)) as [ia ra], (generateId (NovelAI.rng b)) as [ib rb].
    unfold nai_sim; simpl. rewrite !map_app, Hs. simpl. auto.
  - unfold nai_sim; simpl. auto.
Qed.

Lemma nai_step_rest a b c tl : snd (NovelAI.step a c tl) = snd (NovelAI.step b c tl).
Proof.
  unfold NovelAI.step. destruct (weightControlRegex (c :: tl)) as [[ns len]|]; [reflexivity|].
  repeat match goal with |- context [if ?x then _ else _] => destruct x end; reflexivity.
Qed.

Lemma nai_step_sim a b c tl :
  nai_sim a b ->
  nai_sim (fst (NovelAI.step a c tl)) (fst (NovelAI.step b c tl)).
Proof.
  intros H. pose proof (nai_flush_sim _ _ H) as (Hs & Hc & Hq & Hw & Hb).
  unfold NovelAI.step. destruct (weightControlRegex (c :: tl)) as [[ns len]|].
  - simpl. unfold NovelAI.weightControl, nai_sim; simpl. rewrite Hw. auto.
  - repeat match goal with |- context [if ?x then _ else _] => destruct x end;
      simpl; unfold NovelAI.bracket, nai_sim; simpl; try rewrite Hc; try rewrite Hq; auto.
    destruct H as (Hs' & Hc' & Hq' & Hw' & Hb'). rewrite Hb'. auto.
Qed.

Lemma nai_step_shrinks st c tl :
  (List.length (snd (NovelAI.step st c tl)) <= List.length tl)%nat.
Proof.
  unfold NovelAI.step. destruct (weightControlRegex (c :: tl)) as [[ns len]|] eqn:E.
  - simpl. unfold weightControlRegex in E.
    destruct (span is_digit (c :: tl)) as [ip r1].
    destruct (fraction_opt r1) as [fp r2].
    destruct (starts_with (js "::") r2); [|discriminate].
    injection E as _ <-. rewrite Nat.add_comm.
    exact (skipn_length_le (S (List.length (ip ++ fp))) tl).
  - repeat match goal with |- context [if ?x then _ else _] => destruct x end;
      simpl; lia.
Qed.

Lemma nai_scan_total fuel : forall st rest,
  (List.length rest <= fuel)%nat -> exists st', NovelAI.scan fuel st rest = Some st'.
Proof.
  induction fuel as [|f IH]; intros st [|c tl] H; simpl in *; eauto; try lia.
  pose proof (nai_step_shrinks st c tl) as Hs.
  destruct (NovelAI.step st c tl) as [st' rest']. simpl in Hs. apply IH. lia.
Qed.

Lemma nai_scan_sim fuel : forall a b rest, nai_sim a b ->
  match NovelAI.scan fuel a rest, NovelAI.scan fuel b rest with
  | Some a', Some b' => nai_sim a' b'
  | None, None => True
  | _, _ => False
  end.
Proof.
  induction fuel as [|f IH]; intros a b [|c tl] H; simpl; auto.
  pose proof (nai_step_sim a b c tl H) as Hs. pose proof (nai_step_rest a b c tl) as Hr.
  destruct (NovelAI.step a c tl) as [a' ra], (NovelAI.step b c tl) as [b' rb]. simpl in *.
  subst rb. apply IH, Hs.
Qed.

Lemma parseNovelAI_erase r1 r2 text :
  map erase_id (fst (NovelAI.parseNovelAI r1 text))
  = map erase_id (fst (NovelAI.parseNovelAI r2 text)).
Proof.
  unfold NovelAI.parseNovelAI. destruct (negb (JsString.truthy text)); [reflexivity|].
  assert (Hi : nai_sim (NovelAI.init r1) (NovelAI.init r2)) by (unfold nai_sim; simpl; auto).
  pose proof (nai_scan_sim (List.length text) _ _ text Hi) as H.
  destruct (NovelAI.scan _ (NovelAI.init r1) text) as [a|],
           (NovelAI.scan _ (NovelAI.init r2) text) as [b|];
    try contradiction; [|reflexivity].
  apply nai_flush_sim in H. destruct H as (Hs & _). exact Hs.
Qed.

Lemma parseNovelAI_completes r text :
  exists st, NovelAI.scan (List.length text) (NovelAI.init r) text = Some st.
Proof. apply nai_scan_total. lia. Qed.

Lemma pix_flush_sim o a b : pix_sim a b -> pix_sim (PixAI.flush o a) (PixAI.flush o b).
Proof.
  intros (Hs & Hc & Hq & Hb). unfold PixAI.flush, PixAI.ambientWeight.
  rewrite Hb, Hc, Hq.
  destruct (JsString.truthy (trim (PixAI.buffer b))).
  - destruct (generateId (PixAI.rng a)) as [ia ra], (generateId (PixAI.rng b)) as [ib rb].
    unfold pix_sim; simpl. rewrite !map_app, Hs. simpl. auto.
  - unfold pix_sim; simpl. auto.
Qed.

Lemma pix_explicitWeight_sim c n w a b :
  pix_sim a b -> pix_sim (PixAI.explicitWeight c n w a) (PixAI.explicitWeight c n w b).
Proof.
  intros H. pose proof (pix_flush_sim None _ _ H) as (Hs & Hc & Hq & Hb).
  unfold PixAI.explicitWeight.
  destruct (generateId (PixAI.rng (PixAI.flush None a))) as [ia ra],
           (generateId (PixAI.rng (PixAI.flush None b))) as [ib rb].
  unfold pix_sim; simpl. rewrite !map_app, Hs. simpl. auto.
Qed.

Lemma pix_plain_sim a b c : pix_sim a b -> pix_sim (PixAI.plain a c) (PixAI.plain b c).
Proof.
  intros H. pose proof (pix_flush_sim None _ _ H) as HF.
  pose proof HF as (Hs & Hc & Hq & Hb).
  unfold PixAI.plain.
  repeat match goal with |- context [if ?x then _ else _] => destruct x end;
    auto; unfold PixAI.setDepths, PixAI.append, pix_sim; simpl;
    try rewrite Hc; try rewrite Hq; auto.
  destruct H as (Hs' & Hc' & Hq' & Hb'). rewrite Hb'. auto.
Qed.

Lemma pix_step_rest a b c tl : snd (PixAI.step a c tl) = snd (PixAI.step b c tl).
Proof.
  unfold PixAI.step. destruct (c =? 92)%N, tl; try reflexivity;
  match goal with |- context [match ?x with Some _ => _ | None => _ end] =>
    destruct x as [[[? ?] ?]|] end; reflexivity.
Qed.

Lemma pix_step_sim a b c tl :
  pix_sim a b -> pix_sim (fst (PixAI.step a c tl)) (fst (PixAI.step b c tl)).
Proof.
  intros H. unfold PixAI.step.
  assert (Ha : forall l, pix_sim (PixAI.append l a) (PixAI.append l b)).
  { intros l. destruct H as (Hs & Hc & Hq & Hb).
    unfold PixAI.append, pix_sim; simpl. rewrite Hb. auto. }
  destruct (c =? 92)%N, tl; simpl; auto;
  match goal with |- context [match ?x with Some _ => _ | None => _ end] =>
    destruct x as [[[? ?] ?]|] end; simpl;
    auto using pix_explicitWeight_sim, pix_plain_sim.
Qed.

Lemma pix_step_shrinks st c tl :
  (List.length (snd (PixAI.step st c tl)) <= List.length tl)%nat.
Proof.
  assert (H : forall l, (List.length (snd
     match (if (c =? 40)%N then explicitWeightRegex (c :: l) else None) with
     | Some (content, numStr, len) =>
         (PixAI.explicitWeight content numStr (firstn len (c :: l)) st,
          skipn len (c :: l))
     | None => (PixAI.plain st c, l)
     end) <= List.length l)%nat).
  { intros l. destruct (c =? 40)%N; [|simpl; lia].
    destruct (explicitWeightRegex (c :: l)) as [[[bd ns] len]|] eqn:E;
      [|simpl; lia].
    apply explicitWeightRegex_length in E. destruct E as [n ->].
    exact (skipn_length_le n l). }
  unfold PixAI.step. destruct (c =? 92)%N; [destruct tl as [|d tl']|]; try apply H.
  simpl. lia.
Qed.

Lemma pix_scan_total fuel : forall st rest,
  (List.length rest <= fuel)%nat -> exists st', PixAI.scan fuel st rest = Some st'.
Proof.
  induction fuel as [|f IH]; intros st [|c tl] H; simpl in *; eauto; try lia.
  pose proof (pix_step_shrinks st c tl) as Hs.
  destruct (PixAI.step st c tl) as [st' rest']. simpl in Hs. apply IH. lia.
Qed.

Lemma pix_scan_sim fuel : forall a b rest, pix_sim a b ->
  match PixAI.scan fuel a rest, PixAI.scan fuel b rest with
  | Some a', Some b' => pix_sim a' b'
  | None, None => True
  | _, _ => False
  end.
Proof.
  induction fuel as [|f IH]; intros a b [|c tl] H; simpl; auto.
  pose proof (pix_step_sim a b c tl H) as Hs. pose proof (pix_step_rest a b c tl) as Hr.
  destruct (PixAI.step a c tl) as [a' ra], (PixAI.step b c tl) as [b' rb]. simpl in *.
  subst rb. apply IH, Hs.
Qed.

Lemma parsePixAI_erase r1 r2 text :
  map erase_id (fst (PixAI.parsePixAI r1 text)) = map erase_id (fst (PixAI.parsePixAI r2 text)).
Proof.
  unfold PixAI.parsePixAI. destruct (negb (JsString.truthy text)); [reflexivity|].
  assert (Hi : pix_sim (PixAI.init r1) (PixAI.init r2)) by (unfold pix_sim; simpl; auto).
  pose proof (pix_scan_sim (List.length text) _ _ text Hi) as H.
  destruct (PixAI.scan _ (PixAI.init r1) text) as [a|], (PixAI.scan _ (PixAI.init r2) text) as [b|];
    try contradiction; [|reflexivity].
  apply (pix_flush_sim None) in H. destruct H as (Hs & _). exact Hs.
Qed.

Lemma parsePixAI_completes r text :
  exists st, PixAI.scan (List.length text) (PixAI.init r) text = Some st.
Proof. apply pix_scan_total. lia. Qed.

(** *** Invariants of the loops *)

Lemma nai_scan_inv (P : NovelAI.State -> Prop) :
  (forall st c tl, P st -> P (fst (NovelAI.step st c tl))) ->
  forall fuel st rest st',
    P st -> NovelAI.scan fuel st rest = Some st' -> P st'.
Proof.
  intros Hstep. induction fuel as [|f IH]; intros st [|c tl] st' HP H;
    simpl in H; try discriminate; try (injection H as <-; exact HP).
  - specialize (Hstep st c tl HP).
    destruct (NovelAI.step st c tl) as [s1 r1]. simpl in Hstep.
    exact (IH _ _ _ Hstep H).
Qed.

Lemma pix_scan_inv (P : PixAI.State -> Prop) :
  (forall st c tl, P st -> P (fst (PixAI.step st c tl))) ->
  forall fuel st rest st',
    P st -> PixAI.scan fuel st rest = Some st' -> P st'.
Proof.
  intros Hstep. induction fuel as [|f IH]; intros st [|c tl] st' HP H;
    simpl in H; try discriminate; try (injection H as <-; exact HP).
  - specialize (Hstep st c tl HP).
    destruct (PixAI.step st c tl) as [s1 r1]. simpl in Hstep.
    exact (IH _ _ _ Hstep H).
Qed.

Lemma nai_scan_rest_inv (P : NovelAI.State -> jsstring -> Prop) :
  (forall st c tl, P st (c :: tl) ->
     P (fst (NovelAI.step st c tl)) (snd (NovelAI.step st c tl))) ->
  forall fuel st rest st',
    P st rest -> NovelAI.scan fuel st rest = Some st' -> P st' [].
Proof.
  intros Hstep. induction fuel as [|f IH]; intros st [|c tl] st' HP H;
    simpl in H; try discriminate; try (injection H as <-; exact HP).
  - specialize (Hstep st c tl HP).
    destruct (NovelAI.step st c tl) as [s1 r1]. simpl in Hstep.
    exact (IH _ _ _ Hstep H).
Qed.

Lemma pix_scan_rest_inv (P : PixAI.State -> jsstring -> Prop) :
  (forall st c tl, P st (c :: tl) ->
     P (fst (PixAI.step st c tl)) (snd (PixAI.step st c tl))) ->
  forall fuel st rest st',
    P st rest -> PixAI.scan fuel st rest = Some st' -> P st' [].
Proof.
  intros Hstep. induction fuel as [|f IH]; intros st [|c tl] st' HP H;
    simpl in H; try discriminate; try (injection H as <-; exact HP).
  - specialize (Hstep st c tl HP).
    destruct (PixAI.step st c tl) as [s1 r1]. simpl in Hstep.
    exact (IH _ _ _ Hstep H).
Qed.

Lemma nai_flush_fields st :
  NovelAI.curlyDepth (NovelAI.flush st) = NovelAI.curlyDepth st
  /\ NovelAI.squareDepth (NovelAI.flush st) = NovelAI.squareDepth st
  /\ NovelAI.activeBaseWeight (NovelAI.flush st) = NovelAI.activeBaseWeight st
  /\ NovelAI.buffer (NovelAI.flush st) = [].
Proof.
  unfold NovelAI.flush. destruct (JsString.truthy _);
    [destruct (generateId _)|]; simpl; auto.
Qed.

Lemma pix_flush_depths o st :
  PixAI.parenDepth (PixAI.flush o st) = PixAI.parenDepth st
  /\ PixAI.squareDepth (PixAI.flush o st) = PixAI.squareDepth st.
Proof.
  unfold PixAI.flush. destruct (JsString.truthy _);
    [destruct (generateId _)|]; simpl; auto.
Qed.

Lemma nai_step_bracket st tl :
  NovelAI.step st 123%N tl = (NovelAI.bracket 1 0 st, tl)
  /\ NovelAI.step st 125%N tl = (NovelAI.bracket (-1) 0 st, tl)
  /\ NovelAI.step st 91%N tl = (NovelAI.bracket 0 1 st, tl)
  /\ NovelAI.step st 93%N tl = (NovelAI.bracket 0 (-1) st, tl).
Proof. repeat split. Qed.

Lemma pix_step_paren st tl :
  PixAI.step st 40%N tl =
  match explicitWeightRegex (40%N :: tl) with
  | Some (content, numStr, len) =>
      (PixAI.explicitWeight content numStr (firstn len (40%N :: tl)) st,
       skipn len (40%N :: tl))
  | None => (PixAI.plain st 40%N, tl)
  end.
Proof. unfold PixAI.step. destruct tl; reflexivity. Qed.

Lemma nai_flush_rng r0 st : nai_rng_inv r0 st -> nai_rng_inv r0 (NovelAI.flush st).
Proof.
  intros [Hd Hp]. unfold NovelAI.flush.
  destruct (JsString.truthy _); [|split; assumption].
  pose proof (generateId_rng (NovelAI.rng st)) as [Gd Gp].
  destruct (generateId (NovelAI.rng st)) as [i r]. simpl in *.
  split; simpl; [congruence|]. rewrite length_app. simpl. lia.
Qed.

Lemma nai_step_rng r0 st c tl :
  nai_rng_inv r0 st -> nai_rng_inv r0 (fst (NovelAI.step st c tl)).
Proof.
  intros H. pose proof (nai_flush_rng _ _ H) as HF. unfold NovelAI.step.
  destruct (weightControlRegex (c :: tl)) as [[ns len]|]; [exact HF|].
  repeat match goal with |- context [if ?x then _ else _] => destruct x end;
    solve [exact HF | exact H].
Qed.

Lemma parseNovelAI_rng r text :
  draws (snd (NovelAI.parseNovelAI r text)) = draws r
  /\ pos (snd (NovelAI.parseNovelAI r text))
     = (pos r + List.length (fst (NovelAI.parseNovelAI r text)))%nat.
Proof.
  unfold NovelAI.parseNovelAI.
  destruct (negb (JsString.truthy text)); [simpl; split; [reflexivity|lia]|].
  destruct (NovelAI.scan _ _ text) as [st|] eqn:E; [|simpl; split; [reflexivity|lia]].
  assert (H : nai_rng_inv r st).
  { eapply (nai_scan_inv (nai_rng_inv r)); [intros; now apply nai_step_rng| |exact E].
    split; simpl; [reflexivity|lia]. }
  apply nai_flush_rng in H. exact H.
Qed.

Lemma pix_flush_rng r0 o st : pix_rng_inv r0 st -> pix_rng_inv r0 (PixAI.flush o st).
Proof.
  intros [Hd Hp]. unfold PixAI.flush.
  destruct (JsString.truthy _); [|split; assumption].
  pose proof (generateId_rng (PixAI.rng st)) as [Gd Gp].
  destruct (generateId (PixAI.rng st)) as [i r]. simpl in *.
  split; simpl; [congruence|]. rewrite length_app. simpl. lia.
Qed.

Lemma pix_step_rng r0 st c tl :
  pix_rng_inv r0 st -> pix_rng_inv r0 (fst (PixAI.step st c tl)).
Proof.
  intros H. pose proof (pix_flush_rng _ None _ H) as HF. unfold PixAI.step.
  assert (HE : forall a b w, pix_rng_inv r0 (PixAI.explicitWeight a b w st)).
  { intros a b w. unfold PixAI.explicitWeight.
    pose proof (generateId_rng (PixAI.rng (PixAI.flush None st))) as [Gd Gp].
    destruct (generateId (PixAI.rng (PixAI.flush None st))) as [i r].
    destruct HF as [Hd Hp]. simpl in *.
    split; simpl; [congruence|]. rewrite length_app. simpl. lia. }
  assert (HP : pix_rng_inv r0 (PixAI.plain st c)).
  { unfold PixAI.plain.
    repeat match goal with |- context [if ?x then _ else _] => destruct x end;
      solve [exact HF | exact H]. }
  destruct (c =? 92)%N; [destruct tl|]; simpl; try exact H;
  match goal with |- context [match ?x with Some _ => _ | None => _ end] =>
    destruct x as [[[? ?] ?]|] end; simpl; auto.
Qed.

Lemma parsePixAI_rng r text :
  draws (snd (PixAI.parsePixAI r text)) = draws r
  /\ pos (snd (PixAI.parsePixAI r text))
     = (pos r + List.length (fst (PixAI.parsePixAI r text)))%nat.
Proof.
  unfold PixAI.parsePixAI.
  destruct (negb (JsString.truthy text)); [simpl; split; [reflexivity|lia]|].
  destruct (PixAI.scan _ _ text) as [st|] eqn:E; [|simpl; split; [reflexivity|lia]].
  assert (H : pix_rng_inv r st).
  { eapply (pix_scan_inv (pix_rng_inv r)); [intros; now apply pix_step_rng| |exact E].
    split; simpl; [reflexivity|lia]. }
  apply (pix_flush_rng _ None) in H. exact H.
Qed.

(** *** Running parseNovelAI on brackets and a tag *)

Lemma nai_scan_fuel f1 : forall f2 st rest,
  (List.length rest <= f1)%nat -> (List.length rest <= f2)%nat ->
  NovelAI.scan f1 st rest = NovelAI.scan f2 st rest.
Proof.
  induction f1 as [|f1 IH]; intros [|f2] st [|c tl] H1 H2; simpl in *;
    try reflexivity; try lia.
  pose proof (nai_step_shrinks st c tl) as Hs.
  destruct (NovelAI.step st c tl) as [st' rest']. simpl in Hs.
  apply IH; lia.
Qed.

Lemma nai_run_cons st c tl :
  nai_run st (c :: tl) =
  nai_run (fst (NovelAI.step st c tl)) (snd (NovelAI.step st c tl)).
Proof.
  unfold nai_run. simpl.
  pose proof (nai_step_shrinks st c tl) as Hs.
  destruct (NovelAI.step st c tl) as [st' rest']. simpl in *.
  apply nai_scan_fuel; lia.
Qed.

Lemma parseNovelAI_run r text :
  fst (NovelAI.parseNovelAI r text) =
  match nai_run (NovelAI.init r) text with
  | Some st => NovelAI.segments (NovelAI.flush st)
  | None => []
  end.
Proof.
  unfold NovelAI.parseNovelAI, nai_run. destruct text as [|c tl]; [reflexivity|].
  cbn [JsString.truthy negb].
  destruct (NovelAI.scan _ _ _); reflexivity.
Qed.



Lemma nai_flush_empty st :
  NovelAI.buffer st = [] -> NovelAI.flush st = st.
Proof. destruct st. simpl. intros ->. reflexivity. Qed.

(** Brackets scanned from an empty buffer only move the depths. *)
Lemma nai_run_brackets (c : cu) dc ds n : forall st tl,
  (forall st' tl', NovelAI.step st' c tl' = (NovelAI.bracket dc ds st', tl')) ->
  NovelAI.buffer st = [] ->
  nai_run st (repeat c n ++ tl) =
  nai_run {| NovelAI.segments := NovelAI.segments st;
             NovelAI.curlyDepth := NovelAI.curlyDepth st + Z.of_nat n * dc;
             NovelAI.squareDepth := NovelAI.squareDepth st + Z.of_nat n * ds;
             NovelAI.activeBaseWeight := NovelAI.activeBaseWeight st;
             NovelAI.buffer := [];
             NovelAI.rng := NovelAI.rng st |} tl.
Proof.
  induction n as [|n IH]; intros st tl Hc Hb.
  - cbn [repeat app Z.of_nat Z.mul]. rewrite !Z.add_0_r.
    destruct st. simpl in *. now subst.
  - cbn [repeat app]. rewrite nai_run_cons, Hc. cbn [fst snd].
    unfold NovelAI.bracket. rewrite (nai_flush_empty st Hb).
    rewrite IH by (exact Hc || exact Hb).
    cbn [NovelAI.segments NovelAI.curlyDepth NovelAI.squareDepth
         NovelAI.activeBaseWeight NovelAI.rng].
    do 2 f_equal; lia.
Qed.

Lemma nai_run_open n m st tl :
  NovelAI.buffer st = [] ->
  nai_run st (repeat 123%N n ++ repeat 91%N m ++ tl) =
  nai_run {| NovelAI.segments := NovelAI.segments st;
             NovelAI.curlyDepth := NovelAI.curlyDepth st + Z.of_nat n;
             NovelAI.squareDepth := NovelAI.squareDepth st + Z.of_nat m;
             NovelAI.activeBaseWeight := NovelAI.activeBaseWeight st;
             NovelAI.buffer := [];
             NovelAI.rng := NovelAI.rng st |} tl.
Proof.
  intros Hb.
  rewrite (nai_run_brackets 123%N 1 0 n st _
             (fun s t => proj1 (nai_step_bracket s t)) Hb).
  rewrite nai_run_brackets with (dc := 0) (ds := 1);
    [|exact (fun s t => proj1 (proj2 (proj2 (nai_step_bracket s t))))
     |reflexivity].
  cbn [NovelAI.segments NovelAI.curlyDepth NovelAI.squareDepth
       NovelAI.activeBaseWeight NovelAI.rng].
  do 2 f_equal; lia.
Qed.


(** *** Running parsePixAI on rendered tags *)

Lemma pix_scan_fuel f1 : forall f2 st rest,
  (List.length rest <= f1)%nat -> (List.length rest <= f2)%nat ->
  PixAI.scan f1 st rest = PixAI.scan f2 st rest.
Proof.
  induction f1 as [|f1 IH]; intros [|f2] st [|c tl] H1 H2; simpl in *;
    try reflexivity; try lia.
  pose proof (pix_step_shrinks st c tl) as Hs.
  destruct (PixAI.step st c tl) as [st' rest']. simpl in Hs.
  apply IH; lia.
Qed.

Lemma pix_run_nil st : pix_run st [] = Some st.
Proof. reflexivity. Qed.

Lemma pix_run_cons st c tl :
  pix_run st (c :: tl) =
  pix_run (fst (PixAI.step st c tl)) (snd (PixAI.step st c tl)).
Proof.
  unfold pix_run. simpl.
  pose proof (pix_step_shrinks st c tl) as Hs.
  destruct (PixAI.step st c tl) as [st' rest']. simpl in *.
  apply pix_scan_fuel; lia.
Qed.

Lemma parsePixAI_run r text :
  fst (PixAI.parsePixAI r text) =
  match pix_run (PixAI.init r) text with
  | Some st => PixAI.segments (PixAI.flush None st)
  | None => []
  end.
Proof.
  unfold PixAI.parsePixAI, pix_run. destruct text as [|c tl]; [reflexivity|].
  cbn [JsString.truthy negb].
  destruct (PixAI.scan _ _ _); reflexivity.
Qed.

Lemma pix_append_append a b st :
  PixAI.append b (PixAI.append a st) = PixAI.append (a ++ b) st.
Proof. unfold PixAI.append. simpl. now rewrite app_assoc. Qed.

(** The escaped text of a plain tag goes to the buffer. *)
Lemma pix_run_plain content : forall st tl,
  plain_safe content = true ->
  pix_run st (escapePixAI content ++ tl)
  = pix_run (PixAI.append (escapePixAI content) st) tl.
Proof.
  induction content as [|c s IH]; intros st tl H.
  - simpl. unfold PixAI.append. rewrite app_nil_r. now destruct st.
  - simpl in H. apply andb_prop in H as [Hc Hs]. apply negb_true_iff in Hc.
    apply orb_false_elim in Hc as [Hc H93].
    apply orb_false_elim in Hc as [Hc H91].
    apply orb_false_elim in Hc as [H92 H44].
    simpl. destruct ((c =? 40)%N || (c =? 41)%N) eqn:E.
    + cbn [app]. rewrite pix_run_cons. unfold PixAI.step.
      change ((92 =? 92)%N) with true. cbn [fst snd].
      rewrite (IH _ _ Hs). now rewrite pix_append_append.
    + apply orb_false_elim in E as [H40 H41].
      cbn [app]. rewrite pix_run_cons. unfold PixAI.step.
      rewrite H92, H40. unfold PixAI.plain. rewrite H40, H41, H91, H93, H44.
      cbn [fst snd]. rewrite (IH _ _ Hs). now rewrite pix_append_append.
Qed.

(** A plain escaped text goes to the buffer, escape pairs included. *)
Lemma pix_run_plain_text esc :
  plain_text esc = true ->
  forall st tl, pix_run st (esc ++ tl) = pix_run (PixAI.append esc st) tl.
Proof.
  revert esc. unfold plain_text.
  apply (escaped_text_ind _ _
           (fun esc => forall st tl,
              pix_run st (esc ++ tl) = pix_run (PixAI.append esc st) tl)).
  - intros st tl. simpl. unfold PixAI.append. rewrite app_nil_r.
    now destruct st.
  - intros d s _ _ IH st tl. cbn [app]. rewrite pix_run_cons.
    unfold PixAI.step. change ((92 =? 92)%N) with true. cbn [fst snd].
    rewrite IH. now rewrite pix_append_append.
  - intros c s Hc Hs _ IH st tl. apply negb_true_iff in Hs.
    apply orb_false_elim in Hs as [Hs H44].
    apply orb_false_elim in Hs as [Hs H93].
    apply orb_false_elim in Hs as [Hs H91].
    apply orb_false_elim in Hs as [H40 H41].
    cbn [app]. rewrite pix_run_cons. unfold PixAI.step.
    rewrite Hc, H40. unfold PixAI.plain. rewrite H40, H41, H91, H93, H44.
    cbn [fst snd]. rewrite IH. now rewrite pix_append_append.
Qed.

Lemma pix_flush_idle st :
  pix_idle st ->
  PixAI.flush None st =
  {| PixAI.segments := PixAI.segments st; PixAI.parenDepth := 0;
     PixAI.squareDepth := 0; PixAI.buffer := []; PixAI.rng := PixAI.rng st |}.
Proof.
  intros (Hb & Hp & Hs). unfold PixAI.flush. rewrite Hb, Hp, Hs. reflexivity.
Qed.

(** An explicit weight token scanned from an idle state. *)
Lemma pix_run_token_text esc num tl st :
  token_text esc = true -> esc <> [] -> decimal_lit num = true ->
  pix_idle st ->
  exists st',
    pix_run st (40%N :: esc ++ 58%N :: num ++ 41%N :: tl) = pix_run st' tl
    /\ pix_idle st'
    /\ map seg_weight (PixAI.segments st')
       = map seg_weight (PixAI.segments st) ++ [Some (parseFloat num)].
Proof.
  intros Hs Hn Hd Hi. rewrite pix_run_cons, pix_step_paren.
  rewrite (explicitWeightRegex_token_text esc num tl Hs Hn Hd).
  cbn [fst snd]. unfold PixAI.explicitWeight. rewrite (pix_flush_idle st Hi).
  cbn [PixAI.rng PixAI.segments PixAI.parenDepth PixAI.squareDepth PixAI.buffer].
  destruct (generateId (PixAI.rng st)) as [i r].
  eexists. split; [|split].
  - f_equal.
    replace (List.length esc + List.length num + 3)%nat
      with (S (List.length (esc ++ 58%N :: num ++ [41%N])))
      by (rewrite !length_app; simpl; rewrite !length_app; simpl; lia).
    cbn [skipn].
    replace (esc ++ 58%N :: num ++ 41%N :: tl)
      with ((esc ++ 58%N :: num ++ [41%N]) ++ tl)
      by (rewrite <- !app_assoc; simpl; rewrite <- !app_assoc; reflexivity).
    rewrite skipn_app, skipn_all, Nat.sub_diag. reflexivity.
  - repeat split.
  - cbn. rewrite map_app. reflexivity.
Qed.

Lemma pix_run_separator st tl :
  pix_run st (js ", " ++ tl)
  = pix_run (PixAI.append [32%N] (PixAI.flush None st)) tl.
Proof.
  cbn [js app]. change (N_of_ascii ",") with 44%N.
  change (N_of_ascii " ") with 32%N. rewrite pix_run_cons.
  change (PixAI.step st 44%N (32%N :: tl))
    with (PixAI.flush None st, 32%N :: tl).
  cbn [fst snd]. rewrite pix_run_cons. reflexivity.
Qed.

(** A flush at depth zero emits the buffer with the weight 1. *)
Lemma pix_flush_plain st :
  JsString.truthy (trim (PixAI.buffer st)) = true ->
  PixAI.parenDepth st = 0 -> PixAI.squareDepth st = 0 ->
  exists seg r,
    PixAI.flush None st =
    {| PixAI.segments := PixAI.segments st ++ [seg]; PixAI.parenDepth := 0;
       PixAI.squareDepth := 0; PixAI.buffer := []; PixAI.rng := r |}
    /\ seg_weight seg = Some one.
Proof.
  intros Hb Hp Hs. unfold PixAI.flush, PixAI.ambientWeight.
  rewrite Hb, Hp, Hs, pix_ambient_zero.
  destruct (generateId (PixAI.rng st)) as [i r].
  eexists. eexists. split; reflexivity.
Qed.

Lemma pix_idle_after_separator segs r :
  pix_idle
    (PixAI.append [32%N]
       {| PixAI.segments := segs; PixAI.parenDepth := 0;
          PixAI.squareDepth := 0; PixAI.buffer := []; PixAI.rng := r |}).
Proof. repeat split. Qed.

(** *** Running parsePixAI on a nested token *)

Lemma pix_flush_empty st : PixAI.buffer st = [] -> PixAI.flush None st = st.
Proof. destruct st. simpl. intros ->. reflexivity. Qed.

Lemma pix_step_open_open st tl :
  PixAI.step st 40%N (40%N :: tl) = (PixAI.plain st 40%N, 40%N :: tl).
Proof. reflexivity. Qed.

(** Opening parentheses in front of another one only raise the depth. *)
Lemma pix_run_open n : forall st tl,
  PixAI.buffer st = [] ->
  pix_run st (repeat 40%N n ++ 40%N :: tl) =
  pix_run (PixAI.setDepths (PixAI.parenDepth st + Z.of_nat n)
                           (PixAI.squareDepth st) st) (40%N :: tl).
Proof.
  induction n as [|n IH]; intros st tl Hb.
  - cbn [repeat app Z.of_nat]. rewrite Z.add_0_r. now destruct st.
  - cbn [repeat app]. rewrite pix_run_cons.
    assert (E : exists t, repeat 40%N n ++ 40%N :: tl = 40%N :: t)
      by (destruct n; simpl; eauto).
    destruct E as [t E]. rewrite E, pix_step_open_open, <- E. cbn [fst snd].
    unfold PixAI.plain. change ((40 =? 40)%N) with true. cbv iota zeta.
    rewrite (pix_flush_empty st Hb), IH by exact Hb.
    unfold PixAI.setDepths.
    cbn [PixAI.segments PixAI.parenDepth PixAI.squareDepth PixAI.buffer
         PixAI.rng].
    f_equal. f_equal. lia.
Qed.

(** Closing parentheses scanned from an empty buffer emit nothing. *)
Lemma pix_run_close n : forall st,
  PixAI.buffer st = [] ->
  exists st', pix_run st (repeat 41%N n) = Some st'
              /\ PixAI.segments st' = PixAI.segments st
              /\ PixAI.buffer st' = [].
Proof.
  induction n as [|n IH]; intros st Hb.
  - exists st. repeat split. exact Hb.
  - cbn [repeat]. rewrite pix_run_cons.
    change (PixAI.step st 41%N (repeat 41%N n))
      with (PixAI.plain st 41%N, repeat 41%N n).
    cbn [fst snd]. unfold PixAI.plain. change ((41 =? 40)%N) with false.
    change ((41 =? 41)%N) with true. cbv iota zeta.
    rewrite (pix_flush_empty st Hb).
    destruct (IH (PixAI.setDepths (Z.max 0 (PixAI.parenDepth st - 1))
                                  (PixAI.squareDepth st) st) Hb)
      as (st' & R & Sg & B).
    exists st'. repeat split; assumption.
Qed.

(** An explicit weight token scanned from an empty buffer, at any depth. *)
Lemma pix_run_token_nested content num tl st :
  token_safe content = true -> content <> [] -> decimal_lit num = true ->
  PixAI.buffer st = [] ->
  exists st',
    pix_run st (40%N :: escapePixAI content ++ 58%N :: num ++ 41%N :: tl)
    = pix_run st' tl
    /\ PixAI.buffer st' = []
    /\ map seg_weight (PixAI.segments st')
       = map seg_weight (PixAI.segments st) ++ [Some (parseFloat num)].
Proof.
  intros Hs Hn Hd Hb. rewrite pix_run_cons, pix_step_paren.
  rewrite (explicitWeightRegex_token content num tl Hs Hn Hd).
  cbn [fst snd]. unfold PixAI.explicitWeight. rewrite (pix_flush_empty st Hb).
  destruct (generateId (PixAI.rng st)) as [i r].
  eexists. split; [|split].
  - f_equal.
    replace (List.length (escapePixAI content) + List.length num + 3)%nat
      with (S (List.length (escapePixAI content ++ 58%N :: num ++ [41%N])))
      by (rewrite !length_app; simpl; rewrite !length_app; simpl; lia).
    cbn [skipn].
    replace (escapePixAI content ++ 58%N :: num ++ 41%N :: tl)
      with ((escapePixAI content ++ 58%N :: num ++ [41%N]) ++ tl)
      by (rewrite <- !app_assoc; simpl; rewrite <- !app_assoc; reflexivity).
    rewrite skipn_app, skipn_all, Nat.sub_diag. reflexivity.
  - exact Hb.
  - cbn. rewrite map_app. reflexivity.
Qed.

Lemma nested_token_weight r n content num :
  token_safe content = true -> content <> [] -> decimal_lit num = true ->
  map seg_weight
    (fst (PixAI.parsePixAI r
            (repeat 40%N n ++ 40%N :: escapePixAI content ++ 58%N :: num
               ++ 41%N :: repeat 41%N n)))
  = [Some (parseFloat num)].
Proof.
  intros Hs Hn Hd. rewrite parsePixAI_run.
  rewrite (pix_run_open n (PixAI.init r) _ eq_refl).
  destruct (pix_run_token_nested content num (repeat 41%N n) _ Hs Hn Hd
              (eq_refl : PixAI.buffer
                 (PixAI.setDepths (PixAI.parenDepth (PixAI.init r) + Z.of_nat n)
                    (PixAI.squareDepth (PixAI.init r)) (PixAI.init r)) = []))
    as (st1 & -> & B1 & W1).
  destruct (pix_run_close n st1 B1) as (st2 & -> & S2 & B2).
  rewrite (pix_flush_empty st2 B2), S2, W1. reflexivity.
Qed.

(** ** The serializers and the conversion effect *)

Lemma map_erase_filter (p : ParsedSegment -> bool) l :
  (forall s, p (erase_id s) = p s) ->
  map erase_id (filter p l) = filter p (map erase_id l).
Proof.
  intros Hp. induction l as [|s l IH]; simpl; [reflexivity|].
  rewrite Hp. destruct (p s); simpl; congruence.
Qed.

Lemma segmentsToNovelAI_erase l :
  segmentsToNovelAI (map erase_id l) = segmentsToNovelAI l.
Proof. unfold segmentsToNovelAI. rewrite map_map. reflexivity. Qed.

Lemma segmentsToPixAI_erase l :
  segmentsToPixAI (map erase_id l) = segmentsToPixAI l.
Proof.
  unfold segmentsToPixAI.
  rewrite <- (map_erase_filter has_content) by reflexivity.
  rewrite map_map. reflexivity.
Qed.

Lemma convert_erase d src neg r1 r2 :
  let a := fst (Converter.convert d src neg r1) in
  let b := fst (Converter.convert d src neg r2) in
  Converter.resultText a = Converter.resultText b
  /\ Converter.resultNegativeText a = Converter.resultNegativeText b
  /\ map erase_id (Converter.segments a) = map erase_id (Converter.segments b).
Proof.
  destruct d; unfold Converter.convert.
  - pose proof (parseNovelAI_erase r1 r2 src) as H.
    destruct (NovelAI.parseNovelAI r1 src) as [p1 q1],
             (NovelAI.parseNovelAI r2 src) as [p2 q2]. simpl in *.
    repeat split; auto.
    + rewrite <- (segmentsToPixAI_erase (filter _ p1)),
              <- (segmentsToPixAI_erase (filter _ p2)).
      rewrite !(map_erase_filter Converter.is_positive) by reflexivity.
      now rewrite H.
    + rewrite <- (segmentsToPixAI_erase (map _ (filter _ p1))),
              <- (segmentsToPixAI_erase (map _ (filter _ p2))).
      rewrite !map_map.
      rewrite <- !(map_map erase_id Converter.flip_positive).
      rewrite !(map_erase_filter Converter.is_negative) by reflexivity.
      now rewrite H.
  - pose proof (parsePixAI_erase r1 r2 src) as H.
    destruct (PixAI.parsePixAI r1 src) as [p1 q1],
             (PixAI.parsePixAI r2 src) as [p2 q2]. simpl in H.
    pose proof (parsePixAI_erase q1 q2 neg) as H'.
    destruct (PixAI.parsePixAI q1 neg) as [n1 s1],
             (PixAI.parsePixAI q2 neg) as [n2 s2]. simpl in *.
    assert (E : map erase_id (p1 ++ map Converter.force_negative n1)
              = map erase_id (p2 ++ map Converter.force_negative n2)).
    { rewrite !map_app, !map_map, H.
      rewrite <- !(map_map erase_id Converter.force_negative). now rewrite H'. }
    repeat split; auto.
    rewrite <- (segmentsToNovelAI_erase (p1 ++ _)), E.
    apply segmentsToNovelAI_erase.
Qed.

Lemma convertToPixAI_fst r text :
  fst (convertToPixAI r text) = segmentsToPixAI (fst (NovelAI.parseNovelAI r text)).
Proof.
  unfold convertToPixAI. now destruct (NovelAI.parseNovelAI r text).
Qed.

Lemma convertToNovelAI_fst r text :
  fst (convertToNovelAI r text) = segmentsToNovelAI (fst (PixAI.parsePixAI r text)).
Proof.
  unfold convertToNovelAI. now destruct (PixAI.parsePixAI r text).
Qed.

(** Evaluation of a scanner on a text, whatever the generator. *)
Ltac eval_nai r :=
  rewrite (parseNovelAI_erase r sample_rng); vm_compute; reflexivity.
Ltac eval_pix r :=
  rewrite (parsePixAI_erase r sample_rng); vm_compute; reflexivity.

(** ** The specified properties *)

(** *** C1: merging the negative prompt *)

(** C1, at the failing input. With the positive text [good] and the negative
    text [bad], the PixAI to NovelAI conversion yields [good, bad]: the
    negated segment has the weight -1 but keeps the type [text], and
    [segmentsToNovelAI] renders a segment of that type as its bare content.
    A negative text with an explicit weight is rendered with its sign. *)
Theorem merge_good_bad r :
  let res := fst (Converter.convert PIX_TO_NAI (js "good") (js "bad") r) in
  Converter.resultText res = js "good, bad"
  /\ Converter.resultText res <> js "good, -1::bad::"
  /\ map erase_id (Converter.segments res)
     = [erased TText "good" "good" (lit "1");
        erased TText "bad" "bad" (lit "-1")]
  /\ Converter.resultText
       (fst (Converter.convert PIX_TO_NAI (js "good") (js "(bad:1.4)") r))
     = js "good, -1.4::bad::".
Proof.
  destruct (convert_erase PIX_TO_NAI (js "good") (js "bad") r sample_rng)
    as (H1 & _ & H3).
  destruct (convert_erase PIX_TO_NAI (js "good") (js "(bad:1.4)") r sample_rng)
    as (H4 & _).
  cbv zeta in *. rewrite H1, H3, H4.
  repeat apply conj; try (vm_compute; reflexivity).
  vm_compute. discriminate.
Qed.

(** *** C2: splitting off the negative prompt *)

Lemma nai_flush_sign st : nai_sign_inv st -> nai_sign_inv (NovelAI.flush st).
Proof.
  intros [Hs Hb]. pose proof (nai_flush_fields st) as (_ & _ & Ew & _).
  split; [|now rewrite Ew].
  unfold NovelAI.flush. destruct (JsString.truthy _); [|exact Hs].
  destruct (generateId _) as [i r]. cbn [NovelAI.segments].
  apply Forall_app. split; [exact Hs|]. constructor; [|constructor].
  unfold Converter.is_negative. cbn [seg_weight].
  apply sign_not_negative. unfold NovelAI.resolvedWeight.
  apply roundWeight_sign, mul_sign; [apply mul_sign; [exact Hb|]|];
    apply Math_pow_sign.
Qed.

Lemma nai_step_sign st c tl :
  nai_sign_inv st -> nai_sign_inv (fst (NovelAI.step st c tl)).
Proof.
  intros H. pose proof (nai_flush_sign st H) as [Hs Hb].
  unfold NovelAI.step. cbv zeta.
  destruct (weightControlRegex (c :: tl)) as [[o len]|] eqn:E.
  - cbn [fst]. split; [exact Hs|].
    cbn [NovelAI.weightControl NovelAI.activeBaseWeight].
    destruct o as [ns|]; [|reflexivity].
    destruct (is_nan (parseFloat ns)); cbn [negb]; [exact Hb|].
    apply weightControlRegex_shape in E.
    destruct E as (_ & _ & Hne & ip & fp & -> & Hshape).
    rewrite (parseFloat_decimal ip fp Hshape Hne). apply of_decimal_sign.
  - repeat match goal with |- context [if ?x then _ else _] => destruct x end;
      cbn [fst]; try (split; [exact Hs|exact Hb]).
    exact H.
Qed.

Lemma parseNovelAI_no_negative r text :
  filter Converter.is_negative (fst (NovelAI.parseNovelAI r text)) = [].
Proof.
  assert (G : Forall (fun s => Converter.is_negative s = false)
                (fst (NovelAI.parseNovelAI r text))).
  { unfold NovelAI.parseNovelAI.
    destruct (negb (JsString.truthy text)); [constructor|].
    destruct (NovelAI.scan _ _ text) as [st|] eqn:E; [|constructor].
    assert (H0 : nai_sign_inv (NovelAI.init r))
      by (split; [constructor|reflexivity]).
    pose proof (nai_scan_inv nai_sign_inv
                  (fun st c tl => nai_step_sign st c tl) _ _ _ _ H0 E) as H.
    apply nai_flush_sign in H. exact (proj1 H). }
  induction G as [|s l Hs _ IH]; [reflexivity|]. simpl. now rewrite Hs.
Qed.

(** C2, at the failing input. On [2::good::, -1::bad::] the NovelAI to
    PixAI conversion scans no negative weight: the sign is a tag of its
    own, all three segments go to the positive output and the negative
    output is empty, as it is on every input. *)
Theorem partition_good_bad r :
  let res := fst (Converter.convert NAI_TO_PIX (js "2::good::, -1::bad::") [] r) in
  Converter.resultText res = js "(good:2), -, bad"
  /\ Converter.resultNegativeText res = []
  /\ map erase_id (Converter.segments res) =
       [erased TWeight "good" "good" (lit "2");
        erased TText "-" "-" (lit "1");
        erased TText "bad" "bad" (lit "1")]
  /\ (forall text neg r',
        Converter.resultNegativeText
          (fst (Converter.convert NAI_TO_PIX text neg r')) = []).
Proof.
  destruct (convert_erase NAI_TO_PIX (js "2::good::, -1::bad::") [] r sample_rng)
    as (H1 & H2 & H3). cbv zeta in *. rewrite H1, H2, H3.
  split; [vm_compute; reflexivity|].
  split; [vm_compute; reflexivity|].
  split; [vm_compute; reflexivity|].
  intros text neg r'. unfold Converter.convert.
  pose proof (parseNovelAI_no_negative r' text) as E.
  destruct (NovelAI.parseNovelAI r' text) as [parsed r1]. cbn [fst] in *.
  cbn [Converter.resultNegativeText]. now rewrite E.
Qed.

(** *** C3: finite weights *)

Lemma nai_number_digits_count s :
  nai_number_digits s <= Z.of_nat (digit_count s).
Proof.
  apply over_suffixes_le; [lia|]. intros n.
  pose proof (leading_digits_count (skipn n s)).
  pose proof (digit_count_skipn n s).
  unfold nai_literal_digits.
  destruct (weightControlRegex _) as [[[ns|] len]|]; lia.
Qed.

Lemma nai_reach_count s : forall cd sd,
  nai_reach cd sd s <= nai_raise cd sd + Z.of_nat (bracket_count s).
Proof.
  induction s as [|c s IH]; intros cd sd; cbn [nai_reach].
  - unfold nai_raise. lia.
  - rewrite bracket_count_cons. unfold is_bracket.
    pose proof (IH (cd + 1) sd). pose proof (IH (cd - 1) sd).
    pose proof (IH cd (sd + 1)). pose proof (IH cd (sd - 1)).
    pose proof (IH cd sd). unfold nai_raise in *.
    destruct (c =? 123)%N; [rewrite ?orb_true_r; cbn [orb]; lia|].
    destruct (c =? 125)%N; [rewrite ?orb_true_r; cbn [orb]; lia|].
    destruct (c =? 91)%N; [rewrite ?orb_true_r; cbn [orb]; lia|].
    destruct (c =? 93)%N; [rewrite ?orb_true_r; cbn [orb]; lia|].
    rewrite !orb_false_r. destruct ((c =? 40)%N || (c =? 41)%N); lia.
Qed.

Lemma nai_depth_count s : nai_depth s <= Z.of_nat (bracket_count s).
Proof.
  apply over_suffixes_le; [lia|]. intros n.
  pose proof (nai_reach_count (skipn n s) 0 0).
  pose proof (bracket_count_skipn n s). unfold nai_raise in *. lia.
Qed.

Lemma nai_reach_raise cd sd s : nai_raise cd sd <= nai_reach cd sd s.
Proof. destruct s; cbn [nai_reach]; lia. Qed.

Lemma pix_reach_depth pd s : pd <= pix_reach pd s.
Proof. destruct s; cbn [pix_reach]; lia. Qed.

(** A character that is no backslash and no parenthesis leaves the depth
    of the parentheses as it is. *)
Lemma pix_reach_cons pd c s :
  (c =? 92)%N = false -> (c =? 40)%N = false -> (c =? 41)%N = false ->
  pix_reach pd s <= pix_reach pd (c :: s).
Proof. intros A B C. cbn [pix_reach]. rewrite A, B, C. lia. Qed.

Lemma pix_reach_plain l : forall pd s,
  forallb depth_neutral l = true ->
  pix_reach pd s <= pix_reach pd (l ++ s).
Proof.
  induction l as [|c l IH]; intros pd s H; [reflexivity|].
  cbn [forallb] in H. apply andb_prop in H as [Hc Hl].
  unfold depth_neutral in Hc.
  apply negb_true_iff in Hc. apply orb_false_elim in Hc as [Hc C].
  apply orb_false_elim in Hc as [A B]. cbn [app].
  exact (Z.le_trans _ _ _ (IH pd s Hl) (pix_reach_cons pd c (l ++ s) A B C)).
Qed.

(** The content of an explicit weight token has no parenthesis outside an
    escape pair. *)
Lemma pix_reach_content n : forall s pd x,
  (List.length s <= n)%nat ->
  pix_reach pd x <= pix_reach pd (fst (content_run s) ++ x).
Proof.
  induction n as [|n IH]; intros [|c s] pd x Hl; simpl in Hl;
    try reflexivity; try lia.
  cbn [content_run]. destruct (c =? 92)%N eqn:E.
  - destruct s as [|d s']; [reflexivity|].
    destruct (is_line_terminator d); [reflexivity|].
    specialize (IH s' pd x ltac:(simpl in Hl; lia)).
    destruct (content_run s') as [a b]. cbn [fst app] in *.
    cbn [pix_reach]. rewrite E. lia.
  - destruct ((c =? 58)%N || (c =? 40)%N || (c =? 41)%N) eqn:F;
      [reflexivity|].
    apply orb_false_elim in F as [F C]. apply orb_false_elim in F as [_ B].
    specialize (IH s pd x ltac:(lia)).
    destruct (content_run s) as [a b]. cbn [fst app] in *.
    exact (Z.le_trans _ _ _ IH (pix_reach_cons pd c (a ++ x) E B C)).
Qed.

Lemma number_text_plain ip fp :
  decimal_shape ip fp ->
  forallb depth_neutral (ip ++ fp)
  = true.
Proof.
  assert (D : forall l, forallb is_digit l = true ->
            forallb depth_neutral l
            = true).
  { induction l as [|c l IH]; [reflexivity|]. cbn [forallb]. intros H.
    apply andb_prop in H as [Hc Hl]. rewrite (IH Hl), andb_true_r.
    unfold is_digit in Hc. apply andb_prop in Hc as [A B].
    apply N.leb_le in A, B. unfold depth_neutral. apply negb_true_iff.
    repeat (apply orb_false_intro); apply N.eqb_neq; lia. }
  intros [Hi Hf]. rewrite forallb_app, (D ip Hi).
  destruct Hf as [->|(fd & -> & _ & Hd)]; [reflexivity|].
  cbn [forallb]. now rewrite (D fd Hd).
Qed.

(** An explicit weight token leaves the depth as it is. *)
Lemma pix_reach_token s body ns len pd :
  explicitWeightRegex s = Some (body, ns, len) -> 0 <= pd ->
  pix_reach pd (skipn len s) <= pix_reach pd s.
Proof.
  intros E Hp.
  destruct (explicitWeightRegex_text _ _ _ _ E)
    as (ip & fp & r & -> & Hb & -> & Hs & Hne & ->).
  replace (skipn _ _) with r.
  2:{ replace (List.length body + List.length (ip ++ fp) + 3)%nat
        with (S (List.length (body ++ 58%N :: (ip ++ fp) ++ [41%N])))
        by (rewrite !length_app; simpl; rewrite !length_app; simpl; lia).
      cbn [skipn].
      replace (body ++ 58%N :: (ip ++ fp) ++ 41%N :: r)
        with ((body ++ 58%N :: (ip ++ fp) ++ [41%N]) ++ r)
        by (rewrite <- !app_assoc; simpl; rewrite <- !app_assoc; reflexivity).
      rewrite skipn_app, skipn_all, Nat.sub_diag. reflexivity. }
  cbn [pix_reach]. change ((40 =? 92)%N) with false.
  change ((40 =? 40)%N) with true. cbv iota.
  pose proof (pix_reach_content _ (body ++ 58%N :: (ip ++ fp) ++ 41%N :: r)
                (pd + 1) (58%N :: (ip ++ fp) ++ 41%N :: r) (le_n _)) as A.
  rewrite <- Hb in A.
  pose proof (pix_reach_cons (pd + 1) 58%N ((ip ++ fp) ++ 41%N :: r)
                eq_refl eq_refl eq_refl) as B.
  pose proof (pix_reach_plain (ip ++ fp) (pd + 1) (41%N :: r)
                (number_text_plain ip fp Hs)) as C.
  assert (F : pix_reach pd r <= pix_reach (pd + 1) (41%N :: r)).
  { cbn [pix_reach]. change ((41 =? 92)%N) with false.
    change ((41 =? 40)%N) with false. change ((41 =? 41)%N) with true.
    cbv iota. replace (Z.max 0 (pd + 1 - 1)) with pd by lia. lia. }
  lia.
Qed.

Lemma nai_resolvedWeight_bounded st D B :
  bounded_by (digit_bits D + 2) (NovelAI.activeBaseWeight st) ->
  nai_raise (NovelAI.curlyDepth st) (NovelAI.squareDepth st) <= B ->
  0 <= D -> 10 * D + 3 * B <= 3000 ->
  is_finite (NovelAI.resolvedWeight st) = true.
Proof.
  intros Hb Hd HD HB. unfold NovelAI.resolvedWeight. unfold nai_raise in Hd.
  pose proof (digit_bits_nonneg D HD) as K0.
  assert (K : 3 * digit_bits D <= 10 * D + 2)
    by (unfold digit_bits; apply Z.mul_div_le; lia).
  destruct (raise_pow_bounded (NovelAI.curlyDepth st)) as (Pc & _).
  destruct (Pc ltac:(lia)) as (Pc1 & _).
  destruct (raise_pow_bounded (NovelAI.squareDepth st)) as (_ & Ps & _).
  specialize (Ps ltac:(lia)).
  pose proof (mul_bounded _ _ _ _ Hb Pc1 ltac:(lia)) as M1.
  pose proof (mul_bounded _ _ _ _ M1 Ps ltac:(lia)) as M2.
  eapply bounded_by_finite. apply (roundWeight_bounded _ _ M2). lia.
Qed.

Lemma nai_flush_bounded D B st rest :
  0 <= D -> 10 * D + 3 * B <= 3000 ->
  nai_bounded_inv D B st rest -> nai_bounded_inv D B (NovelAI.flush st) rest.
Proof.
  intros HD HB (Hs & Hb & Hd & Hr).
  pose proof (nai_flush_fields st) as (Ec & Eq & Ew & _).
  split; [|rewrite Ec, Eq, Ew; auto].
  unfold NovelAI.flush. destruct (JsString.truthy _); [|exact Hs].
  destruct (generateId _) as [i r]. cbn [NovelAI.segments].
  apply Forall_app. split; [exact Hs|]. constructor; [|constructor].
  eexists. split; [reflexivity|].
  apply (nai_resolvedWeight_bounded st D B); auto.
  pose proof (nai_reach_raise (NovelAI.curlyDepth st) (NovelAI.squareDepth st)
                rest). lia.
Qed.

Lemma nai_step_bounded D B st c tl :
  0 <= D -> 10 * D + 3 * B <= 3000 ->
  nai_bounded_inv D B st (c :: tl) ->
  nai_bounded_inv D B (fst (NovelAI.step st c tl)) (snd (NovelAI.step st c tl)).
Proof.
  intros HD HB H.
  pose proof (nai_flush_bounded D B st (c :: tl) HD HB H) as HF.
  pose proof (nai_flush_fields st) as (Ec & Eq & Ew & _).
  destruct HF as (Hs & Hb & Hd & Hdep & Hr).
  pose proof (over_suffixes_cons (nai_reach 0 0) c tl) as Dtl.
  pose proof (over_suffixes_cons nai_literal_digits c tl) as Rtl.
  fold nai_depth in Dtl. fold nai_number_digits in Rtl.
  pose proof (digit_bits_nonneg D HD) as K0.
  assert (HB0 : 0 <= B).
  { pose proof (nai_reach_raise (NovelAI.curlyDepth (NovelAI.flush st))
                  (NovelAI.squareDepth (NovelAI.flush st)) (c :: tl)).
    unfold nai_raise in *. lia. }
  cbn [nai_reach] in Hd.
  unfold NovelAI.step. cbv zeta.
  destruct (weightControlRegex (c :: tl)) as [[o len]|] eqn:E.
  - cbn [fst snd].
    pose proof (over_suffixes_skipn (nai_reach 0 0) len (c :: tl)) as Ds.
    pose proof (over_suffixes_skipn nai_literal_digits len (c :: tl)) as Rs.
    pose proof (over_suffixes_head (nai_reach 0 0) (skipn len (c :: tl))) as Dh.
    fold nai_depth in Ds, Dh. fold nai_number_digits in Rs.
    split; [exact Hs|].
    cbn [NovelAI.weightControl NovelAI.activeBaseWeight NovelAI.curlyDepth
         NovelAI.squareDepth].
    split; [|lia].
    destruct o as [ns|].
    + destruct (weightControlRegex_digits _ _ _ E)
        as (ip & fp & -> & Hshape & Hne & Hl).
      pose proof (over_suffixes_head nai_literal_digits (c :: tl)) as Hh.
      fold nai_number_digits in Hh. unfold nai_literal_digits in Hh.
      rewrite E in Hh. unfold leading_digits in Hh.
      assert (Hk : digit_bits (Z.of_nat (List.length ip)) <= digit_bits D).
      { apply digit_bits_mono. unfold leading_digits in Hl. lia. }
      assert (K : 3 * digit_bits D <= 10 * D + 2)
        by (unfold digit_bits; apply Z.mul_div_le; lia).
      pose proof (parseFloat_digits_bounded ip fp Hshape Hne ltac:(lia)) as PB.
      assert (Hnn : is_nan (parseFloat (ip ++ fp)) = false)
        by (destruct (parseFloat (ip ++ fp)); try contradiction; reflexivity).
      rewrite Hnn. cbn [negb]. apply (bounded_by_le _ _ _ PB). lia.
    + apply (bounded_by_le 1); [exact one_bounded|lia].
  - assert (Hbr : forall dc ds,
              nai_reach (NovelAI.curlyDepth (NovelAI.flush st) + dc)
                        (NovelAI.squareDepth (NovelAI.flush st) + ds) tl <= B ->
              nai_bounded_inv D B (NovelAI.bracket dc ds st) tl).
    { intros dc ds Hds. split; [exact Hs|]. split; [exact Hb|].
      cbn [NovelAI.bracket NovelAI.curlyDepth NovelAI.squareDepth].
      split; [exact Hds|]. split; lia. }
    destruct (c =? 123)%N;
      [apply Hbr; rewrite Z.add_0_r; lia|].
    destruct (c =? 125)%N;
      [apply Hbr; rewrite Z.add_0_r;
       change (NovelAI.curlyDepth (NovelAI.flush st) + -1)
         with (NovelAI.curlyDepth (NovelAI.flush st) - 1); lia|].
    destruct (c =? 91)%N;
      [apply Hbr; rewrite Z.add_0_r; lia|].
    destruct (c =? 93)%N;
      [apply Hbr; rewrite Z.add_0_r;
       change (NovelAI.squareDepth (NovelAI.flush st) + -1)
         with (NovelAI.squareDepth (NovelAI.flush st) - 1); lia|].
    destruct (c =? 44)%N; cbn [fst snd].
    + split; [exact Hs|]. split; [exact Hb|]. split; [lia|]. split; lia.
    + destruct H as (Hs0 & Hb1 & Hd1 & Hdep1 & Hr1).
      split; [exact Hs0|]. split; [exact Hb1|].
      cbn [NovelAI.append NovelAI.curlyDepth NovelAI.squareDepth].
      rewrite <- Ec, <- Eq. split; [lia|]. split; lia.
Qed.

Lemma parseNovelAI_bounded_finite r text :
  10 * nai_number_digits text + 3 * nai_depth text <= 3000 ->
  Forall finite_weight (fst (NovelAI.parseNovelAI r text)).
Proof.
  intros Hl. unfold NovelAI.parseNovelAI.
  destruct (negb (JsString.truthy text)); [constructor|].
  destruct (NovelAI.scan _ _ text) as [st|] eqn:E; [|constructor].
  set (D := nai_number_digits text) in *.
  set (B := nai_depth text) in *.
  assert (HD : 0 <= D) by apply over_suffixes_nonneg.
  assert (H0 : nai_bounded_inv D B (NovelAI.init r) text).
  { split; [constructor|]. split; [|split; [|split]].
    - apply (bounded_by_le 1); [exact one_bounded|].
      pose proof (digit_bits_nonneg D HD). lia.
    - apply (over_suffixes_head (nai_reach 0 0)).
    - reflexivity.
    - reflexivity. }
  pose proof (nai_scan_rest_inv (nai_bounded_inv D B)
                (fun st c tl => nai_step_bounded D B st c tl HD Hl)
                _ _ _ _ H0 E) as H.
  apply (nai_flush_bounded D B st [] HD Hl) in H. exact (proj1 H).
Qed.

Lemma pix_ambientWeight_bounded st :
  0 <= PixAI.parenDepth st <= 1000 -> 0 <= PixAI.squareDepth st ->
  is_finite (roundWeight (PixAI.ambientWeight st)) = true.
Proof.
  intros Hp Hs. unfold PixAI.ambientWeight.
  destruct (raise_pow_bounded (PixAI.parenDepth st)) as (Pc & _).
  destruct (Pc ltac:(lia)) as (_ & Pc1).
  destruct (raise_pow_bounded (PixAI.squareDepth st)) as (_ & _ & Ps).
  specialize (Ps Hs).
  pose proof (mul_bounded _ _ _ _ one_bounded Pc1 ltac:(lia)) as M1.
  pose proof (mul_bounded _ _ _ _ M1 Ps ltac:(lia)) as M2.
  eapply bounded_by_finite. apply (roundWeight_bounded _ _ M2). lia.
Qed.

Lemma pix_flush_bounded D B st rest :
  0 <= D -> 10 * D + 3 * B <= 3000 ->
  pix_bounded_inv D B st rest -> pix_bounded_inv D B (PixAI.flush None st) rest.
Proof.
  intros HD HB (Hs & Hp & Hq & Hb & Hr).
  pose proof (pix_flush_depths None st) as (Ep & Eq).
  split; [|rewrite Ep, Eq; auto].
  unfold PixAI.flush. destruct (JsString.truthy _); [|exact Hs].
  destruct (generateId _) as [i r]. cbn [PixAI.segments].
  apply Forall_app. split; [exact Hs|]. constructor; [|constructor].
  eexists. split; [reflexivity|].
  pose proof (pix_reach_depth (PixAI.parenDepth st) rest).
  apply pix_ambientWeight_bounded; lia.
Qed.

Lemma pix_step_bounded D B st c tl :
  0 <= D -> 10 * D + 3 * B <= 3000 ->
  pix_bounded_inv D B st (c :: tl) ->
  pix_bounded_inv D B (fst (PixAI.step st c tl)) (snd (PixAI.step st c tl)).
Proof.
  intros HD HB H.
  pose proof (pix_flush_bounded D B st (c :: tl) HD HB H) as HF.
  pose proof (pix_flush_depths None st) as (Ep & Eq).
  destruct HF as (Hs & Hp & Hq & Hb & Hr).
  pose proof (over_suffixes_cons pix_literal_digits c tl) as Rtl.
  fold pix_number_digits in Rtl.
  assert (HB0 : 0 <= B).
  { pose proof (pix_reach_depth (PixAI.parenDepth (PixAI.flush None st))
                  (c :: tl)). lia. }
  destruct (c =? 92)%N eqn:E92.
  - (* a backslash *)
    apply N.eqb_eq in E92. subst c. unfold PixAI.step.
    change ((92 =? 92)%N) with true.
    destruct H as (Hs0 & Hp0 & Hq0 & Hb0 & Hr0).
    cbn [pix_reach] in Hb0. change ((92 =? 92)%N) with true in Hb0.
    destruct tl as [|d tl'].
    + change ((92 =? 40)%N) with false. cbn [fst snd]. unfold PixAI.plain.
      change ((92 =? 40)%N) with false. change ((92 =? 41)%N) with false.
      change ((92 =? 91)%N) with false. change ((92 =? 93)%N) with false.
      change ((92 =? 44)%N) with false. cbv iota.
      split; [exact Hs0|].
      cbn [PixAI.append PixAI.parenDepth PixAI.squareDepth pix_reach].
      repeat split; lia.
    + cbn [fst snd].
      pose proof (over_suffixes_cons pix_literal_digits d tl') as Rtl'.
      fold pix_number_digits in Rtl'.
      split; [exact Hs0|].
      cbn [PixAI.append PixAI.parenDepth PixAI.squareDepth].
      repeat split; lia.
  - assert (Hplain : pix_bounded_inv D B (PixAI.plain st c) tl).
    { unfold PixAI.plain. cbn [pix_reach] in Hb. rewrite E92 in Hb.
      destruct (c =? 40)%N;
        [split; [exact Hs|];
         cbn [PixAI.setDepths PixAI.parenDepth PixAI.squareDepth];
         repeat split; lia|].
      destruct (c =? 41)%N;
        [split; [exact Hs|];
         cbn [PixAI.setDepths PixAI.parenDepth PixAI.squareDepth];
         repeat split; lia|].
      destruct (c =? 91)%N;
        [split; [exact Hs|];
         cbn [PixAI.setDepths PixAI.parenDepth PixAI.squareDepth];
         repeat split; lia|].
      destruct (c =? 93)%N;
        [split; [exact Hs|];
         cbn [PixAI.setDepths PixAI.parenDepth PixAI.squareDepth];
         repeat split; lia|].
      destruct (c =? 44)%N.
      - split; [exact Hs|]. repeat split; lia.
      - destruct H as (Hs0 & Hp0 & Hq0 & Hb0 & Hr0).
        split; [exact Hs0|].
        cbn [PixAI.append PixAI.parenDepth PixAI.squareDepth].
        rewrite <- Ep. repeat split; lia. }
    unfold PixAI.step. rewrite E92.
    replace (match tl with
             | [] | _ =>
                 match (if (c =? 40)%N then explicitWeightRegex (c :: tl)
                        else None) with
                 | Some (content, numStr, len) =>
                     (PixAI.explicitWeight content numStr
                        (firstn len (c :: tl)) st, skipn len (c :: tl))
                 | None => (PixAI.plain st c, tl)
                 end
             end)
      with (match (if (c =? 40)%N then explicitWeightRegex (c :: tl)
                   else None) with
            | Some (content, numStr, len) =>
                (PixAI.explicitWeight content numStr
                   (firstn len (c :: tl)) st, skipn len (c :: tl))
            | None => (PixAI.plain st c, tl)
            end) by (destruct tl; reflexivity).
    destruct (c =? 40)%N; [|exact Hplain].
    destruct (explicitWeightRegex (c :: tl)) as [[[bd ns] len]|] eqn:E;
      [|exact Hplain].
    cbn [fst snd].
    pose proof (over_suffixes_skipn pix_literal_digits len (c :: tl)) as Rs.
    fold pix_number_digits in Rs.
    pose proof (pix_reach_token _ _ _ _ (PixAI.parenDepth (PixAI.flush None st))
                  E Hp) as Ts.
    pose proof (over_suffixes_head pix_literal_digits (c :: tl)) as Hh.
    fold pix_number_digits in Hh. unfold pix_literal_digits in Hh.
    rewrite E in Hh.
    destruct (explicitWeightRegex_text _ _ _ _ E)
      as (ip & fp & r & _ & _ & -> & Hshape & Hne & _).
    rewrite (leading_digits_number ip fp Hshape) in Hh.
    assert (Hne' : ip ++ fp <> []) by (destruct ip; [congruence|discriminate]).
    assert (Hk : digit_bits (Z.of_nat (List.length ip)) <= digit_bits D)
      by (apply digit_bits_mono; lia).
    assert (K : 3 * digit_bits D <= 10 * D + 2)
      by (unfold digit_bits; apply Z.mul_div_le; lia).
    pose proof (parseFloat_digits_bounded ip fp Hshape Hne' ltac:(lia)) as PB.
    unfold PixAI.explicitWeight. destruct (generateId _) as [i r0].
    split; [|cbn [PixAI.parenDepth PixAI.squareDepth]; repeat split; lia].
    cbn [PixAI.segments]. apply Forall_app. split; [exact Hs|].
    constructor; [|constructor].
    eexists. split; [reflexivity|]. exact (bounded_by_finite _ _ PB).
Qed.

Lemma parsePixAI_bounded_finite r text :
  10 * pix_number_digits text + 3 * pix_depth text <= 3000 ->
  Forall finite_weight (fst (PixAI.parsePixAI r text)).
Proof.
  intros Hl. unfold PixAI.parsePixAI.
  destruct (negb (JsString.truthy text)); [constructor|].
  destruct (PixAI.scan _ _ text) as [st|] eqn:E; [|constructor].
  set (D := pix_number_digits text) in *.
  set (B := pix_depth text) in *.
  assert (HD : 0 <= D) by apply over_suffixes_nonneg.
  assert (H0 : pix_bounded_inv D B (PixAI.init r) text).
  { split; [constructor|]. cbn [PixAI.init PixAI.parenDepth PixAI.squareDepth].
    repeat split; try lia; reflexivity. }
  pose proof (pix_scan_rest_inv (pix_bounded_inv D B)
                (fun st c tl => pix_step_bounded D B st c tl HD Hl)
                _ _ _ _ H0 E) as H.
  apply (pix_flush_bounded D B st [] HD Hl) in H. exact (proj1 H).
Qed.

(** C3, counterexample. A weight token of 310 digits is scanned to a
    segment of weight +Infinity, by [parseNovelAI] and by [parsePixAI]. *)
Lemma long_literal_overflows :
  map seg_weight
    (fst (NovelAI.parseNovelAI sample_rng (nines 310 ++ js "::tag")))
  = [Some (S754_infinity false)]
  /\ map seg_weight
       (fst (PixAI.parsePixAI sample_rng (js "(tag:" ++ nines 310 ++ js ")")))
     = [Some (S754_infinity false)]
  /\ is_finite (S754_infinity false) = false.
Proof. vm_compute. repeat split. Qed.

(** C3, amended. The number a weight token captures always parses: it is
    never NaN. Where every number of a weight token has at most [d] digits
    before its point and the brackets that raise a weight are nested at
    most [b] deep, with [10 d + 3 b <= 3000] -- numbers of up to 300
    digits, or a nesting of up to 1000, whatever the length of the text --
    every segment of [parseNovelAI], and likewise of [parsePixAI], has a
    weight that is finite and not NaN. *)
Theorem bounded_tokens_finite_weights r text :
  (10 * nai_number_digits text + 3 * nai_depth text <= 3000 ->
   Forall finite_weight (fst (NovelAI.parseNovelAI r text)))
  /\ (10 * pix_number_digits text + 3 * pix_depth text <= 3000 ->
      Forall finite_weight (fst (PixAI.parsePixAI r text)))
  /\ (forall s ns len,
        weightControlRegex s = Some (Some ns, len) ->
        is_nan (parseFloat ns) = false)
  /\ (forall s content ns len,
        explicitWeightRegex s = Some (content, ns, len) ->
        is_nan (parseFloat ns) = false).
Proof.
  repeat apply conj.
  - apply parseNovelAI_bounded_finite.
  - apply parsePixAI_bounded_finite.
  - intros s ns len E. apply weightControlRegex_shape in E.
    destruct E as (_ & _ & Hne & ip & fp & -> & Hs).
    now apply captured_number_parses.
  - intros s content ns len E. apply explicitWeightRegex_shape in E.
    destruct E as (Hne & _ & ip & fp & -> & Hs).
    now apply captured_number_parses.
Qed.

Lemma bounded_tokens_finite_weights_witness :
  let text :=
    nines 298 ++ js "::good, {{cat}}, (tag:1.5), \(x\), "
    ++ List.concat (repeat (js "{a},") 400) ++ nines 400 in
  10 * nai_number_digits text + 3 * nai_depth text <= 3000
  /\ 10 * pix_number_digits text + 3 * pix_depth text <= 3000
  /\ (2000 < List.length text)%nat
  /\ Forall finite_weight (fst (NovelAI.parseNovelAI sample_rng text))
  /\ Forall finite_weight (fst (PixAI.parsePixAI sample_rng text)).
Proof.
  cbv zeta.
  set (text := nines 298 ++ js "::good, {{cat}}, (tag:1.5), \(x\), "
               ++ List.concat (repeat (js "{a},") 400) ++ nines 400).
  assert (A : 10 * nai_number_digits text + 3 * nai_depth text <= 3000)
    by (vm_compute; discriminate).
  assert (B : 10 * pix_number_digits text + 3 * pix_depth text <= 3000)
    by (vm_compute; discriminate).
  destruct (bounded_tokens_finite_weights sample_rng text) as (F & G & _).
  repeat split; [exact A|exact B|vm_compute; lia|exact (F A)|exact (G B)].
Defined.

(** *** C4: the emphasis formula *)



(** *** C5: the explicit weight *)

(** C5. On an explicit weight token [parsePixAI] first flushes the buffer
    at the weight derived from the ambient depths, then emits a segment
    whose weight is the number written in the token, whatever the depths,
    and moves past the token; [((tag:1.5))] yields the weight 1.5, which
    is not 1.5 times 1.1 squared; a token behind [n] opening and in front
    of [n] closing parentheses yields one segment, of the weight written
    in it. *)
Theorem explicit_weight_bypasses_depth :
  (forall st tl,
     match explicitWeightRegex (40%N :: tl) with
     | Some (content, numStr, len) =>
         let st1 := PixAI.flush None st in
         let st' := fst (PixAI.step st 40%N tl) in
         PixAI.segments st' =
           PixAI.segments st1 ++
           [{| seg_id := fst (generateId (PixAI.rng st1));
               seg_type := TWeight;
               seg_raw := firstn len (40%N :: tl);
               seg_content := Some (unescapePixAI (trim content));
               seg_weight := Some (parseFloat numStr) |}]
         /\ PixAI.parenDepth st' = PixAI.parenDepth st
         /\ PixAI.squareDepth st' = PixAI.squareDepth st
         /\ snd (PixAI.step st 40%N tl) = skipn len (40%N :: tl)
     | None => True
     end)
  /\ (forall st,
        PixAI.segments (PixAI.flush None st) =
        let trimmed := trim (PixAI.buffer st) in
        let w :=
          roundWeight
            (mul (mul one (Math_pow (lit "1.1") (PixAI.parenDepth st)))
                 (Math_pow (lit "0.9") (PixAI.squareDepth st))) in
        if JsString.truthy trimmed then
          PixAI.segments st ++
          [{| seg_id := fst (generateId (PixAI.rng st));
              seg_type := if strict_eq w one then TText else TWeight;
              seg_raw := trimmed;
              seg_content := Some (unescapePixAI trimmed);
              seg_weight := Some w |}]
        else PixAI.segments st)
  /\ (forall r, map erase_id (fst (PixAI.parsePixAI r (js "((tag:1.5))")))
                = [erased TWeight "(tag:1.5)" "tag" (lit "1.5")])
  /\ lit "1.5" <> mul (lit "1.5") (Math_pow (lit "1.1") 2)
  /\ (forall r n content num,
        token_safe content = true -> (0 < List.length content)%nat ->
        decimal_lit num = true ->
        map seg_weight
          (fst (PixAI.parsePixAI r
                  (repeat 40%N n ++ 40%N :: escapePixAI content ++ 58%N :: num
                     ++ 41%N :: repeat 41%N n)))
        = [Some (parseFloat num)]).
Proof.
  repeat apply conj.
  - intros st tl. rewrite pix_step_paren.
    destruct (explicitWeightRegex (40%N :: tl)) as [[[content numStr] len]|];
      [|exact I].
    cbv zeta. unfold PixAI.explicitWeight. cbn [fst snd].
    pose proof (pix_flush_depths None st) as [Hp Hs].
    set (st1 := PixAI.flush None st) in *.
    destruct (generateId (PixAI.rng st1)) as [i r].
    cbn. auto.
  - intros st. unfold PixAI.flush, PixAI.ambientWeight. cbv zeta.
    destruct (JsString.truthy _); [|reflexivity].
    destruct (generateId _); reflexivity.
  - intros r. eval_pix r.
  - vm_compute. discriminate.
  - intros r n content num Hs Hn Hd. apply nested_token_weight; trivial.
    intros ->. simpl in Hn. lia.
Qed.

Lemma explicit_weight_bypasses_depth_witness :
  map seg_weight (fst (PixAI.parsePixAI sample_rng (js "(((tag:1.5)))")))
  = [Some (parseFloat (js "1.5"))].
Proof.
  apply (proj2 (proj2 (proj2 (proj2 explicit_weight_bypasses_depth)))
           sample_rng 2%nat (js "tag") (js "1.5"));
    [reflexivity | simpl; lia | reflexivity].
Defined.

(** *** C6: the reset of the depths *)

(** C6. In [parseNovelAI] a weight control token flushes the buffer and
    sets both depths to zero; a closing bracket lowers its depth by one
    with no floor; [2::tag}}] is scanned to the end and leaves the curly
    depth at -2. *)
Theorem weight_token_resets_depth :
  (forall st c tl,
     match weightControlRegex (c :: tl) with
     | Some (numStr, len) =>
         let st' := fst (NovelAI.step st c tl) in
         NovelAI.segments st' = NovelAI.segments (NovelAI.flush st)
         /\ NovelAI.curlyDepth st' = 0 /\ NovelAI.squareDepth st' = 0
         /\ NovelAI.buffer st' = []
         /\ snd (NovelAI.step st c tl) = skipn len (c :: tl)
     | None => True
     end)
  /\ (forall st tl,
        let st' := fst (NovelAI.step st 125%N tl) in
        NovelAI.segments st' = NovelAI.segments (NovelAI.flush st)
        /\ NovelAI.curlyDepth st' = NovelAI.curlyDepth st - 1
        /\ NovelAI.squareDepth st' = NovelAI.squareDepth st
        /\ snd (NovelAI.step st 125%N tl) = tl)
  /\ (forall st tl,
        let st' := fst (NovelAI.step st 93%N tl) in
        NovelAI.segments st' = NovelAI.segments (NovelAI.flush st)
        /\ NovelAI.curlyDepth st' = NovelAI.curlyDepth st
        /\ NovelAI.squareDepth st' = NovelAI.squareDepth st - 1
        /\ snd (NovelAI.step st 93%N tl) = tl)
  /\ (forall r, exists st,
        NovelAI.scan 8 (NovelAI.init r) (js "2::tag}}") = Some st
        /\ NovelAI.curlyDepth st = -2 /\ NovelAI.squareDepth st = 0
        /\ map erase_id (fst (NovelAI.parseNovelAI r (js "2::tag}}")))
           = [erased TWeight "tag" "tag" (lit "2")])
  /\ (forall r, map erase_id (fst (NovelAI.parseNovelAI r (js "2::tag}}x")))
                = [erased TWeight "tag" "tag" (lit "2");
                   erased TWeight "x" "x" (lit "1.81")]).
Proof.
  repeat apply conj.
  - intros st c tl. unfold NovelAI.step.
    destruct (weightControlRegex (c :: tl)) as [[numStr len]|]; [|exact I].
    cbn. pose proof (nai_flush_fields st) as (_ & _ & _ & Hb). auto.
  - intros st tl. destruct (nai_step_bracket st tl) as (_ & -> & _).
    pose proof (nai_flush_fields st) as (Hc & Hs & _). cbn.
    rewrite Hc, Hs. repeat split; lia.
  - intros st tl. destruct (nai_step_bracket st tl) as (_ & _ & _ & ->).
    pose proof (nai_flush_fields st) as (Hc & Hs & _). cbn.
    rewrite Hc, Hs. repeat split; lia.
  - intros r.
    assert (Hi : nai_sim (NovelAI.init r) (NovelAI.init sample_rng))
      by (unfold nai_sim; simpl; auto).
    pose proof (nai_scan_sim 8 _ _ (js "2::tag}}") Hi) as H.
    destruct (NovelAI.scan 8 (NovelAI.init r) (js "2::tag}}")) as [a|] eqn:Ea;
    remember (NovelAI.scan 8 (NovelAI.init sample_rng) (js "2::tag}}")) as o eqn:Eo;
    vm_compute in Eo; subst o; try contradiction.
    destruct H as (_ & Hc & Hs & _). exists a. repeat split; auto; eval_nai r.
  - intros r. eval_nai r.
Qed.

(** *** C7: the round trip through Format B *)

Lemma override_form_cases s :
  override_form s = true ->
  exists content w,
    seg_content s = Some content /\ seg_weight s = Some w
    /\ has_content s = true
    /\ negb (forallb is_space content) = true
    /\ ((w = one /\ plain_text (escapePixAI content) = true
         /\ renderPixAI s = escapePixAI content)
        \/ (token_text (escapePixAI content) = true
            /\ escapePixAI content <> []
            /\ decimal_lit (toString w) = true
            /\ parseFloat (toString w) = w
            /\ renderPixAI s =
               40%N :: escapePixAI content ++ 58%N :: toString w ++ [41%N])).
Proof.
  unfold override_form. destruct (seg_content s) as [content|] eqn:Hc;
    [|discriminate].
  destruct (seg_weight s) as [w|] eqn:Hw; [|discriminate].
  intros H. apply andb_prop in H as [H Hsafe]. apply andb_prop in H as [Ht Ho].
  unfold override_weight in Ho. apply andb_prop in Ho as [Htru Ho].
  exists content, w. repeat (split; [reflexivity|]).
  assert (Hne : content <> []) by (intros ->; discriminate).
  split; [|split].
  - unfold has_content. rewrite Hc. destruct content; [congruence|].
    cbn [JsString.truthy andb]. destruct (trim (c :: content));
      [discriminate|reflexivity].
  - now rewrite <- truthy_trim.
  - unfold renderPixAI. rewrite Hw, Hc. unfold weight_or_one. rewrite Htru.
    apply orb_prop in Ho as [Ho|Ho].
    + left. apply number_eqb_eq in Ho. subst w.
      change (strict_eq one one) with true in *. repeat split; auto.
    + right. apply andb_prop in Ho as [Hne1 Hrb].
      apply negb_true_iff in Hne1. rewrite Hne1 in *.
      unfold reads_back in Hrb. apply andb_prop in Hrb as [Hdl Hpf].
      apply number_eqb_eq in Hpf. repeat split; auto.
      destruct content as [|c0 content]; [congruence|]. simpl.
      destruct (_ || _); discriminate.
Qed.

Lemma override_form_run segs :
  forallb override_form segs = true ->
  forall st, pix_idle st ->
  exists st',
    pix_run st (join (js ", ") (map renderPixAI segs)) = Some st'
    /\ map seg_weight (PixAI.segments (PixAI.flush None st'))
       = map seg_weight (PixAI.segments st) ++ map seg_weight segs.
Proof.
  induction segs as [|s l IH]; intros H st Hi.
  - exists st. split; [reflexivity|]. rewrite (pix_flush_idle st Hi). simpl.
    now rewrite app_nil_r.
  - cbn [forallb] in H. apply andb_prop in H as [Hs Hl].
    specialize (IH Hl).
    destruct (override_form_cases s Hs)
      as (content & w & Hc & Hw & Hhas & Hnb & [(-> & Hsafe & Hr)
         | (Hsafe & Hne & Hdl & Hpf & Hr)]).
    + (* a plain tag *)
      assert (Hb : JsString.truthy
                 (trim (PixAI.buffer (PixAI.append (escapePixAI content) st)))
               = true).
      { rewrite truthy_trim. cbn [PixAI.buffer PixAI.append].
        rewrite forallb_app, escapePixAI_blank.
        apply negb_true_iff in Hnb. rewrite Hnb. now rewrite andb_false_r. }
      destruct Hi as (_ & Hp & Hq).
      destruct (pix_flush_plain (PixAI.append (escapePixAI content) st) Hb Hp Hq)
        as (seg & r & Hf & Hsw).
      cbn [map]. rewrite Hw.
      destruct l as [|s2 l2].
      * cbn [map join]. rewrite Hr, <- (app_nil_r (escapePixAI content)).
        eexists. split;
          [rewrite (pix_run_plain_text _ Hsafe st []); apply pix_run_nil|].
        rewrite Hf.
        cbn [PixAI.segments PixAI.append]. rewrite map_app. cbn. now rewrite Hsw.
      * cbn [map]. rewrite join_cons2.
        rewrite Hr, (pix_run_plain_text _ Hsafe st _), pix_run_separator, Hf.
        destruct (IH _ (pix_idle_after_separator
                          (PixAI.segments (PixAI.append (escapePixAI content) st) ++ [seg]) r))
          as (st' & Hrun & Hws).
        exists st'. split; [exact Hrun|]. rewrite Hws.
        cbn [PixAI.segments PixAI.append]. rewrite map_app. cbn [map].
        rewrite Hsw, <- app_assoc. reflexivity.
    + (* an explicit weight token *)
      cbn [map]. rewrite Hw.
      destruct l as [|s2 l2].
      * cbn [map join]. rewrite Hr.
        destruct (pix_run_token_text _ (toString w) [] st Hsafe Hne Hdl Hi)
          as (st2 & Hrun & Hi2 & Hws).
        rewrite Hrun, pix_run_nil. eexists. split; [reflexivity|].
        rewrite (pix_flush_idle st2 Hi2). cbn [PixAI.segments].
        now rewrite Hws, Hpf.
      * cbn [map]. rewrite join_cons2.
        rewrite Hr, token_text_app.
        set (tl := js ", " ++ join (js ", ") (renderPixAI s2 :: map renderPixAI l2)).
        destruct (pix_run_token_text _ (toString w) tl st Hsafe Hne Hdl Hi)
          as (st2 & Hrun & Hi2 & Hws).
        rewrite Hrun. unfold tl. rewrite pix_run_separator.
        rewrite (pix_flush_idle st2 Hi2).
        destruct (IH _ (pix_idle_after_separator (PixAI.segments st2) (PixAI.rng st2)))
          as (st' & Hrun' & Hws').
        exists st'. split; [exact Hrun'|]. rewrite Hws'.
        cbn [PixAI.segments PixAI.append]. rewrite Hws, Hpf, <- app_assoc.
        reflexivity.
Qed.

Lemma override_form_filter segs :
  forallb override_form segs = true -> filter has_content segs = segs.
Proof.
  induction segs as [|s l IH]; [reflexivity|]. cbn [forallb filter].
  intros H. apply andb_prop in H as [Hs Hl].
  destruct (override_form_cases s Hs) as (? & ? & _ & _ & -> & _).
  now rewrite (IH Hl).
Qed.

(** C7, counterexample. The segment that [parseNovelAI] scans from
    [1.5::a:b::] has the weight 1.5; its rendering [(a:b:1.5)] scans back
    with the weight 1.1. *)
Lemma colon_breaks_roundtrip :
  let segs := fst (NovelAI.parseNovelAI sample_rng (js "1.5::a:b::")) in
  map seg_weight segs = [Some (lit "1.5")]
  /\ segmentsToPixAI segs = js "(a:b:1.5)"
  /\ map seg_weight (fst (PixAI.parsePixAI sample_rng (segmentsToPixAI segs)))
     = [Some (lit "1.1")]
  /\ SFltb (lit "0.01") (SFsub prec emax (lit "1.5") (lit "1.1")) = true.
Proof. vm_compute. repeat split. Qed.

(** A weight that Number-to-string prints with an exponent is not in the
    override form: the segment of weight 1e21 is rendered as
    [(tag:1e+21)], which the explicit weight pattern does not match, and
    scans back with the weight 1.1 of one parenthesis. *)
Lemma exponent_weight_not_read_back :
  let seg :=
    {| seg_id := []; seg_type := TWeight; seg_raw := js "tag";
       seg_content := Some (js "tag"); seg_weight := Some (lit "1e21") |} in
  override_form seg = false
  /\ segmentsToPixAI [seg] = js "(tag:1e+21)"
  /\ map seg_weight (fst (PixAI.parsePixAI sample_rng (segmentsToPixAI [seg])))
     = [Some (lit "1.1")].
Proof. vm_compute. repeat split. Qed.

(** C7, amended. For a list of segments in the override form -- a content
    that is not blank and, once escaped, scans as one tag, and a weight
    that is 1 or reads back from its string -- [parsePixAI] on the text of
    [segmentsToPixAI] yields as many segments, with the same weights.
    Every weight from 0.01 to 99.99 in steps of 0.01 is in that form. *)
Theorem override_form_weights_roundtrip :
  (forall segs r,
     forallb override_form segs = true ->
     map seg_weight (fst (PixAI.parsePixAI r (segmentsToPixAI segs)))
     = map seg_weight segs)
  /\ (forall c, 1 <= c <= 9999 -> override_weight (centi c) = true).
Proof.
  split.
  - intros segs r H. unfold segmentsToPixAI.
    rewrite (override_form_filter segs H), parsePixAI_run.
    assert (Hi : pix_idle (PixAI.init r)) by (repeat split).
    destruct (override_form_run segs H (PixAI.init r) Hi) as (st' & -> & Hw).
    exact Hw.
  - intros c Hc. pose proof (centi_ok_range c Hc) as Hok.
    unfold centi_ok in Hok. cbv zeta in Hok.
    apply andb_prop in Hok as [Htru Hok].
    unfold override_weight, reads_back. rewrite Htru. cbn [andb].
    destruct (c =? 100).
    + now rewrite Hok.
    + apply andb_prop in Hok as [Hok Hpf].
      apply andb_prop in Hok as [Hne1 Hdl]. rewrite Hne1, Hdl, Hpf.
      now rewrite orb_true_r.
Qed.

Lemma override_form_weights_roundtrip_witness :
  let segs :=
    [{| seg_id := []; seg_type := TWeight; seg_raw := js "a (b) c";
        seg_content := Some (js "a (b) c"); seg_weight := Some (centi 130) |};
     {| seg_id := []; seg_type := TText; seg_raw := js "tag";
        seg_content := Some (js "tag"); seg_weight := Some (centi 100) |};
     {| seg_id := []; seg_type := TWeight; seg_raw := js "a\b";
        seg_content := Some (js "a\b"); seg_weight := Some (lit "1000.5") |};
     {| seg_id := []; seg_type := TWeight; seg_raw := js "x";
        seg_content := Some (js "x"); seg_weight := Some (lit "123.45") |};
     {| seg_id := []; seg_type := TWeight; seg_raw := js "y";
        seg_content := Some (js "y"); seg_weight := Some (lit "100") |}] in
  forallb override_form segs = true
  /\ map seg_weight (fst (PixAI.parsePixAI sample_rng (segmentsToPixAI segs)))
     = map seg_weight segs
  /\ 1 <= 130 <= 9999 /\ override_weight (centi 130) = true.
Proof.
  cbv zeta.
  assert (H : forallb override_form
    [{| seg_id := []; seg_type := TWeight; seg_raw := js "a (b) c";
        seg_content := Some (js "a (b) c"); seg_weight := Some (centi 130) |};
     {| seg_id := []; seg_type := TText; seg_raw := js "tag";
        seg_content := Some (js "tag"); seg_weight := Some (centi 100) |};
     {| seg_id := []; seg_type := TWeight; seg_raw := js "a\b";
        seg_content := Some (js "a\b"); seg_weight := Some (lit "1000.5") |};
     {| seg_id := []; seg_type := TWeight; seg_raw := js "x";
        seg_content := Some (js "x"); seg_weight := Some (lit "123.45") |};
     {| seg_id := []; seg_type := TWeight; seg_raw := js "y";
        seg_content := Some (js "y"); seg_weight := Some (lit "100") |}] = true)
    by (vm_compute; reflexivity).
  assert (R : 1 <= 130 <= 9999) by lia.
  split; [exact H|]. split; [|split; [exact R|]].
  - exact (proj1 override_form_weights_roundtrip _ sample_rng H).
  - exact (proj2 override_form_weights_roundtrip 130 R).
Defined.

(** *** C8: contents of the segments *)

Lemma nai_flush_nonblank st :
  Forall nonblank_content (NovelAI.segments st) ->
  Forall nonblank_content (NovelAI.segments (NovelAI.flush st)).
Proof.
  intros Hs. unfold NovelAI.flush.
  destruct (JsString.truthy (trim (NovelAI.buffer st))) eqn:E; [|exact Hs].
  destruct (generateId _) as [i r]. cbn [NovelAI.segments].
  apply Forall_app. split; [exact Hs|]. constructor; [|constructor].
  eexists. split; [reflexivity|]. now apply trim_trim_truthy.
Qed.

Lemma parseNovelAI_nonblank r text :
  Forall nonblank_content (fst (NovelAI.parseNovelAI r text)).
Proof.
  unfold NovelAI.parseNovelAI.
  destruct (negb (JsString.truthy text)); [constructor|].
  destruct (NovelAI.scan _ _ text) as [st|] eqn:E; [|constructor].
  apply nai_flush_nonblank.
  refine (nai_scan_inv (fun st => Forall nonblank_content (NovelAI.segments st))
            _ _ (NovelAI.init r) text st (Forall_nil _) E).
  intros s c tl H. pose proof (nai_flush_nonblank s H) as HF.
  unfold NovelAI.step. cbv zeta.
  destruct (weightControlRegex (c :: tl)) as [[o len]|]; [exact HF|].
  repeat match goal with |- context [if ?x then _ else _] => destruct x end;
    solve [exact HF | exact H].
Qed.

Lemma pix_flush_nonblank st :
  Forall (fun s => nonblank_content s \/ override_segment s) (PixAI.segments st) ->
  Forall (fun s => nonblank_content s \/ override_segment s)
         (PixAI.segments (PixAI.flush None st)).
Proof.
  intros Hs. unfold PixAI.flush.
  destruct (JsString.truthy (trim (PixAI.buffer st))) eqn:E; [|exact Hs].
  destruct (generateId _) as [i r]. cbn [PixAI.segments].
  apply Forall_app. split; [exact Hs|]. constructor; [|constructor].
  left. eexists. split; [reflexivity|].
  apply trim_trim_truthy in E. rewrite truthy_trim in *.
  apply negb_true_iff in E. apply negb_true_iff.
  destruct (forallb is_space (unescapePixAI _)) eqn:U; auto.
  apply (unescapePixAI_blank _ _ (le_n _)) in U. congruence.
Qed.

Lemma parsePixAI_nonblank r text :
  Forall (fun s => nonblank_content s \/ override_segment s)
         (fst (PixAI.parsePixAI r text)).
Proof.
  unfold PixAI.parsePixAI.
  destruct (negb (JsString.truthy text)); [constructor|].
  destruct (PixAI.scan _ _ text) as [st|] eqn:E; [|constructor].
  apply pix_flush_nonblank.
  refine (pix_scan_inv
            (fun st => Forall (fun s => nonblank_content s \/ override_segment s)
                              (PixAI.segments st))
            _ _ (PixAI.init r) text st (Forall_nil _) E).
  intros s c tl H. pose proof (pix_flush_nonblank s H) as HF.
  assert (HP : Forall (fun s => nonblank_content s \/ override_segment s)
                 (PixAI.segments (PixAI.plain s c))).
  { unfold PixAI.plain.
    repeat match goal with |- context [if ?x then _ else _] => destruct x end;
      solve [exact HF | exact H]. }
  unfold PixAI.step. destruct (c =? 92)%N; [destruct tl as [|d tl']|];
    try exact H;
    destruct (c =? 40)%N eqn:E40; try exact HP;
    apply N.eqb_eq in E40; subst c;
    match goal with |- context [explicitWeightRegex ?t] =>
      destruct (explicitWeightRegex t) as [[[bd ns] len]|] eqn:ER end;
    try exact HP;
    cbn [fst]; unfold PixAI.explicitWeight;
    destruct (generateId _) as [i r']; cbn [PixAI.segments];
    (apply Forall_app; split; [exact HF|]);
    (constructor; [|constructor]); right;
    apply explicitWeightRegex_length in ER; destruct ER as [k ->];
    eexists; reflexivity.
Qed.

(** C8, at the failing input. The explicit weight path of [parsePixAI]
    emits a segment whose content is empty for the text [( :1.5)]. Every
    segment that a flush emits has a content that is not blank; so has
    every segment of [parseNovelAI]. *)
Theorem override_content_can_be_empty r :
  map erase_id (fst (PixAI.parsePixAI r (js "( :1.5)")))
  = [erased TWeight "( :1.5)" "" (lit "1.5")]
  /\ trim (js "") = []
  /\ (forall r' text,
        Forall nonblank_content (fst (NovelAI.parseNovelAI r' text)))
  /\ (forall r' text,
        Forall (fun s => nonblank_content s \/ override_segment s)
               (fst (PixAI.parsePixAI r' text))).
Proof.
  repeat apply conj; [eval_pix r | reflexivity | |].
  - intros. apply parseNovelAI_nonblank.
  - intros. apply parsePixAI_nonblank.
Qed.

(** *** C9: the serializers *)

(** C9, at the failing input. [segmentsToPixAI] skips the segments whose
    trimmed content is empty, in every list. [segmentsToNovelAI] has no
    such filter: the segment of empty content that [parsePixAI] scans from
    [( :1.5)] is rendered as [1.5::::], which is what [convertToNovelAI]
    returns for that text, where skipping the segment gives the empty
    text. *)
Theorem segmentsToNovelAI_keeps_empty_segment r :
  let segs := fst (PixAI.parsePixAI r (js "( :1.5)")) in
  map erase_id segs = [erased TWeight "( :1.5)" "" (lit "1.5")]
  /\ filter has_content segs = []
  /\ segmentsToPixAI segs = []
  /\ segmentsToNovelAI segs = js "1.5::::"
  /\ fst (convertToNovelAI r (js "( :1.5)")) = js "1.5::::"
  /\ (forall l, segmentsToPixAI (filter has_content l) = segmentsToPixAI l).
Proof.
  cbv zeta.
  assert (E : map erase_id (fst (PixAI.parsePixAI r (js "( :1.5)")))
              = [erased TWeight "( :1.5)" "" (lit "1.5")]) by (eval_pix r).
  assert (N : segmentsToNovelAI (fst (PixAI.parsePixAI r (js "( :1.5)")))
              = js "1.5::::").
  { rewrite <- segmentsToNovelAI_erase, E. vm_compute. reflexivity. }
  assert (F : filter has_content (fst (PixAI.parsePixAI r (js "( :1.5)")))
              = []).
  { destruct (fst (PixAI.parsePixAI r (js "( :1.5)"))) as [|s [|s2 l]];
      try discriminate E.
    injection E as _ _ Hc _. cbn [filter]. unfold has_content.
    rewrite Hc. reflexivity. }
  repeat apply conj.
  - exact E.
  - exact F.
  - unfold segmentsToPixAI. rewrite F. reflexivity.
  - exact N.
  - rewrite convertToNovelAI_fst. exact N.
  - intros l. unfold segmentsToPixAI. now rewrite filter_idem.
Qed.

(** *** C10: purity of the scanners *)

(** C10, counterexample. Two calls on the same text return segments with
    different identifiers, and the generator has moved. *)
Lemma identifiers_differ_between_calls :
  let '(s1, r1) := NovelAI.parseNovelAI sample_rng (js "a") in
  let '(s2, _) := NovelAI.parseNovelAI r1 (js "a") in
  map seg_id s1 = [js "005467sfj"] /\ map seg_id s2 = [js "4xs00mafe"]
  /\ s1 <> s2 /\ pos r1 <> pos sample_rng.
Proof. vm_compute. repeat split; discriminate. Qed.

(** C10, amended. Two calls of a scanner on the same text return the same
    segments up to their identifiers, whatever the state of the generator;
    a call draws one number per segment and touches no other state. *)
Theorem scanners_pure_up_to_ids r1 r2 text :
  map erase_id (fst (NovelAI.parseNovelAI r1 text))
  = map erase_id (fst (NovelAI.parseNovelAI r2 text))
  /\ map erase_id (fst (PixAI.parsePixAI r1 text))
     = map erase_id (fst (PixAI.parsePixAI r2 text))
  /\ draws (snd (NovelAI.parseNovelAI r1 text)) = draws r1
  /\ pos (snd (NovelAI.parseNovelAI r1 text))
     = (pos r1 + List.length (fst (NovelAI.parseNovelAI r1 text)))%nat
  /\ draws (snd (PixAI.parsePixAI r1 text)) = draws r1
  /\ pos (snd (PixAI.parsePixAI r1 text))
     = (pos r1 + List.length (fst (PixAI.parsePixAI r1 text)))%nat.
Proof.
  pose proof (parseNovelAI_rng r1 text) as [? ?].
  pose proof (parsePixAI_rng r1 text) as [? ?].
  repeat split; auto using parseNovelAI_erase,
    parsePixAI_erase.
Qed.

(** ** The earlier revision *)

(** On [{{tag}}], [[tag]] and [2::tag}}x] the earlier revision of
    [parseNovelAI] yields the weights 1.2, 0.9 and 2, 2. *)
Lemma legacy_emphasis_additive :
  map seg_weight (fst (Legacy.parseNovelAI sample_rng (js "{{tag}}")))
  = [Some (lit "1.2")]
  /\ map seg_weight (fst (Legacy.parseNovelAI sample_rng (js "[tag]")))
     = [Some (lit "0.9")]
  /\ map seg_weight (fst (Legacy.parseNovelAI sample_rng (js "2::tag}}x")))
     = [Some (lit "2"); Some (lit "2")].
Proof. vm_compute. repeat split. Qed.

(** * Further properties of the code *)

(** ** Escaping *)

Lemma escapePixAI_head s :
  match escapePixAI s with
  | d :: _ => (d =? 40)%N || (d =? 41)%N = false
  | [] => s = []
  end.
Proof.
  destruct s as [|c s]; simpl; [reflexivity|].
  destruct ((c =? 40)%N || (c =? 41)%N) eqn:E; [reflexivity | exact E].
Qed.

Lemma unescapePixAI_escapePixAI s : unescapePixAI (escapePixAI s) = s.
Proof.
  induction s as [|c s IH]; [reflexivity|].
  cbn [escapePixAI].
  destruct ((c =? 40)%N || (c =? 41)%N) eqn:E.
  - cbn [unescapePixAI]. rewrite E. change ((92 =? 92)%N) with true.
    cbn [andb]. now rewrite IH.
  - pose proof (escapePixAI_head s) as H.
    cbn [unescapePixAI]. destruct (escapePixAI s) as [|d s'] eqn:Es.
    + now subst s.
    + rewrite H, andb_false_r. now rewrite IH.
Qed.

(** X1. [unescapePixAI] undoes [escapePixAI] on every string; so escaping
    loses nothing: two strings with the same escaped text are equal. The
    escaped string starts with no parenthesis. *)
Theorem unescape_escape s :
  unescapePixAI (escapePixAI s) = s
  /\ (forall t, escapePixAI s = escapePixAI t -> s = t)
  /\ match escapePixAI s with
     | d :: _ => (d =? 40)%N || (d =? 41)%N = false
     | [] => s = []
     end.
Proof.
  split; [apply unescapePixAI_escapePixAI|]. split; [|apply escapePixAI_head].
  intros t E. apply (f_equal unescapePixAI) in E.
  now rewrite !unescapePixAI_escapePixAI in E.
Qed.

Lemma unescape_escape_witness : js "a (b)" = js "a (b)".
Proof.
  exact (proj1 (proj2 (unescape_escape (js "a (b)"))) (js "a (b)") eq_refl).
Defined.

(** ** Prompts without weight syntax *)

Lemma weightControlRegex_no_colon s :
  forallb not_colon s = true -> weightControlRegex s = None.
Proof.
  intros H. unfold weightControlRegex.
  pose proof (span_eq is_digit s) as E1.
  destruct (span is_digit s) as [ip r1]. cbn [fst snd] in E1.
  destruct (fraction_opt r1) as [fp r2] eqn:E2.
  destruct (fraction_opt_shape _ _ _ E2) as [E3 _].
  destruct (starts_with (js "::") r2) as [r|] eqn:E4; [|reflexivity].
  apply starts_with_eq in E4. subst r2 r1 s.
  rewrite !forallb_app in H. cbn in H.
  apply andb_prop in H as [_ H]. apply andb_prop in H as [_ H].
  discriminate.
Qed.

Lemma nai_plain_char_no_colon s :
  forallb nai_plain_char s = true ->
  forallb not_colon s = true.
Proof.
  induction s as [|c s IH]; [reflexivity|]. cbn [forallb]. intros H.
  apply andb_prop in H as [Hc Hs]. rewrite (IH Hs), andb_true_r.
  unfold nai_plain_char in Hc. unfold not_colon.
  now destruct ((c =? 58)%N).
Qed.

Lemma nai_step_plain st (c : cu) tl :
  nai_plain_char c = true ->
  forallb not_colon tl = true ->
  NovelAI.step st c tl = (NovelAI.append c st, tl).
Proof.
  intros Hc Ht. unfold NovelAI.step. cbv zeta.
  rewrite weightControlRegex_no_colon.
  - unfold nai_plain_char in Hc. apply negb_true_iff in Hc.
    apply orb_false_elim in Hc as [Hc H44].
    apply orb_false_elim in Hc as [Hc H93].
    apply orb_false_elim in Hc as [Hc H91].
    apply orb_false_elim in Hc as [Hc H125].
    apply orb_false_elim in Hc as [H58 H123].
    now rewrite H123, H125, H91, H93, H44.
  - cbn [forallb]. rewrite Ht, andb_true_r.
    unfold nai_plain_char in Hc. unfold not_colon.
    now destruct ((c =? 58)%N).
Qed.

Lemma nai_step_comma st tl :
  forallb not_colon tl = true ->
  NovelAI.step st 44%N tl = (NovelAI.flush st, tl).
Proof.
  intros Ht. unfold NovelAI.step. cbv zeta.
  rewrite weightControlRegex_no_colon; [reflexivity|].
  cbn [forallb]. now rewrite Ht.
Qed.

(** A tag in front of colon-free text goes to the buffer. *)
Lemma nai_run_plain tag : forall st tl,
  forallb nai_plain_char tag = true ->
  forallb not_colon tl = true ->
  nai_run st (tag ++ tl) =
  nai_run {| NovelAI.segments := NovelAI.segments st;
             NovelAI.curlyDepth := NovelAI.curlyDepth st;
             NovelAI.squareDepth := NovelAI.squareDepth st;
             NovelAI.activeBaseWeight := NovelAI.activeBaseWeight st;
             NovelAI.buffer := NovelAI.buffer st ++ tag;
             NovelAI.rng := NovelAI.rng st |} tl.
Proof.
  induction tag as [|c tag IH]; intros st tl H Ht.
  - simpl. rewrite app_nil_r. now destruct st.
  - cbn [forallb] in H. apply andb_prop in H as [Hc Hs]. cbn [app].
    rewrite nai_run_cons, nai_step_plain; [|exact Hc|].
    + cbn [fst snd]. rewrite (IH _ _ Hs Ht). unfold NovelAI.append. cbn.
      now rewrite <- app_assoc.
    + rewrite forallb_app. apply andb_true_intro.
      split; [now apply nai_plain_char_no_colon | exact Ht].
Qed.

Lemma nai_resolved_neutral :
  roundWeight (mul (mul one (Math_pow (lit "1.05") 0)) (Math_pow (lit "0.95") 0))
  = one.
Proof. vm_compute. reflexivity. Qed.

(** The flush of a tag at depth zero under the base weight 1. *)
Lemma nai_flush_neutral segs buf r :
  exists segs' r',
    NovelAI.flush
      {| NovelAI.segments := segs; NovelAI.curlyDepth := 0;
         NovelAI.squareDepth := 0; NovelAI.activeBaseWeight := one;
         NovelAI.buffer := buf; NovelAI.rng := r |}
    = {| NovelAI.segments := segs'; NovelAI.curlyDepth := 0;
         NovelAI.squareDepth := 0; NovelAI.activeBaseWeight := one;
         NovelAI.buffer := []; NovelAI.rng := r' |}
    /\ map erase_id segs'
       = map erase_id segs ++ map plain_segment (filter nonblank [buf]).
Proof.
  unfold NovelAI.flush, NovelAI.resolvedWeight, nonblank.
  cbn [NovelAI.buffer NovelAI.segments NovelAI.curlyDepth NovelAI.squareDepth
       NovelAI.activeBaseWeight NovelAI.rng filter].
  rewrite nai_resolved_neutral.
  destruct (JsString.truthy (trim buf)).
  - destruct (generateId r) as [i r']. eexists _, r'. split; [reflexivity|].
    rewrite map_app. reflexivity.
  - exists segs, r. split; [reflexivity|]. cbn. now rewrite app_nil_r.
Qed.

Lemma join_no_colon (tags : list jsstring) :
  forallb (forallb nai_plain_char) tags = true ->
  forallb not_colon (join [44%N] tags) = true.
Proof.
  induction tags as [|t tags IH]; [reflexivity|]. cbn [forallb]. intros H.
  apply andb_prop in H as [Ht Hs]. specialize (IH Hs).
  destruct tags as [|t2 tags].
  - cbn [join]. now apply nai_plain_char_no_colon.
  - rewrite join_cons2, !forallb_app, IH, (nai_plain_char_no_colon _ Ht).
    reflexivity.
Qed.

Lemma nai_run_plain_tags (tags : list jsstring) : forall segs r,
  forallb (forallb nai_plain_char) tags = true ->
  exists st',
    nai_run {| NovelAI.segments := segs; NovelAI.curlyDepth := 0;
               NovelAI.squareDepth := 0; NovelAI.activeBaseWeight := one;
               NovelAI.buffer := []; NovelAI.rng := r |}
            (join [44%N] tags) = Some st'
    /\ map erase_id (NovelAI.segments (NovelAI.flush st'))
       = map erase_id segs ++ map plain_segment (filter nonblank tags).
Proof.
  induction tags as [|t tags IH]; intros segs r H.
  - eexists. split; [reflexivity|]. cbn. now rewrite app_nil_r.
  - cbn [forallb] in H. apply andb_prop in H as [Ht Hs].
    destruct tags as [|t2 tags].
    + cbn [join]. pose proof (nai_run_plain t
        {| NovelAI.segments := segs; NovelAI.curlyDepth := 0;
           NovelAI.squareDepth := 0; NovelAI.activeBaseWeight := one;
           NovelAI.buffer := []; NovelAI.rng := r |} [] Ht eq_refl) as R.
      rewrite app_nil_r in R. rewrite R.
      cbn [NovelAI.segments NovelAI.curlyDepth NovelAI.squareDepth
           NovelAI.activeBaseWeight NovelAI.buffer NovelAI.rng app].
      eexists. split; [reflexivity|].
      destruct (nai_flush_neutral segs t r) as (segs' & r' & -> & E).
      exact E.
    + rewrite join_cons2.
      pose proof (join_no_colon (t2 :: tags) Hs) as Hj.
      rewrite (nai_run_plain t _ _ Ht)
        by (rewrite forallb_app, Hj; reflexivity).
      cbn [NovelAI.segments NovelAI.curlyDepth NovelAI.squareDepth
           NovelAI.activeBaseWeight NovelAI.buffer NovelAI.rng app].
      rewrite nai_run_cons, (nai_step_comma _ _ Hj). cbn [fst snd].
      destruct (nai_flush_neutral segs t r) as (segs' & r' & -> & E).
      destruct (IH segs' r' Hs) as (st' & R & E').
      exists st'. split; [exact R|].
      rewrite E', E. cbn [filter].
      destruct (nonblank t); cbn [map app]; rewrite <- app_assoc;
        reflexivity.
Qed.

Lemma parseNovelAI_plain_tags r tags :
  forallb (forallb nai_plain_char) tags = true ->
  map erase_id (fst (NovelAI.parseNovelAI r (join [44%N] tags)))
  = map plain_segment (filter nonblank tags).
Proof.
  intros H. rewrite parseNovelAI_run.
  destruct (nai_run_plain_tags tags [] r H) as (st' & R & E).
  change (NovelAI.init r)
    with {| NovelAI.segments := []; NovelAI.curlyDepth := 0;
            NovelAI.squareDepth := 0; NovelAI.activeBaseWeight := one;
            NovelAI.buffer := []; NovelAI.rng := r |}.
  rewrite R. exact E.
Qed.

Lemma has_content_plain_segment t :
  nonblank t = true -> has_content (plain_segment t) = true.
Proof.
  unfold nonblank, has_content. cbn [seg_content plain_segment]. intros H.
  rewrite H. apply trim_trim_truthy in H.
  destruct (trim (trim t)); [discriminate|reflexivity].
Qed.

Lemma filter_has_content_plain tags :
  filter has_content (map plain_segment (filter nonblank tags))
  = map plain_segment (filter nonblank tags).
Proof.
  induction tags as [|t tags IH]; [reflexivity|]. cbn [filter].
  destruct (nonblank t) eqn:E; [|exact IH].
  cbn [map filter]. rewrite (has_content_plain_segment t E). now f_equal.
Qed.

(** X2. A NovelAI prompt with no colon and no bracket is converted tag by tag:
    the tags between the commas are trimmed, the blank ones are dropped,
    parentheses are escaped, and the tags are joined with a comma and a
    space. Every segment has the weight 1. *)
Theorem plain_prompt_to_pixai r tags :
  forallb (forallb nai_plain_char) tags = true ->
  map erase_id (fst (NovelAI.parseNovelAI r (join (js ",") tags)))
  = map plain_segment (filter nonblank tags)
  /\ fst (convertToPixAI r (join (js ",") tags))
     = join (js ", ") (map (fun t => escapePixAI (trim t))
                           (filter nonblank tags)).
Proof.
  intros H. pose proof (parseNovelAI_plain_tags r tags H) as E.
  split; [exact E|].
  rewrite convertToPixAI_fst, <- segmentsToPixAI_erase.
  change (js ",") with [44%N]. rewrite E.
  unfold segmentsToPixAI. rewrite filter_has_content_plain, map_map.
  reflexivity.
Qed.

Lemma plain_prompt_to_pixai_witness :
  fst (convertToPixAI sample_rng (js "1girl, solo (cat),, best quality "))
  = js "1girl, solo \(cat\), best quality".
Proof.
  exact (proj2 (plain_prompt_to_pixai sample_rng
                  [js "1girl"; js " solo (cat)"; js ""; js " best quality "]
                  eq_refl)).
Defined.

Lemma forallb_trimStart p s :
  forallb p s = true -> forallb p (trimStart s) = true.
Proof.
  induction s as [|c s IH]; [reflexivity|]. intros H. cbn [trimStart].
  destruct (is_space c); [|exact H].
  cbn [forallb] in H. apply andb_prop in H as [_ H]. now apply IH.
Qed.

Lemma forallb_trim p s : forallb p s = true -> forallb p (trim s) = true.
Proof.
  intros H. unfold trim, trimEnd. rewrite forallb_rev.
  apply forallb_trimStart. rewrite forallb_rev. now apply forallb_trimStart.
Qed.

Lemma unescapePixAI_no_backslash s :
  forallb (fun c : cu => negb (c =? 92)%N) s = true -> unescapePixAI s = s.
Proof.
  induction s as [|c s IH]; [reflexivity|]. cbn [forallb]. intros H.
  apply andb_prop in H as [Hc Hs]. apply negb_true_iff in Hc.
  cbn [unescapePixAI]. destruct s as [|d s']; [reflexivity|].
  rewrite Hc. cbn [andb]. now rewrite (IH Hs).
Qed.

Lemma pix_plain_char_no_backslash s :
  forallb pix_plain_char s = true ->
  forallb (fun c : cu => negb (c =? 92)%N) s = true.
Proof.
  induction s as [|c s IH]; [reflexivity|]. cbn [forallb]. intros H.
  apply andb_prop in H as [Hc Hs]. rewrite (IH Hs), andb_true_r.
  unfold pix_plain_char in Hc. now destruct ((c =? 92)%N).
Qed.

Lemma pix_step_plain st (c : cu) tl :
  pix_plain_char c = true ->
  PixAI.step st c tl = (PixAI.append [c] st, tl).
Proof.
  intros Hc. unfold pix_plain_char in Hc. apply negb_true_iff in Hc.
  apply orb_false_elim in Hc as [Hc H44].
  apply orb_false_elim in Hc as [Hc H93].
  apply orb_false_elim in Hc as [Hc H91].
  apply orb_false_elim in Hc as [Hc H41].
  apply orb_false_elim in Hc as [H92 H40].
  unfold PixAI.step, PixAI.plain. rewrite H92, H40, H41, H91, H93, H44.
  reflexivity.
Qed.

Lemma pix_step_comma st tl :
  PixAI.step st 44%N tl = (PixAI.flush None st, tl).
Proof. reflexivity. Qed.

(** A tag without backslash, bracket or comma goes to the buffer. *)
Lemma pix_run_plain_tag tag : forall st tl,
  forallb pix_plain_char tag = true ->
  pix_run st (tag ++ tl) = pix_run (PixAI.append tag st) tl.
Proof.
  induction tag as [|c tag IH]; intros st tl H.
  - simpl. unfold PixAI.append. rewrite app_nil_r. now destruct st.
  - cbn [forallb] in H. apply andb_prop in H as [Hc Hs]. cbn [app].
    rewrite pix_run_cons, (pix_step_plain _ _ _ Hc). cbn [fst snd].
    rewrite (IH _ _ Hs). now rewrite pix_append_append.
Qed.

(** The flush of such a tag at depth zero. *)
Lemma pix_flush_neutral segs buf r :
  forallb pix_plain_char buf = true ->
  exists segs' r',
    PixAI.flush None
      {| PixAI.segments := segs; PixAI.parenDepth := 0;
         PixAI.squareDepth := 0; PixAI.buffer := buf; PixAI.rng := r |}
    = {| PixAI.segments := segs'; PixAI.parenDepth := 0;
         PixAI.squareDepth := 0; PixAI.buffer := []; PixAI.rng := r' |}
    /\ map erase_id segs'
       = map erase_id segs ++ map plain_segment (filter nonblank [buf]).
Proof.
  intros Hp. unfold PixAI.flush, PixAI.ambientWeight, nonblank.
  cbn [PixAI.buffer PixAI.segments PixAI.parenDepth PixAI.squareDepth
       PixAI.rng filter].
  rewrite pix_ambient_zero.
  rewrite (unescapePixAI_no_backslash (trim buf))
    by (apply forallb_trim; now apply pix_plain_char_no_backslash).
  destruct (JsString.truthy (trim buf)).
  - destruct (generateId r) as [i r']. eexists _, r'. split; [reflexivity|].
    rewrite map_app. reflexivity.
  - exists segs, r. split; [reflexivity|]. cbn. now rewrite app_nil_r.
Qed.

Lemma pix_run_plain_tags (tags : list jsstring) : forall segs r,
  forallb (forallb pix_plain_char) tags = true ->
  exists st',
    pix_run {| PixAI.segments := segs; PixAI.parenDepth := 0;
               PixAI.squareDepth := 0; PixAI.buffer := []; PixAI.rng := r |}
            (join [44%N] tags) = Some st'
    /\ map erase_id (PixAI.segments (PixAI.flush None st'))
       = map erase_id segs ++ map plain_segment (filter nonblank tags).
Proof.
  induction tags as [|t tags IH]; intros segs r H.
  - eexists. split; [reflexivity|]. cbn. now rewrite app_nil_r.
  - cbn [forallb] in H. apply andb_prop in H as [Ht Hs].
    destruct tags as [|t2 tags].
    + cbn [join]. pose proof (pix_run_plain_tag t
        {| PixAI.segments := segs; PixAI.parenDepth := 0;
           PixAI.squareDepth := 0; PixAI.buffer := []; PixAI.rng := r |}
        [] Ht) as R.
      rewrite app_nil_r in R. rewrite R. unfold PixAI.append.
      cbn [PixAI.segments PixAI.parenDepth PixAI.squareDepth PixAI.buffer
           PixAI.rng app pix_run List.length PixAI.scan].
      eexists. split; [reflexivity|].
      destruct (pix_flush_neutral segs t r Ht) as (segs' & r' & -> & E).
      exact E.
    + rewrite join_cons2, (pix_run_plain_tag t _ _ Ht). unfold PixAI.append.
      cbn [PixAI.segments PixAI.parenDepth PixAI.squareDepth PixAI.buffer
           PixAI.rng app].
      rewrite pix_run_cons, pix_step_comma. cbn [fst snd].
      destruct (pix_flush_neutral segs t r Ht) as (segs' & r' & -> & E).
      destruct (IH segs' r' Hs) as (st' & R & E').
      exists st'. split; [exact R|].
      rewrite E', E. cbn [filter].
      destruct (nonblank t); cbn [map app]; rewrite <- app_assoc;
        reflexivity.
Qed.

Lemma renderNovelAI_plain_segments tags :
  map renderNovelAI (map plain_segment (filter nonblank tags))
  = map trim (filter nonblank tags).
Proof.
  induction tags as [|t tags IH]; [reflexivity|]. cbn [filter].
  destruct (nonblank t) eqn:E; [|exact IH].
  cbn [map]. rewrite IH. f_equal.
  unfold renderNovelAI, nonblank in *. cbn. now rewrite E.
Qed.

(** X3. A PixAI prompt with no backslash, parenthesis or square bracket is
    converted tag by tag: the tags between the commas are trimmed, the
    blank ones are dropped, and the tags are joined with a comma and a
    space. Every segment has the weight 1. *)
Theorem plain_prompt_to_novelai r tags :
  forallb (forallb pix_plain_char) tags = true ->
  map erase_id (fst (PixAI.parsePixAI r (join (js ",") tags)))
  = map plain_segment (filter nonblank tags)
  /\ fst (convertToNovelAI r (join (js ",") tags))
     = join (js ", ") (map trim (filter nonblank tags)).
Proof.
  intros H.
  assert (E : map erase_id (fst (PixAI.parsePixAI r (join [44%N] tags)))
              = map plain_segment (filter nonblank tags)).
  { rewrite parsePixAI_run.
    destruct (pix_run_plain_tags tags [] r H) as (st' & R & E).
    change (PixAI.init r)
      with {| PixAI.segments := []; PixAI.parenDepth := 0;
              PixAI.squareDepth := 0; PixAI.buffer := []; PixAI.rng := r |}.
    rewrite R. exact E. }
  split; [exact E|].
  rewrite convertToNovelAI_fst, <- segmentsToNovelAI_erase.
  change (js ",") with [44%N]. rewrite E.
  unfold segmentsToNovelAI. now rewrite renderNovelAI_plain_segments.
Qed.

Lemma plain_prompt_to_novelai_witness :
  fst (convertToNovelAI sample_rng (js "masterpiece , 1girl: solo,  ,sword"))
  = js "masterpiece, 1girl: solo, sword".
Proof.
  exact (proj2 (plain_prompt_to_novelai sample_rng
                  [js "masterpiece "; js " 1girl: solo"; js "  "; js "sword"]
                  eq_refl)).
Defined.

(** ** Trimming *)

Lemma trimStart_all_space s : forallb is_space s = true -> trimStart s = [].
Proof.
  induction s as [|c s IH]; [reflexivity|]. cbn [forallb trimStart]. intros H.
  apply andb_prop in H as [Hc Hs]. rewrite Hc. now apply IH.
Qed.

Lemma trimStart_app_single s (c : cu) :
  trimStart (s ++ [c]) =
  if forallb is_space s then (if is_space c then [] else [c])
  else trimStart s ++ [c].
Proof.
  induction s as [|d s IH]; [reflexivity|]. cbn [app trimStart forallb].
  destruct (is_space d); [exact IH|reflexivity].
Qed.

(** [trimEnd], read from the front of the string. *)
Lemma trimEnd_cons (c : cu) s :
  trimEnd (c :: s) =
  if forallb is_space (c :: s) then [] else c :: trimEnd s.
Proof.
  unfold trimEnd. cbn [rev]. rewrite trimStart_app_single, forallb_rev.
  cbn [forallb]. destruct (forallb is_space s) eqn:E.
  - rewrite (trimStart_all_space (rev s)) by now rewrite forallb_rev.
    rewrite andb_true_r. now destruct (is_space c).
  - rewrite andb_false_r, rev_app_distr. reflexivity.
Qed.

Lemma trimEnd_blank s : forallb is_space (trimEnd s) = forallb is_space s.
Proof.
  induction s as [|c s IH]; [reflexivity|]. rewrite trimEnd_cons.
  destruct (forallb is_space (c :: s)) eqn:E; [reflexivity|].
  cbn [forallb] in *. now rewrite IH.
Qed.

Lemma trimEnd_idem s : trimEnd (trimEnd s) = trimEnd s.
Proof.
  induction s as [|c s IH]; [reflexivity|]. rewrite trimEnd_cons.
  destruct (forallb is_space (c :: s)) eqn:E; [reflexivity|].
  rewrite trimEnd_cons, IH. cbn [forallb] in *.
  now rewrite trimEnd_blank, E.
Qed.

Lemma trimStart_idem s : trimStart (trimStart s) = trimStart s.
Proof.
  induction s as [|c s IH]; [reflexivity|]. cbn [trimStart].
  destruct (is_space c) eqn:E; [exact IH|]. cbn [trimStart]. now rewrite E.
Qed.

Lemma trimStart_trimEnd s :
  trimStart s = s -> trimStart (trimEnd s) = trimEnd s.
Proof.
  destruct s as [|c s]; [reflexivity|]. intros H. rewrite trimEnd_cons.
  destruct (forallb is_space (c :: s)) eqn:E; [reflexivity|].
  cbn [trimStart] in *. destruct (is_space c) eqn:Ec; [|reflexivity].
  exfalso. assert (L : (List.length (trimStart s) <= List.length s)%nat).
  { clear. induction s as [|d s IH]; simpl; [lia|].
    destruct (is_space d); simpl; lia. }
  rewrite H in L. simpl in L. lia.
Qed.

(** Trimming twice is trimming once. *)
Lemma trim_idem s : trim (trim s) = trim s.
Proof.
  unfold trim.
  rewrite (trimStart_trimEnd (trimStart s)) by apply trimStart_idem.
  apply trimEnd_idem.
Qed.

(** A string that starts and ends with a character that is not white
    space is its own trimming. *)
Lemma trim_fixed s : trim s = s <-> (trimStart s = s /\ trimEnd s = s).
Proof.
  split.
  - intros H. split.
    + rewrite <- H at 1. unfold trim.
      rewrite (trimStart_trimEnd (trimStart s)) by apply trimStart_idem.
      exact H.
    + rewrite <- H at 1. unfold trim. rewrite trimEnd_idem. exact H.
  - intros [H1 H2]. unfold trim. now rewrite H1.
Qed.

Lemma trim_space_cons (c : cu) s : is_space c = true -> trim (c :: s) = trim s.
Proof. intros H. unfold trim. cbn [trimStart]. now rewrite H. Qed.

(** ** Canonical numbers *)

Lemma binary_round_aux_canonical s mx ex lx :
  0 <= mx -> ex <= fexp prec emax (Zdigits2 mx + ex) ->
  canonical (binary_round_aux prec emax s mx ex lx).
Proof.
  intros Hm He. unfold binary_round_aux.
  destruct (shr_fexp_spec mx ex lx Hm He) as [M1 E1].
  destruct (shr_fexp prec emax mx ex lx) as [mrs' e'] eqn:S1.
  simpl in M1, E1.
  set (n1 := fexp prec emax (Zdigits2 mx + ex) - ex) in *.
  assert (Hn1 : 0 <= n1) by (unfold n1; lia).
  destruct (Zdigits2_div_pow2 mx n1 Hm Hn1) as [Q0 Q1]. rewrite <- M1 in Q0, Q1.
  pose proof (round_nearest_even_bounds (shr_m mrs') (loc_of_shr_record mrs')) as R.
  set (m1 := round_nearest_even (shr_m mrs') (loc_of_shr_record mrs')) in *.
  assert (Hm1 : 0 <= m1) by lia.
  assert (P1 : e' <= fexp prec emax (Zdigits2 m1 + e')).
  { pose proof (Zdigits2_le (shr_m mrs') m1 ltac:(lia)).
    pose proof (Zdigits2_nonneg mx). pose proof (Zdigits2_nonneg m1).
    destruct Q1 as [Z|[P Dq]].
    - rewrite Z in *. simpl in *.
      destruct (Z.eq_dec mx 0) as [->|Hx].
      + simpl in *. unfold fexp, emin, prec, emax in *. lia.
      + assert (Zdigits2 mx <= n1).
        { destruct (Z_lt_le_dec n1 (Zdigits2 mx)) as [L|L]; [|exact L].
          exfalso. pose proof (Zdigits2_bounds mx ltac:(lia)) as [Lb _].
          assert (2 ^ n1 <= mx).
          { eapply Z.le_trans; [|exact Lb]. apply Z.pow_le_mono_r; lia. }
          assert (0 < 2 ^ n1) by (apply Z.pow_pos_nonneg; lia).
          assert (1 <= mx / 2 ^ n1).
          { apply Z.div_le_lower_bound; lia. }
          lia. }
        unfold n1, fexp, emin, prec, emax in *. lia.
    - unfold n1, fexp, emin, prec, emax in *. lia. }
  destruct (shr_fexp_spec m1 e' loc_Exact Hm1 P1) as [M2 E2].
  destruct (shr_fexp prec emax m1 e' loc_Exact) as [mrs'' e''] eqn:S2.
  simpl in M2, E2.
  set (n2 := fexp prec emax (Zdigits2 m1 + e') - e') in *.
  assert (Hn2 : 0 <= n2) by (unfold n2; lia).
  destruct (Zdigits2_div_pow2 m1 n2 Hm1 Hn2) as [Q2 Q3]. rewrite <- M2 in Q2, Q3.
  destruct (shr_m mrs'') as [|m|m] eqn:Em; try exact I.
  destruct Q3 as [Z|[P Dq]]; [discriminate|].
  destruct (e'' <=? emax - prec) eqn:Hfin; [|exact I].
  change (Zdigits2 (Zpos m)) with (Zpos (digits2_pos m)) in Dq.
  assert (Hsum : Zpos (digits2_pos m) + e'' = Zdigits2 m1 + e')
    by (unfold n2 in *; lia).
  assert (Hcan : fexp prec emax (Zpos (digits2_pos m) + e'') = e'')
    by (rewrite Hsum; lia).
  cbn [canonical]. unfold bounded, canonical_mantissa.
  rewrite Hfin, andb_true_r. now apply Z.eqb_eq.
Qed.

Lemma div_canonical x s2 m2 e2 : canonical (div x (S754_finite s2 m2 e2)).
Proof.
  destruct x as [s1| s1| |s1 m1 e1]; try exact I.
  unfold div, SFdiv, SFdiv_core_binary.
  change (Zdigits2 (Zpos m1)) with (Zpos (digits2_pos m1)).
  change (Zdigits2 (Zpos m2)) with (Zpos (digits2_pos m2)).
  set (d1 := Zpos (digits2_pos m1)) in *. set (d2 := Zpos (digits2_pos m2)) in *.
  set (e' := Z.min (fexp prec emax (d1 + e1 - (d2 + e2))) (e1 - e2)).
  set (sh := e1 - e2 - e').
  assert (Hs : 0 <= sh) by (unfold sh, e'; lia).
  set (m' := match sh with Zpos _ => Z.shiftl (Zpos m1) sh | Z0 => Zpos m1
             | Zneg _ => 0 end).
  assert (Em : m' = Zpos m1 * 2 ^ sh).
  { unfold m'. clearbody sh. destruct sh; try lia.
    apply Z.shiftl_mul_pow2. lia. }
  clearbody m'.
  pose proof (Z_div_mod m' (Zpos m2) ltac:(lia)) as DM.
  destruct (Z.div_eucl m' (Zpos m2)) as [q r]. destruct DM as [DM Hr].
  pose proof (Zdigits2_bounds (Zpos m1) ltac:(lia)) as [L1 U1].
  pose proof (Zdigits2_bounds (Zpos m2) ltac:(lia)) as [L2 U2].
  change (Zdigits2 (Zpos m1)) with d1 in *.
  change (Zdigits2 (Zpos m2)) with d2 in *.
  assert (P1 : 1 <= d1) by (unfold d1; lia).
  assert (P2 : 1 <= d2) by (unfold d2; lia).
  assert (Ps : 0 < 2 ^ sh) by (apply Z.pow_pos_nonneg; lia).
  assert (Hq : 0 <= q) by nia.
  assert (Uq : Zdigits2 q <= d1 + sh - d2 + 1 \/ q = 0).
  { destruct (Z.eq_dec q 0) as [->|Nq]; [now right|left].
    assert (0 <= d1 + sh - d2 + 1).
    { destruct (Z_lt_le_dec (d1 + sh) (d2 - 1)) as [Lt|Ge]; [|lia].
      exfalso. assert (2 ^ (d1 + sh) <= 2 ^ (d2 - 1))
        by (apply Z.pow_le_mono_r; lia).
      rewrite Z.pow_add_r in H by lia. nia. }
    apply Zdigits2_lt_pow; [|lia]. split; [lia|].
    assert (2 ^ (d1 + sh) = 2 ^ (d1 + sh - d2 + 1) * 2 ^ (d2 - 1))
      by (rewrite <- Z.pow_add_r by lia; f_equal; lia).
    assert (m' < 2 ^ (d1 + sh)) by (rewrite Z.pow_add_r by lia; nia).
    assert (0 < 2 ^ (d1 + sh - d2 + 1)) by (apply Z.pow_pos_nonneg; lia).
    nia. }
  assert (Lq : d1 + sh - d2 <= Zdigits2 q \/ d1 + sh - d2 <= 0).
  { destruct (Z_lt_le_dec 0 (d1 + sh - d2)) as [Pos|]; [left|now right].
    assert (2 ^ (d1 + sh - d2 - 1) <= q).
    { assert (2 ^ (d1 - 1 + sh) = 2 ^ (d1 + sh - d2 - 1) * 2 ^ d2)
        by (rewrite <- Z.pow_add_r by lia; f_equal; lia).
      assert (2 ^ (d1 - 1 + sh) <= m') by (rewrite Z.pow_add_r by lia; nia).
      assert (0 < 2 ^ (d1 + sh - d2 - 1)) by (apply Z.pow_pos_nonneg; lia).
      nia. }
    pose proof (Zdigits2_ge_pow q _ H ltac:(lia)). lia. }
  pose proof (Zdigits2_nonneg q) as Nq.
  apply binary_round_aux_canonical; [lia|].
  unfold sh, e', fexp, emin, prec, emax in *. lia.
Qed.

Lemma roundWeight_canonical x : canonical (roundWeight x).
Proof.
  unfold roundWeight.
  replace hundred with (S754_finite false 7036874417766400 (-46))
    by (vm_compute; reflexivity).
  apply div_canonical.
Qed.

Lemma of_Z_canonical n : canonical (of_Z n).
Proof.
  unfold of_Z, binary_normalize.
  destruct n as [|p|p]; try exact I;
    unfold binary_round, shl_align;
    destruct (fexp prec emax (Zpos (digits2_pos p) + 0) - 0) as [|q|q] eqn:En;
    apply binary_round_aux_canonical; simpl Zdigits2;
      rewrite ?digits2_pos_shift; try lia;
    unfold fexp, emin, prec, emax in *; lia.
Qed.

Lemma of_decimal_canonical c e : canonical (of_decimal c e).
Proof.
  unfold of_decimal. destruct c as [|p|p]; try exact I.
  destruct (0 <=? e); [apply of_Z_canonical|].
  unfold of_ratio. apply div_canonical.
Qed.

(** Rounding a value of at least [2^emin] gives no zero. *)
Lemma binary_round_aux_nonzero s mx ex lx :
  0 < mx -> ex <= fexp prec emax (Zdigits2 mx + ex) ->
  emin prec emax + 1 <= Zdigits2 mx + ex ->
  match binary_round_aux prec emax s mx ex lx with
  | S754_finite _ _ _ | S754_infinity _ => True
  | _ => False
  end.
Proof.
  intros Hm He Hlow. unfold binary_round_aux.
  assert (Hm0 : 0 <= mx) by lia.
  destruct (shr_fexp_spec mx ex lx Hm0 He) as [M1 E1].
  destruct (shr_fexp prec emax mx ex lx) as [mrs' e'] eqn:S1.
  simpl in M1, E1.
  set (n1 := fexp prec emax (Zdigits2 mx + ex) - ex) in *.
  assert (Hn1 : 0 <= n1) by (unfold n1; lia).
  destruct (Zdigits2_div_pow2 mx n1 Hm0 Hn1) as [Q0 Q1]. rewrite <- M1 in Q0, Q1.
  pose proof (Zdigits2_bounds mx Hm) as [Lb _].
  assert (Hq : 1 <= shr_m mrs').
  { rewrite M1. assert (n1 <= Zdigits2 mx - 1)
      by (unfold n1, fexp, emin, prec, emax in *; lia).
    assert (2 ^ n1 <= mx).
    { eapply Z.le_trans; [|exact Lb]. apply Z.pow_le_mono_r; lia. }
    assert (0 < 2 ^ n1) by (apply Z.pow_pos_nonneg; lia).
    apply Z.div_le_lower_bound; lia. }
  destruct Q1 as [Z|[_ Dq]]; [lia|].
  pose proof (round_nearest_even_bounds (shr_m mrs') (loc_of_shr_record mrs')) as R.
  set (m1 := round_nearest_even (shr_m mrs') (loc_of_shr_record mrs')) in *.
  assert (Hm1 : 0 <= m1) by lia.
  pose proof (Zdigits2_le (shr_m mrs') m1 ltac:(lia)) as D1.
  pose proof (Zdigits2_le m1 (shr_m mrs' + 1) ltac:(lia)) as D2.
  pose proof (Zdigits2_succ (shr_m mrs') Q0) as D3.
  assert (P1 : e' <= fexp prec emax (Zdigits2 m1 + e'))
    by (unfold n1, fexp, emin, prec, emax in *; lia).
  destruct (shr_fexp_spec m1 e' loc_Exact Hm1 P1) as [M2 E2].
  destruct (shr_fexp prec emax m1 e' loc_Exact) as [mrs'' e''] eqn:S2.
  simpl in M2, E2.
  set (n2 := fexp prec emax (Zdigits2 m1 + e') - e') in *.
  assert (Hn2 : 0 <= n2 <= 1)
    by (unfold n2, n1, fexp, emin, prec, emax in *; lia).
  assert (Hfin : 1 <= shr_m mrs'').
  { rewrite M2. destruct (Z.eq_dec n2 0) as [->|N2].
    - rewrite Z.pow_0_r, Z.div_1_r. lia.
    - assert (n2 = 1) by lia. subst n2.
      assert (Dm : 2 <= Zdigits2 m1)
        by (unfold n1, fexp, emin, prec, emax in *; lia).
      pose proof (Zdigits2_bounds m1 ltac:(lia)) as [Lm _].
      assert (2 ^ 1 <= m1).
      { eapply Z.le_trans; [|exact Lm]. apply Z.pow_le_mono_r; lia. }
      replace (fexp prec emax (Zdigits2 m1 + e') - e') with 1 by lia.
      change (2 ^ 1) with 2 in *. apply Z.div_le_lower_bound; lia. }
  destruct (shr_m mrs'') as [|m|m]; try lia.
  now destruct (e'' <=? emax - prec).
Qed.

(** The product of a canonical positive number and -1 is below zero. *)
Lemma negated_below_zero m e :
  bounded prec emax m e = true ->
  lt_zero (mul (S754_finite false m e) (of_Z (-1))) = true.
Proof.
  intros Hb. apply bounded_canonical in Hb as [Hc He].
  replace (of_Z (-1)) with (S754_finite true 4503599627370496 (-52))
    by (vm_compute; reflexivity).
  unfold mul, SFmul. cbn [xorb].
  pose proof (Zdigits2_mul_le (Zpos m) 4503599627370496 ltac:(lia) ltac:(lia)) as U.
  pose proof (Zdigits2_mul_ge (Zpos m) 4503599627370496 ltac:(lia) ltac:(lia)) as L.
  change (Zdigits2 4503599627370496) with 53 in U, L.
  change (Zpos m * 4503599627370496) with (Zpos (m * 4503599627370496)) in U, L.
  change (Zdigits2 (Zpos m)) with (Zpos (digits2_pos m)) in U, L.
  pose proof (binary_round_aux_sign true (Zpos (m * 4503599627370496))
                (e + -52) loc_Exact) as Sg.
  pose proof (binary_round_aux_nonzero true (Zpos (m * 4503599627370496))
                (e + -52) loc_Exact ltac:(lia)) as Nz.
  destruct (binary_round_aux prec emax true (Zpos (m * 4503599627370496))
              (e + -52) loc_Exact) as [s|s| |s m' e'];
    try (exfalso; apply Nz;
         change (Zdigits2 (Zpos (m * 4503599627370496)))
           with (Zpos (digits2_pos (m * 4503599627370496)));
         unfold fexp, emin, prec, emax in *; lia);
    cbn [sign_is] in Sg; subst s; reflexivity.
Qed.

(** ** What the scanners emit *)

(** A property of every segment a flush pushes and of every segment the
    explicit weight branch pushes holds of every segment of [parsePixAI]. *)
Lemma parsePixAI_forall (P : ParsedSegment -> Prop) :
  (forall st i,
     JsString.truthy (trim (PixAI.buffer st)) = true ->
     let w := roundWeight (PixAI.ambientWeight st) in
     P {| seg_id := i;
          seg_type := if strict_eq w one then TText else TWeight;
          seg_raw := trim (PixAI.buffer st);
          seg_content := Some (unescapePixAI (trim (PixAI.buffer st)));
          seg_weight := Some w |}) ->
  (forall s content numStr len i,
     explicitWeightRegex s = Some (content, numStr, len) ->
     P {| seg_id := i; seg_type := TWeight; seg_raw := firstn len s;
          seg_content := Some (unescapePixAI (trim content));
          seg_weight := Some (parseFloat numStr) |}) ->
  forall r text, Forall P (fst (PixAI.parsePixAI r text)).
Proof.
  intros HP HX r text.
  assert (HF : forall st, Forall P (PixAI.segments st) ->
                          Forall P (PixAI.segments (PixAI.flush None st))).
  { intros st Hs. unfold PixAI.flush.
    destruct (JsString.truthy (trim (PixAI.buffer st))) eqn:E; [|exact Hs].
    destruct (generateId _) as [i r']. cbn [PixAI.segments].
    apply Forall_app. split; [exact Hs|]. constructor; [|constructor].
    now apply HP. }
  unfold PixAI.parsePixAI.
  destruct (negb (JsString.truthy text)); [constructor|].
  destruct (PixAI.scan _ _ text) as [st|] eqn:E; [|constructor].
  apply HF.
  refine (pix_scan_inv (fun st => Forall P (PixAI.segments st))
            _ _ (PixAI.init r) text st (Forall_nil _) E).
  intros s c tl H. pose proof (HF s H) as HF'.
  assert (HPl : Forall P (PixAI.segments (PixAI.plain s c))).
  { unfold PixAI.plain.
    repeat match goal with |- context [if ?x then _ else _] => destruct x end;
      solve [exact HF' | exact H]. }
  unfold PixAI.step. destruct (c =? 92)%N; [destruct tl as [|d tl']|];
    try exact H;
    destruct (c =? 40)%N eqn:E40; try exact HPl;
    match goal with |- context [explicitWeightRegex ?t] =>
      destruct (explicitWeightRegex t) as [[[bd ns] len]|] eqn:ER end;
    try exact HPl;
    cbn [fst]; unfold PixAI.explicitWeight;
    destruct (generateId _) as [i r']; cbn [PixAI.segments];
    (apply Forall_app; split; [exact HF'|]);
    (constructor; [|constructor]); eapply HX; exact ER.
Qed.

Lemma nai_step_buffer st c tl :
  forallb nai_buffer_char (NovelAI.buffer st) = true ->
  forallb nai_buffer_char (NovelAI.buffer (fst (NovelAI.step st c tl))) = true.
Proof.
  intros H. pose proof (nai_flush_fields st) as (_ & _ & _ & Eb).
  unfold NovelAI.step. cbv zeta.
  destruct (weightControlRegex (c :: tl)) as [[o len]|];
    [cbn [fst NovelAI.weightControl NovelAI.buffer]; now rewrite Eb|].
  destruct (c =? 123)%N eqn:E1;
    [cbn [fst NovelAI.bracket NovelAI.buffer]; now rewrite Eb|].
  destruct (c =? 125)%N eqn:E2;
    [cbn [fst NovelAI.bracket NovelAI.buffer]; now rewrite Eb|].
  destruct (c =? 91)%N eqn:E3;
    [cbn [fst NovelAI.bracket NovelAI.buffer]; now rewrite Eb|].
  destruct (c =? 93)%N eqn:E4;
    [cbn [fst NovelAI.bracket NovelAI.buffer]; now rewrite Eb|].
  destruct (c =? 44)%N eqn:E5; [cbn [fst]; now rewrite Eb|].
  cbn [fst NovelAI.append NovelAI.buffer]. rewrite forallb_app, H.
  cbn [forallb]. unfold nai_buffer_char. now rewrite E1, E2, E3, E4, E5.
Qed.

(** A property of every segment a flush pushes in a state satisfying an
    invariant [J] of the loop holds of every segment of [parseNovelAI]. *)
Lemma parseNovelAI_forall_inv (J : NovelAI.State -> Prop)
    (P : ParsedSegment -> Prop) r text :
  J (NovelAI.init r) ->
  (forall st c tl, J st -> J (fst (NovelAI.step st c tl))) ->
  (forall st i,
     J st -> JsString.truthy (trim (NovelAI.buffer st)) = true ->
     P {| seg_id := i;
          seg_type := if strict_eq (NovelAI.resolvedWeight st) one
                      then TText else TWeight;
          seg_raw := trim (NovelAI.buffer st);
          seg_content := Some (trim (NovelAI.buffer st));
          seg_weight := Some (NovelAI.resolvedWeight st) |}) ->
  Forall P (fst (NovelAI.parseNovelAI r text)).
Proof.
  intros J0 HJ HP.
  assert (HF : forall st, J st -> Forall P (NovelAI.segments st) ->
                          Forall P (NovelAI.segments (NovelAI.flush st))).
  { intros st Hj Hs. unfold NovelAI.flush.
    destruct (JsString.truthy (trim (NovelAI.buffer st))) eqn:E; [|exact Hs].
    destruct (generateId _) as [i r']. cbn [NovelAI.segments].
    apply Forall_app. split; [exact Hs|]. constructor; [|constructor].
    now apply HP. }
  unfold NovelAI.parseNovelAI.
  destruct (negb (JsString.truthy text)); [constructor|].
  destruct (NovelAI.scan _ _ text) as [st|] eqn:E; [|constructor].
  assert (I : J st /\ Forall P (NovelAI.segments st)).
  { refine (nai_scan_inv (fun st => J st /\ Forall P (NovelAI.segments st))
              _ _ (NovelAI.init r) text st (conj J0 (Forall_nil _)) E).
    intros s c tl [Hj H]. split; [now apply HJ|].
    pose proof (HF s Hj H) as HF'.
    unfold NovelAI.step. cbv zeta.
    destruct (weightControlRegex (c :: tl)) as [[o len]|]; [exact HF'|].
    repeat match goal with |- context [if ?x then _ else _] => destruct x end;
      solve [exact HF' | exact H]. }
  destruct I as [Hj Hs]. now apply HF.
Qed.

Lemma parseNovelAI_form r text :
  Forall nai_segment_form (fst (NovelAI.parseNovelAI r text)).
Proof.
  apply (parseNovelAI_forall_inv
           (fun st => nai_sign_inv st
                      /\ forallb nai_buffer_char (NovelAI.buffer st) = true)).
  - repeat split. constructor.
  - intros st c tl [Hs Hb]. split;
      [now apply nai_step_sign | now apply nai_step_buffer].
  - intros st i [[_ Hs] Hb] Ht. exists (NovelAI.resolvedWeight st).
    cbn [seg_weight seg_content seg_raw seg_type].
    repeat split.
    + intros E. rewrite E in Ht. discriminate.
    + apply trim_idem.
    + now apply forallb_trim.
    + apply roundWeight_canonical.
    + apply sign_not_negative. unfold NovelAI.resolvedWeight.
      apply roundWeight_sign, mul_sign; [apply mul_sign; [exact Hs|]|];
        apply Math_pow_sign.
Qed.

Lemma parsePixAI_form r text :
  Forall pix_segment_form (fst (PixAI.parsePixAI r text)).
Proof.
  apply parsePixAI_forall.
  - intros st i Ht w. exists w, (unescapePixAI (trim (PixAI.buffer st))).
    cbn [seg_weight seg_content seg_raw seg_type].
    repeat split.
    + destruct (strict_eq w one); [reflexivity|discriminate].
    + intros E. rewrite E in Ht. discriminate.
    + apply roundWeight_canonical.
    + apply roundWeight_sign. unfold PixAI.ambientWeight.
      apply mul_sign; [apply mul_sign; [reflexivity|]|]; apply Math_pow_sign.
  - intros s content numStr len i E.
    exists (parseFloat numStr), (unescapePixAI (trim content)).
    cbn [seg_weight seg_content seg_raw seg_type].
    pose proof (explicitWeightRegex_length _ _ _ _ E) as [k Ek].
    assert (Hr : firstn len s <> []).
    { rewrite Ek. destruct s; [discriminate E|discriminate]. }
    apply explicitWeightRegex_shape in E as (Hne & _ & ip & fp & -> & Hsh).
    rewrite (parseFloat_decimal ip fp Hsh Hne).
    repeat split.
    + discriminate.
    + exact Hr.
    + apply of_decimal_canonical.
    + apply of_decimal_sign.
Qed.

Lemma filter_all {A} (p : A -> bool) l :
  Forall (fun x => p x = true) l -> filter p l = l.
Proof.
  induction 1 as [|x l Hx _ IH]; [reflexivity|]. cbn. now rewrite Hx, IH.
Qed.

(** X4. Every segment of [parseNovelAI] has a weight, which is canonical
    and not below zero; its content is its raw text, trimmed, not empty and
    free of brackets and commas; its type is [text] exactly when the weight
    is 1. So the filter of [segmentsToPixAI] drops none of them. *)
Theorem novelai_segment_form r text :
  Forall nai_segment_form (fst (NovelAI.parseNovelAI r text))
  /\ filter has_content (fst (NovelAI.parseNovelAI r text))
     = fst (NovelAI.parseNovelAI r text).
Proof.
  pose proof (parseNovelAI_form r text) as H. split; [exact H|].
  apply filter_all. eapply Forall_impl; [|exact H].
  intros s (w & _ & Hc & _ & Hne & Ht & _).
  unfold has_content. rewrite Hc, Ht.
  destruct (seg_raw s); [congruence|reflexivity].
Qed.

(** X5. Every segment of [parsePixAI] has a content and a weight, which is
    canonical and has no minus sign; its raw text is not empty; its type
    is [text] only when the weight is 1. So none of them has a weight
    below zero. *)
Theorem pixai_segment_form r text :
  Forall pix_segment_form (fst (PixAI.parsePixAI r text))
  /\ filter Converter.is_negative (fst (PixAI.parsePixAI r text)) = [].
Proof.
  pose proof (parsePixAI_form r text) as H. split; [exact H|].
  induction H as [|s l (w & c & Hw & _ & _ & _ & _ & Hs) _ IH];
    [reflexivity|].
  cbn [filter]. unfold Converter.is_negative at 1.
  now rewrite Hw, (sign_not_negative w Hs).
Qed.

(** ** The conversion effect *)

(** On a text of at most 250 characters. *)
Lemma parseNovelAI_finite r text :
  (List.length text <= 250)%nat ->
  Forall finite_weight (fst (NovelAI.parseNovelAI r text)).
Proof.
  intros Hl. apply parseNovelAI_bounded_finite.
  pose proof (digits_brackets_length text).
  pose proof (nai_number_digits_count text).
  pose proof (nai_depth_count text). lia.
Qed.

Lemma finite_not_negative w :
  is_finite w = true -> lt_zero w = false -> ge_zero w = true.
Proof. destruct w as [s|s| |[] m e]; try discriminate; reflexivity. Qed.

(** X6. On a NovelAI prompt of at most 250 characters the conversion effect
    puts every segment in the positive output: the result text is the one
    of [convertToPixAI] and the negative result is empty. *)
Theorem nai_to_pix_is_convertToPixAI r text sourceNegativeText :
  (List.length text <= 250)%nat ->
  let res :=
    fst (Converter.convert NAI_TO_PIX text sourceNegativeText r) in
  Converter.resultText res = fst (convertToPixAI r text)
  /\ Converter.resultNegativeText res = []
  /\ Converter.segments res = fst (NovelAI.parseNovelAI r text).
Proof.
  intros Hl. cbv zeta. unfold Converter.convert.
  pose proof (parseNovelAI_finite r text Hl) as Hf.
  pose proof (parseNovelAI_form r text) as Hs.
  pose proof (parseNovelAI_no_negative r text) as Hn.
  rewrite convertToPixAI_fst.
  destruct (NovelAI.parseNovelAI r text) as [parsed r1]. cbn [fst] in *.
  cbn [Converter.resultText Converter.resultNegativeText Converter.segments].
  rewrite Hn. repeat split. f_equal. apply filter_all.
  rewrite Forall_forall in *. intros s Hin.
  destruct (Hf s Hin) as (w & Ew & Fw).
  destruct (Hs s Hin) as (w' & Ew' & _ & _ & _ & _ & _ & _ & Nw).
  rewrite Ew in Ew'. injection Ew' as <-.
  unfold Converter.is_positive. rewrite Ew.
  now apply finite_not_negative.
Qed.

Lemma nai_to_pix_is_convertToPixAI_witness :
  Converter.resultText
    (fst (Converter.convert NAI_TO_PIX (js "{{cat}}, 2::dog::") [] sample_rng))
  = fst (convertToPixAI sample_rng (js "{{cat}}, 2::dog::")).
Proof.
  apply (nai_to_pix_is_convertToPixAI sample_rng (js "{{cat}}, 2::dog::") []).
  simpl. lia.
Defined.

Lemma force_negative_below_zero s :
  pix_segment_form s -> Converter.is_negative (Converter.force_negative s) = true.
Proof.
  intros (w & c & Ew & _ & _ & _ & Cw & Sw).
  unfold Converter.is_negative, Converter.force_negative, Converter.with_weight.
  cbn [seg_weight]. rewrite Ew. unfold weight_or_one.
  destruct w as [sg|sg| |sg m e]; cbn [JsNumber.truthy sign_is] in *;
    try subst sg; try reflexivity.
  now apply negated_below_zero.
Qed.

(** X7. In the PixAI to NovelAI direction the segments are those of the
    positive field followed by those of the negative field, and each of
    the latter has a weight below zero, whatever the two texts: a weight
    of zero counts as 1 before the sign is set. The negative result is
    empty. *)
Theorem pix_to_nai_marks_negative r sourceText sourceNegativeText :
  let res :=
    fst (Converter.convert PIX_TO_NAI sourceText sourceNegativeText r) in
  let positiveSegs := fst (PixAI.parsePixAI r sourceText) in
  firstn (List.length positiveSegs) (Converter.segments res) = positiveSegs
  /\ Forall (fun s => Converter.is_negative s = true)
            (skipn (List.length positiveSegs) (Converter.segments res))
  /\ map erase_id
       (skipn (List.length positiveSegs) (Converter.segments res))
     = map erase_id
         (map Converter.force_negative
              (fst (PixAI.parsePixAI r sourceNegativeText)))
  /\ Converter.resultNegativeText res = [].
Proof.
  cbv zeta. unfold Converter.convert.
  destruct (PixAI.parsePixAI r sourceText) as [pos r1]. cbn [fst].
  pose proof (parsePixAI_form r1 sourceNegativeText) as Hs.
  pose proof (parsePixAI_erase r1 r sourceNegativeText) as He.
  destruct (PixAI.parsePixAI r1 sourceNegativeText) as [neg r2].
  cbn [fst Converter.segments Converter.resultNegativeText] in *.
  rewrite firstn_app, Nat.sub_diag, firstn_all, app_nil_r.
  rewrite skipn_app, Nat.sub_diag, skipn_all. cbn [skipn app].
  repeat split.
  - apply Forall_map. eapply Forall_impl; [|exact Hs].
    intros s. apply force_negative_below_zero.
  - rewrite !map_map. rewrite <- (map_map erase_id
      (fun s => erase_id (Converter.force_negative s))), He, map_map.
    reflexivity.
Qed.

(** ** toggleDirection *)

Lemma convert_nai_negative_empty text neg r :
  Converter.resultNegativeText (fst (Converter.convert NAI_TO_PIX text neg r))
  = [].
Proof.
  unfold Converter.convert.
  pose proof (parseNovelAI_no_negative r text) as E.
  destruct (NovelAI.parseNovelAI r text) as [parsed r1]. cbn [fst] in *.
  cbn [Converter.resultNegativeText]. now rewrite E.
Qed.

Lemma convert_pix_empty_negative text r :
  Converter.resultText (fst (Converter.convert PIX_TO_NAI text [] r))
  = fst (convertToNovelAI r text)
  /\ Converter.segments (fst (Converter.convert PIX_TO_NAI text [] r))
     = fst (PixAI.parsePixAI r text).
Proof.
  unfold Converter.convert. rewrite convertToNovelAI_fst.
  destruct (PixAI.parsePixAI r text) as [pos r1].
  cbn [PixAI.parsePixAI JsString.truthy negb fst map
       Converter.resultText Converter.segments].
  now rewrite app_nil_r.
Qed.

Lemma effect_eq s r :
  let c := Converter.convert (Component.direction s) (Component.sourceText s)
             (Component.sourceNegativeText s) r in
  Component.effect s r =
  ({| Component.direction := Component.direction s;
      Component.sourceText := Component.sourceText s;
      Component.sourceNegativeText := Component.sourceNegativeText s;
      Component.resultText := Converter.resultText (fst c);
      Component.resultNegativeText := Converter.resultNegativeText (fst c);
      Component.segments := Converter.segments (fst c) |}, snd c).
Proof.
  cbv zeta. unfold Component.effect. now destruct (Converter.convert _ _ _ _).
Qed.

(** X8. Whatever the state, after the effect and a toggle the negative source
    field is empty and the source field holds the previous result; the
    effect that follows a toggle to the PixAI to NovelAI direction is then
    the plain conversion [convertToNovelAI] of that text. *)
Theorem toggle_clears_negative_source s r :
  let s1 := fst (Component.effect s r) in
  let r1 := snd (Component.effect s r) in
  let s2 := Component.toggleDirection s1 in
  Component.sourceNegativeText s2 = []
  /\ Component.sourceText s2 = Component.resultText s1
  /\ Component.direction s2 <> Component.direction s
  /\ (Component.direction s = NAI_TO_PIX ->
      Component.resultText (fst (Component.effect s2 r1))
      = fst (convertToNovelAI r1 (Component.resultText s1))
      /\ Component.segments (fst (Component.effect s2 r1))
         = fst (PixAI.parsePixAI r1 (Component.resultText s1))).
Proof.
  cbv zeta. rewrite (effect_eq s r). cbv zeta. cbn [fst snd].
  set (c := Converter.convert (Component.direction s) (Component.sourceText s)
              (Component.sourceNegativeText s) r).
  assert (En : Converter.resultNegativeText (fst c) = []).
  { unfold c. destruct (Component.direction s).
    - apply convert_nai_negative_empty.
    - unfold Converter.convert.
      destruct (PixAI.parsePixAI r _) as [pos r1].
      now destruct (PixAI.parsePixAI r1 _) as [ng r2]. }
  unfold Component.toggleDirection.
  cbn [Component.direction Component.sourceText Component.sourceNegativeText
       Component.resultText Component.resultNegativeText].
  split; [exact En|]. split; [reflexivity|].
  split; [destruct (Component.direction s); discriminate|].
  intros Ed. rewrite effect_eq. cbv zeta.
  cbn [fst Component.direction Component.sourceText
       Component.sourceNegativeText Component.resultText Component.segments].
  rewrite En, Ed. apply convert_pix_empty_negative.
Qed.

Lemma toggle_clears_negative_source_witness :
  Component.resultText
    (fst (Component.effect
            (Component.toggleDirection
               (fst (Component.effect
                       {| Component.direction := NAI_TO_PIX;
                          Component.sourceText := js "2::cat::, dog";
                          Component.sourceNegativeText := js "ignored";
                          Component.resultText := [];
                          Component.resultNegativeText := [];
                          Component.segments := [] |} sample_rng)))
            (snd (Component.effect
                    {| Component.direction := NAI_TO_PIX;
                       Component.sourceText := js "2::cat::, dog";
                       Component.sourceNegativeText := js "ignored";
                       Component.resultText := [];
                       Component.resultNegativeText := [];
                       Component.segments := [] |} sample_rng))))
  = fst (convertToNovelAI
           (snd (Component.effect
                   {| Component.direction := NAI_TO_PIX;
                      Component.sourceText := js "2::cat::, dog";
                      Component.sourceNegativeText := js "ignored";
                      Component.resultText := [];
                      Component.resultNegativeText := [];
                      Component.segments := [] |} sample_rng))
           (Component.resultText
              (fst (Component.effect
                      {| Component.direction := NAI_TO_PIX;
                         Component.sourceText := js "2::cat::, dog";
                         Component.sourceNegativeText := js "ignored";
                         Component.resultText := [];
                         Component.resultNegativeText := [];
                         Component.segments := [] |} sample_rng)))).
Proof.
  exact (proj1 (proj2 (proj2 (proj2
    (toggle_clears_negative_source
       {| Component.direction := NAI_TO_PIX;
          Component.sourceText := js "2::cat::, dog";
          Component.sourceNegativeText := js "ignored";
          Component.resultText := [];
          Component.resultNegativeText := [];
          Component.segments := [] |} sample_rng))) eq_refl)).
Defined.

(** ** The round trip through Format B, contents included *)

Lemma trim_blank_prefix b s :
  forallb is_space b = true -> trim (b ++ s) = trim s.
Proof.
  induction b as [|c b IH]; [reflexivity|]. cbn [forallb app]. intros H.
  apply andb_prop in H as [Hc Hb]. rewrite (trim_space_cons _ _ Hc).
  now apply IH.
Qed.

Lemma trimEnd_escapePixAI s :
  trimEnd s = s -> trimEnd (escapePixAI s) = escapePixAI s.
Proof.
  induction s as [|c s IH]; [reflexivity|]. rewrite trimEnd_cons.
  destruct (forallb is_space (c :: s)) eqn:E; [discriminate|].
  intros H. injection H as H. specialize (IH H).
  assert (E' : forallb is_space (c :: escapePixAI s) = false).
  { cbn [forallb] in *. now rewrite escapePixAI_blank. }
  cbn [escapePixAI]. destruct ((c =? 40)%N || (c =? 41)%N).
  - rewrite trimEnd_cons. cbn [forallb]. change (is_space 92%N) with false.
    cbn [andb]. now rewrite trimEnd_cons, E', IH.
  - now rewrite trimEnd_cons, E', IH.
Qed.

Lemma trimStart_escapePixAI s :
  trimStart s = s -> trimStart (escapePixAI s) = escapePixAI s.
Proof.
  destruct s as [|c s]; [reflexivity|]. cbn [trimStart escapePixAI].
  destruct (is_space c) eqn:E.
  - intros H. exfalso.
    assert (L : (List.length (trimStart s) <= List.length s)%nat).
    { clear. induction s as [|d s IH]; simpl; [lia|].
      destruct (is_space d); simpl; lia. }
    rewrite H in L. simpl in L. lia.
  - intros _. destruct ((c =? 40)%N || (c =? 41)%N); cbn [trimStart];
      [reflexivity|now rewrite E].
Qed.

(** Escaping keeps a trimmed string trimmed. *)
Lemma trim_escapePixAI s : trim s = s -> trim (escapePixAI s) = escapePixAI s.
Proof.
  intros H. apply trim_fixed in H as [H1 H2]. apply trim_fixed.
  split; [now apply trimStart_escapePixAI | now apply trimEnd_escapePixAI].
Qed.

Lemma pix_flush_plain_segment st :
  JsString.truthy (trim (PixAI.buffer st)) = true ->
  PixAI.parenDepth st = 0 -> PixAI.squareDepth st = 0 ->
  exists i r,
    PixAI.flush None st =
    {| PixAI.segments :=
         PixAI.segments st ++
         [{| seg_id := i; seg_type := TText;
             seg_raw := trim (PixAI.buffer st);
             seg_content := Some (unescapePixAI (trim (PixAI.buffer st)));
             seg_weight := Some one |}];
       PixAI.parenDepth := 0; PixAI.squareDepth := 0; PixAI.buffer := [];
       PixAI.rng := r |}.
Proof.
  intros Hb Hp Hs. unfold PixAI.flush, PixAI.ambientWeight.
  rewrite Hb, Hp, Hs, pix_ambient_zero.
  destruct (generateId (PixAI.rng st)) as [i r].
  exists i, r. reflexivity.
Qed.

Lemma pix_run_token_segment content num tl st :
  token_safe content = true -> content <> [] -> decimal_lit num = true ->
  pix_idle st ->
  exists st' i,
    pix_run st (40%N :: escapePixAI content ++ 58%N :: num ++ 41%N :: tl)
    = pix_run st' tl
    /\ pix_idle st'
    /\ PixAI.buffer st' = []
    /\ PixAI.segments st'
       = PixAI.segments st ++
         [{| seg_id := i; seg_type := TWeight;
             seg_raw := 40%N :: escapePixAI content ++ 58%N :: num ++ [41%N];
             seg_content := Some (unescapePixAI (trim (escapePixAI content)));
             seg_weight := Some (parseFloat num) |}].
Proof.
  intros Hs Hn Hd Hi. rewrite pix_run_cons, pix_step_paren.
  rewrite (explicitWeightRegex_token content num tl Hs Hn Hd).
  cbn [fst snd]. unfold PixAI.explicitWeight. rewrite (pix_flush_idle st Hi).
  cbn [PixAI.rng PixAI.segments PixAI.parenDepth PixAI.squareDepth PixAI.buffer].
  destruct (generateId (PixAI.rng st)) as [i r].
  assert (El : (List.length (escapePixAI content) + List.length num + 3)%nat
               = S (List.length (escapePixAI content ++ 58%N :: num ++ [41%N])))
    by (rewrite !length_app; simpl; rewrite !length_app; simpl; lia).
  assert (Et : escapePixAI content ++ 58%N :: num ++ 41%N :: tl
               = (escapePixAI content ++ 58%N :: num ++ [41%N]) ++ tl)
    by (rewrite <- !app_assoc; simpl; rewrite <- !app_assoc; reflexivity).
  eexists. exists i. split; [|split; [|split]].
  - f_equal. rewrite El, Et. cbn [skipn].
    rewrite skipn_app, skipn_all, Nat.sub_diag. reflexivity.
  - repeat split.
  - reflexivity.
  - cbn [PixAI.segments]. do 3 f_equal. rewrite El, Et. cbn [firstn].
    rewrite firstn_app, firstn_all, Nat.sub_diag. cbn [firstn].
    now rewrite app_nil_r.
Qed.

Lemma roundtrip_segment_cases s :
  roundtrip_segment s ->
  exists content w,
    seg_content s = Some content /\ seg_weight s = Some w
    /\ has_content s = true
    /\ negb (forallb is_space content) = true
    /\ ((w = one /\ plain_safe content = true
         /\ renderPixAI s = escapePixAI content)
        \/ (token_safe content = true /\ content <> []
            /\ decimal_lit (toString w) = true
            /\ parseFloat (toString w) = w
            /\ renderPixAI s =
               40%N :: escapePixAI content ++ 58%N :: toString w ++ [41%N])).
Proof.
  intros (content & c & Hc & Hw & Hr & Ht & Hsafe).
  pose proof (centi_ok_range c Hr) as Hok. unfold centi_ok in Hok.
  apply andb_prop in Hok as [Htru Hok].
  exists content, (centi c). repeat (split; [assumption|]).
  assert (Hne : content <> []) by (intros ->; discriminate).
  split; [|split].
  - unfold has_content. rewrite Hc. destruct content; [congruence|].
    cbn [JsString.truthy andb]. destruct (trim (c0 :: content));
      [discriminate|reflexivity].
  - now rewrite <- truthy_trim.
  - unfold renderPixAI. rewrite Hw, Hc. unfold weight_or_one. rewrite Htru.
    destruct (c =? 100) eqn:E.
    + left. apply number_eqb_eq in Hok. rewrite Hok. repeat split; auto.
    + right. apply andb_prop in Hok as [Hok Hpf].
      apply andb_prop in Hok as [Hne1 Hdl]. apply negb_true_iff in Hne1.
      apply number_eqb_eq in Hpf. rewrite Hne1. repeat split; auto.
Qed.

Lemma roundtrip_filter segs :
  Forall roundtrip_segment segs -> filter has_content segs = segs.
Proof.
  induction 1 as [|s l Hs Hl IH]; [reflexivity|]. simpl.
  destruct (roundtrip_segment_cases s Hs) as (? & ? & _ & _ & -> & _).
  now rewrite IH.
Qed.

Lemma roundtrip_segment_type s :
  roundtrip_segment s ->
  exists content w,
    seg_content s = Some content /\ seg_weight s = Some w
    /\ ((w = one /\ strict_eq w one = true) \/ strict_eq w one = false).
Proof.
  intros (content & c & Hc & Hw & Hr & Ht & Hsafe).
  pose proof (centi_ok_range c Hr) as Hok. unfold centi_ok in Hok.
  apply andb_prop in Hok as [_ Hok].
  exists content, (centi c). repeat (split; [assumption|]).
  destruct (c =? 100).
  - left. apply number_eqb_eq in Hok. rewrite Hok. split; reflexivity.
  - right. apply andb_prop in Hok as [Hok _].
    apply andb_prop in Hok as [Hne _]. now apply negb_true_iff in Hne.
Qed.

Lemma roundtrip_run_segments segs :
  Forall roundtrip_segment segs -> Forall trimmed_content segs ->
  forall st, pix_idle st ->
  exists st',
    pix_run st (join (js ", ") (map renderPixAI segs)) = Some st'
    /\ map erase_id (PixAI.segments (PixAI.flush None st'))
       = map erase_id (PixAI.segments st) ++ map rescanned segs.
Proof.
  induction 1 as [|s l Hs Hl IH]; intros Ht st Hi.
  - exists st. split; [reflexivity|]. rewrite (pix_flush_idle st Hi). simpl.
    now rewrite app_nil_r.
  - inversion Ht as [|s' l' (c0 & Hc0 & Htrim) Ht']. subst s' l'.
    specialize (IH Ht').
    destruct (roundtrip_segment_type s Hs) as (c1 & w1 & Hc1 & Hw1 & Hty).
    destruct (roundtrip_segment_cases s Hs)
      as (content & w & Hc & Hw & Hhas & Hnb & [(-> & Hsafe & Hr)
         | (Hsafe & Hne & Hdl & Hpf & Hr)]).
    + (* a plain tag *)
      rewrite Hc in Hc0. injection Hc0 as <-.
      assert (Hblank : forallb is_space (PixAI.buffer st) = true)
        by (apply trim_nil_iff; destruct Hi as (Hb & _);
            now destruct (trim (PixAI.buffer st))).
      assert (Etrim : trim (PixAI.buffer
                              (PixAI.append (escapePixAI content) st))
                      = escapePixAI content).
      { cbn [PixAI.buffer PixAI.append].
        rewrite (trim_blank_prefix _ _ Hblank). now apply trim_escapePixAI. }
      assert (Hb : JsString.truthy
                 (trim (PixAI.buffer (PixAI.append (escapePixAI content) st)))
               = true).
      { rewrite truthy_trim. cbn [PixAI.buffer PixAI.append].
        rewrite forallb_app, escapePixAI_blank.
        apply negb_true_iff in Hnb. rewrite Hnb. now rewrite andb_false_r. }
      destruct Hi as (_ & Hp & Hq).
      destruct (pix_flush_plain_segment
                  (PixAI.append (escapePixAI content) st) Hb Hp Hq)
        as (i & r & Hf).
      rewrite Etrim, unescapePixAI_escapePixAI in Hf.
      assert (Eseg : erase_id
          {| seg_id := i; seg_type := TText; seg_raw := escapePixAI content;
             seg_content := Some content; seg_weight := Some one |}
          = rescanned s).
      { unfold rescanned, erase_id. cbn. rewrite Hw, Hc, Hr. reflexivity. }
      destruct l as [|s2 l2].
      * cbn [map join]. rewrite Hr, <- (app_nil_r (escapePixAI content)).
        eexists. split;
          [rewrite (pix_run_plain content st [] Hsafe); apply pix_run_nil|].
        rewrite Hf.
        cbn [PixAI.segments PixAI.append]. rewrite map_app. cbn [map].
        now rewrite Eseg.
      * cbn [map]. rewrite join_cons2.
        rewrite Hr, (pix_run_plain content st _ Hsafe), pix_run_separator, Hf.
        destruct (IH _ (pix_idle_after_separator
                          (PixAI.segments (PixAI.append (escapePixAI content) st)
                             ++ [{| seg_id := i; seg_type := TText;
                                    seg_raw := escapePixAI content;
                                    seg_content := Some content;
                                    seg_weight := Some one |}]) r))
          as (st' & Hrun & Hws).
        exists st'. split; [exact Hrun|]. rewrite Hws.
        cbn [PixAI.segments PixAI.append]. rewrite map_app. cbn [map].
        rewrite Eseg, <- app_assoc. reflexivity.
    + (* an explicit weight token *)
      rewrite Hc in Hc0. injection Hc0 as <-.
      rewrite Hw in Hw1. injection Hw1 as <-.
      assert (Hne1 : strict_eq w one = false).
      { destruct Hty as [[-> _]|E]; [|exact E].
        exfalso. unfold renderPixAI in Hr. rewrite Hw, Hc in Hr.
        cbn in Hr. destruct (escapePixAI content) as [|e es] eqn:Ee.
        - destruct content; [congruence|]. simpl in Ee.
          destruct (_ || _); discriminate.
        - injection Hr as Hr _. destruct content as [|x xs]; [congruence|].
          simpl in Ee. destruct ((x =? 40)%N || (x =? 41)%N) eqn:Ex;
            injection Ee as <- _; [discriminate|].
          subst x. discriminate. }
      assert (Eseg : forall i, erase_id
          {| seg_id := i; seg_type := TWeight;
             seg_raw := 40%N :: escapePixAI content ++ 58%N :: toString w
                          ++ [41%N];
             seg_content :=
               Some (unescapePixAI (trim (escapePixAI content)));
             seg_weight := Some (parseFloat (toString w)) |}
          = rescanned s).
      { intros i. unfold rescanned, erase_id.
        cbn [seg_id seg_type seg_raw seg_content seg_weight].
        rewrite Hw, Hc, Hr, Hne1, Hpf, (trim_escapePixAI _ Htrim),
          unescapePixAI_escapePixAI. reflexivity. }
      destruct l as [|s2 l2].
      * cbn [map join]. rewrite Hr.
        destruct (pix_run_token_segment content (toString w) [] st
                    Hsafe Hne Hdl Hi)
          as (st2 & i & Hrun & Hi2 & Hb2 & Hsg).
        rewrite Hrun, pix_run_nil. eexists. split; [reflexivity|].
        rewrite (pix_flush_idle st2 Hi2). cbn [PixAI.segments].
        rewrite Hsg, map_app. cbn [map]. now rewrite Eseg.
      * cbn [map]. rewrite join_cons2.
        rewrite Hr, token_text_app.
        set (tl := js ", " ++ join (js ", ") (renderPixAI s2 :: map renderPixAI l2)).
        destruct (pix_run_token_segment content (toString w) tl st
                    Hsafe Hne Hdl Hi)
          as (st2 & i & Hrun & Hi2 & Hb2 & Hsg).
        rewrite Hrun. unfold tl. rewrite pix_run_separator.
        rewrite (pix_flush_idle st2 Hi2).
        destruct (IH _ (pix_idle_after_separator (PixAI.segments st2) (PixAI.rng st2)))
          as (st' & Hrun' & Hws').
        exists st'. split; [exact Hrun'|]. rewrite Hws'.
        cbn [PixAI.segments PixAI.append]. rewrite Hsg, map_app. cbn [map].
        rewrite Eseg, <- app_assoc. reflexivity.
Qed.

Lemma segmentsToPixAI_rescanned segs :
  segmentsToPixAI (map rescanned segs) = segmentsToPixAI segs.
Proof.
  unfold segmentsToPixAI. f_equal.
  induction segs as [|s l IH]; [reflexivity|]. cbn [map filter].
  change (has_content (rescanned s)) with (has_content s).
  destruct (has_content s); [|exact IH]. cbn [map]. now rewrite IH.
Qed.

Lemma parsePixAI_rendered segs r :
  Forall roundtrip_segment segs -> Forall trimmed_content segs ->
  map erase_id (fst (PixAI.parsePixAI r (segmentsToPixAI segs)))
  = map rescanned segs.
Proof.
  intros H Ht. unfold segmentsToPixAI at 1. rewrite (roundtrip_filter segs H).
  rewrite parsePixAI_run.
  assert (Hi : pix_idle (PixAI.init r)) by (repeat split).
  destruct (roundtrip_run_segments segs H Ht (PixAI.init r) Hi)
    as (st' & -> & Hw).
  exact Hw.
Qed.

(** X9. Scanning the PixAI rendering of segments gives the segments back:
    for segments of weight 0.01 to 99.99 in steps of 0.01 whose contents
    are trimmed and free of the characters PixAI reads as syntax,
    [parsePixAI] of [segmentsToPixAI] yields as many segments, with the
    same contents and weights, and rendering them again gives the same
    text. *)
Theorem format_b_roundtrip_segments segs r :
  Forall roundtrip_segment segs -> Forall trimmed_content segs ->
  let back := fst (PixAI.parsePixAI r (segmentsToPixAI segs)) in
  map erase_id back = map rescanned segs
  /\ map seg_content back = map seg_content segs
  /\ map seg_weight back = map seg_weight segs
  /\ segmentsToPixAI back = segmentsToPixAI segs.
Proof.
  intros H Ht. cbv zeta.
  pose proof (parsePixAI_rendered segs r H Ht) as E.
  split; [exact E|]. split; [|split].
  - change seg_content with (fun s => seg_content (erase_id s)) at 1.
    rewrite <- (map_map erase_id seg_content), E, map_map. reflexivity.
  - change seg_weight with (fun s => seg_weight (erase_id s)) at 1.
    rewrite <- (map_map erase_id seg_weight), E, map_map. reflexivity.
  - rewrite <- segmentsToPixAI_erase, E. apply segmentsToPixAI_rescanned.
Qed.

Lemma format_b_roundtrip_segments_witness :
  let segs :=
    [{| seg_id := []; seg_type := TWeight; seg_raw := js "a (b) c";
        seg_content := Some (js "a (b) c"); seg_weight := Some (centi 130) |};
     {| seg_id := []; seg_type := TText; seg_raw := js "tag";
        seg_content := Some (js "tag"); seg_weight := Some (centi 100) |}] in
  map seg_content (fst (PixAI.parsePixAI sample_rng (segmentsToPixAI segs)))
  = map seg_content segs.
Proof.
  refine (proj1 (proj2 (format_b_roundtrip_segments _ sample_rng _ _))).
  - repeat constructor.
    + exists (js "a (b) c"), 130. repeat split; try reflexivity; lia.
    + exists (js "tag"), 100. repeat split; try reflexivity; lia.
  - repeat constructor.
    + exists (js "a (b) c"). split; reflexivity.
    + exists (js "tag"). split; reflexivity.
Defined.

(** ** Rounding to two decimals *)

Lemma centi_fixed_range :
  forallb centi_fixed (map Z.of_nat (seq 1 (Z.to_nat 9999))) = true.
Proof. vm_cast_no_check (eq_refl true). Qed.

Lemma centi_fixed_both c :
  1 <= c <= 9999 ->
  roundWeight (mul (mul (centi c) (Math_pow (lit "1.05") 0))
                   (Math_pow (lit "0.95") 0)) = centi c
  /\ roundWeight (centi c) = centi c.
Proof.
  intros H. pose proof centi_fixed_range as R. rewrite forallb_forall in R.
  assert (E : centi_fixed c = true).
  { apply (R c). rewrite in_map_iff.
    exists (Z.to_nat c). split; [lia|]. apply in_seq. lia. }
  unfold centi_fixed in E. apply andb_prop in E as [E1 E2].
  split; now apply number_eqb_eq.
Qed.

Lemma centi_fixed_ok c :
  1 <= c <= 9999 ->
  roundWeight (mul (mul (centi c) (Math_pow (lit "1.05") 0))
                   (Math_pow (lit "0.95") 0)) = centi c.
Proof. intros H. apply (centi_fixed_both c H). Qed.

(** X17. [roundWeight] leaves every weight of two decimals from 0.01 to
    99.99 as it is; so rounding twice is rounding once on them. *)
Theorem roundWeight_two_decimals c :
  1 <= c <= 9999 ->
  roundWeight (centi c) = centi c
  /\ roundWeight (roundWeight (centi c)) = roundWeight (centi c).
Proof.
  intros H. destruct (centi_fixed_both c H) as [_ E]. now rewrite !E.
Qed.

Lemma roundWeight_two_decimals_witness :
  roundWeight (centi 137) = centi 137.
Proof. apply (roundWeight_two_decimals 137). lia. Defined.

(** ** The round trip through Format A *)

(** The text a match of the weight control pattern starts with. *)
Lemma weightControlRegex_decompose s o len :
  weightControlRegex s = Some (o, len) ->
  exists ip fp r,
    s = ip ++ fp ++ 58%N :: 58%N :: r
    /\ forallb is_digit ip = true
    /\ (fp = [] \/ exists fd, fp = 46%N :: fd /\ fd <> []
                             /\ forallb is_digit fd = true).
Proof.
  unfold weightControlRegex.
  pose proof (span_eq is_digit s) as E1.
  pose proof (span_prefix is_digit s) as P1.
  destruct (span is_digit s) as [ip r1]. cbn [fst snd] in E1, P1.
  destruct (fraction_opt r1) as [fp r2] eqn:E2.
  destruct (fraction_opt_shape _ _ _ E2) as [E3 Hf].
  destruct (starts_with (js "::") r2) as [r|] eqn:E4; [|discriminate].
  intros _. apply starts_with_eq in E4. subst r2 r1 s.
  exists ip, fp, r. auto.
Qed.

Lemma digit_not_colon c : is_digit c = true -> not_colon c = true.
Proof.
  unfold is_digit, not_colon. intros H. apply andb_prop in H as [_ H].
  apply N.leb_le in H. apply negb_true_iff, N.eqb_neq. lia.
Qed.

Lemma digits_no_colon l :
  forallb is_digit l = true -> forallb not_colon l = true.
Proof.
  induction l as [|c l IH]; [reflexivity|]. cbn [forallb]. intros H.
  apply andb_prop in H as [Hc Hl]. now rewrite (digit_not_colon c Hc), IH.
Qed.

Lemma number_text_no_colon ip fp :
  forallb is_digit ip = true ->
  (fp = [] \/ exists fd, fp = 46%N :: fd /\ fd <> []
                       /\ forallb is_digit fd = true) ->
  forallb not_colon (ip ++ fp) = true.
Proof.
  intros Hi Hf. rewrite forallb_app, (digits_no_colon ip Hi).
  destruct Hf as [->|(fd & -> & _ & Hd)]; [reflexivity|].
  cbn [forallb andb]. now rewrite (digits_no_colon fd Hd).
Qed.

Lemma app_colon_inj a : forall b x y,
  forallb not_colon a = true -> forallb not_colon b = true ->
  a ++ 58%N :: x = b ++ 58%N :: y -> a = b.
Proof.
  induction a as [|c a IH]; intros [|d b] x y Ha Hb E; cbn [app] in E.
  - reflexivity.
  - injection E as <- _. discriminate.
  - injection E as -> _. discriminate.
  - injection E as <- E. cbn [forallb] in *.
    apply andb_prop in Ha as [_ Ha]. apply andb_prop in Hb as [_ Hb].
    f_equal. exact (IH _ _ _ Ha Hb E).
Qed.

Lemma last_digit l :
  l <> [] -> forallb is_digit l = true -> is_digit (last l 0%N) = true.
Proof.
  induction l as [|c l IH]; [congruence|]. intros _ H. cbn [forallb] in H.
  apply andb_prop in H as [Hc Hl]. destruct l as [|d l]; [exact Hc|].
  apply IH; [discriminate|exact Hl].
Qed.

Lemma last_app_nonempty (a b : jsstring) :
  b <> [] -> last (a ++ b) 0%N = last b 0%N.
Proof.
  intros Hb. induction a as [|c a IH]; [reflexivity|]. cbn [app].
  destruct (a ++ b) eqn:E; [|exact IH].
  destruct a, b; try discriminate. congruence.
Qed.

(** No weight control token starts inside a content that ends without a
    digit and is followed by [::]. *)
Lemma weightControlRegex_in_content v rest :
  v <> [] -> forallb not_colon v = true ->
  is_digit (last v 0%N) = false ->
  weightControlRegex (v ++ 58%N :: 58%N :: rest) = None.
Proof.
  intros Hne Hc Hl.
  destruct (weightControlRegex _) as [[o len]|] eqn:E; [|reflexivity].
  exfalso. apply weightControlRegex_decompose in E
    as (ip & fp & r & E & Hi & Hf).
  rewrite app_assoc in E.
  apply app_colon_inj in E;
    [|exact Hc|now apply number_text_no_colon].
  subst v. destruct Hf as [->|(fd & -> & Hfd & Hd)].
  - rewrite app_nil_r in *. now rewrite (last_digit ip Hne Hi) in Hl.
  - change (46%N :: fd) with ([46%N] ++ fd) in Hl.
    rewrite app_assoc, (last_app_nonempty _ fd Hfd) in Hl.
    now rewrite (last_digit fd Hfd Hd) in Hl.
Qed.

Lemma app_colon_comma a : forall v x t,
  forallb (fun c : cu => negb (c =? 44)%N) a = true ->
  forallb not_colon v = true ->
  a ++ 58%N :: x = v ++ 44%N :: t -> False.
Proof.
  induction a as [|c a IH]; intros [|d v] x t Ha Hv E; cbn [app] in E.
  - discriminate.
  - injection E as <- _. discriminate.
  - injection E as -> _. discriminate.
  - injection E as <- E. cbn [forallb] in *.
    apply andb_prop in Ha as [_ Ha]. apply andb_prop in Hv as [_ Hv].
    exact (IH _ _ _ Ha Hv E).
Qed.

Lemma number_text_no_comma ip fp :
  forallb is_digit ip = true ->
  (fp = [] \/ exists fd, fp = 46%N :: fd /\ fd <> []
                       /\ forallb is_digit fd = true) ->
  forallb (fun c : cu => negb (c =? 44)%N) (ip ++ fp) = true.
Proof.
  assert (D : forall l, forallb is_digit l = true ->
                forallb (fun c : cu => negb (c =? 44)%N) l = true).
  { induction l as [|c l IH]; [reflexivity|]. cbn [forallb]. intros H.
    apply andb_prop in H as [Hc Hl]. rewrite (IH Hl), andb_true_r.
    unfold is_digit in Hc. apply andb_prop in Hc as [Hc _].
    apply N.leb_le in Hc. apply negb_true_iff, N.eqb_neq. lia. }
  intros Hi Hf. rewrite forallb_app, (D ip Hi).
  destruct Hf as [->|(fd & -> & _ & Hd)]; [reflexivity|].
  cbn [forallb andb]. now rewrite (D fd Hd).
Qed.

(** No weight control token starts in colon-free text in front of a comma. *)
Lemma weightControlRegex_before_comma v t :
  forallb not_colon v = true ->
  weightControlRegex (v ++ 44%N :: t) = None.
Proof.
  intros Hc.
  destruct (weightControlRegex _) as [[o len]|] eqn:E; [|reflexivity].
  exfalso. apply weightControlRegex_decompose in E
    as (ip & fp & r & E & Hi & Hf).
  rewrite app_assoc in E. symmetry in E.
  exact (app_colon_comma _ _ _ _ (number_text_no_comma ip fp Hi Hf) Hc E).
Qed.

(** The pattern matches a decimal literal followed by [::]. *)
Lemma weightControlRegex_token num rest :
  decimal_lit num = true ->
  weightControlRegex (num ++ 58%N :: 58%N :: rest)
  = Some (Some num, (List.length num + 2)%nat).
Proof.
  unfold decimal_lit. intros H.
  pose proof (span_eq is_digit num) as Eq.
  pose proof (span_prefix is_digit num) as Hp.
  destruct (span is_digit num) as [ip r1] eqn:Es. cbn [fst snd] in Eq, Hp.
  destruct ip as [|d ip]; [discriminate|].
  destruct (fraction_opt r1) as [fp r2] eqn:Ef.
  destruct r2; [|discriminate].
  destruct (fraction_opt_shape _ _ _ Ef) as [E3 Hf].
  rewrite app_nil_r in E3. subst r1.
  unfold weightControlRegex. rewrite <- Eq, <- app_assoc.
  assert (S1 : span is_digit ((d :: ip) ++ fp ++ 58%N :: 58%N :: rest)
               = (d :: ip, fp ++ 58%N :: 58%N :: rest)).
  { apply span_digits_then; [exact Hp|].
    destruct Hf as [->|(fd & -> & _)]; reflexivity. }
  rewrite S1.
  assert (S2 : fraction_opt (fp ++ 58%N :: 58%N :: rest)
               = (fp, 58%N :: 58%N :: rest)).
  { destruct Hf as [->|(fd & -> & Hfd & Hd)]; [reflexivity|].
    unfold fraction_opt. cbn [app]. change ((46 =? 46)%N) with true.
    cbv iota. rewrite (span_digits_then fd _ Hd) by reflexivity.
    destruct fd; [congruence|reflexivity]. }
  rewrite S2. reflexivity.
Qed.

Lemma weightControlRegex_head (c : cu) t :
  is_digit c = false -> (c =? 46)%N = false -> (c =? 58)%N = false ->
  weightControlRegex (c :: t) = None.
Proof.
  intros Hd H46 H58. unfold weightControlRegex. cbn [span]. rewrite Hd.
  cbn [fraction_opt]. rewrite H46. change (js "::") with [58%N; 58%N].
  cbn [starts_with]. unfold cu_eqb. now rewrite N.eqb_sym, H58.
Qed.

Lemma nai_plain_char_cases (c : cu) :
  nai_plain_char c = true ->
  (c =? 58)%N = false /\ (c =? 123)%N = false /\ (c =? 125)%N = false
  /\ (c =? 91)%N = false /\ (c =? 93)%N = false /\ (c =? 44)%N = false.
Proof.
  unfold nai_plain_char. intros H. apply negb_true_iff in H.
  repeat (apply orb_false_elim in H as [H ?]). auto 10.
Qed.

Lemma nai_step_append st (c : cu) tl :
  weightControlRegex (c :: tl) = None -> nai_plain_char c = true ->
  NovelAI.step st c tl = (NovelAI.append c st, tl).
Proof.
  intros E Hc. unfold NovelAI.step. cbv zeta. rewrite E.
  destruct (nai_plain_char_cases c Hc) as (_ & -> & -> & -> & -> & ->).
  reflexivity.
Qed.

(** The content of a weighted tag goes to the buffer. *)
Lemma nai_run_content content : forall st rest,
  forallb nai_plain_char content = true ->
  (content = [] \/ is_digit (last content 0%N) = false) ->
  nai_run st (content ++ 58%N :: 58%N :: rest) =
  nai_run {| NovelAI.segments := NovelAI.segments st;
             NovelAI.curlyDepth := NovelAI.curlyDepth st;
             NovelAI.squareDepth := NovelAI.squareDepth st;
             NovelAI.activeBaseWeight := NovelAI.activeBaseWeight st;
             NovelAI.buffer := NovelAI.buffer st ++ content;
             NovelAI.rng := NovelAI.rng st |} (58%N :: 58%N :: rest).
Proof.
  induction content as [|c v IH]; intros st rest Hp Hl.
  - cbn [app]. rewrite app_nil_r. now destruct st.
  - cbn [forallb] in Hp. apply andb_prop in Hp as [Hc Hv].
    destruct Hl as [Hl|Hl]; [discriminate|].
    cbn [app]. rewrite nai_run_cons, nai_step_append; [|
      |exact Hc].
    + cbn [fst snd]. rewrite IH; [|exact Hv|].
      * unfold NovelAI.append. cbn. now rewrite <- app_assoc.
      * destruct v as [|d v]; [now left|right; exact Hl].
    + apply (weightControlRegex_in_content (c :: v) rest);
        [discriminate| |exact Hl].
      cbn [forallb]. rewrite (nai_plain_char_no_colon v Hv), andb_true_r.
      unfold not_colon.
      now destruct (nai_plain_char_cases c Hc) as (-> & _).
Qed.

(** The content of a tag of weight 1 in front of a comma goes to the
    buffer. *)
Lemma nai_run_before_comma content : forall st t,
  forallb nai_plain_char content = true ->
  nai_run st (content ++ 44%N :: t) =
  nai_run {| NovelAI.segments := NovelAI.segments st;
             NovelAI.curlyDepth := NovelAI.curlyDepth st;
             NovelAI.squareDepth := NovelAI.squareDepth st;
             NovelAI.activeBaseWeight := NovelAI.activeBaseWeight st;
             NovelAI.buffer := NovelAI.buffer st ++ content;
             NovelAI.rng := NovelAI.rng st |} (44%N :: t).
Proof.
  induction content as [|c v IH]; intros st t Hp.
  - cbn [app]. rewrite app_nil_r. now destruct st.
  - cbn [forallb] in Hp. apply andb_prop in Hp as [Hc Hv].
    cbn [app]. rewrite nai_run_cons, nai_step_append; [| |exact Hc].
    + cbn [fst snd]. rewrite (IH _ _ Hv).
      unfold NovelAI.append. cbn. now rewrite <- app_assoc.
    + apply (weightControlRegex_before_comma (c :: v) t).
      cbn [forallb]. rewrite (nai_plain_char_no_colon v Hv), andb_true_r.
      unfold not_colon.
      now destruct (nai_plain_char_cases c Hc) as (-> & _).
Qed.

Lemma nai_flush_blank st :
  forallb is_space (NovelAI.buffer st) = true ->
  NovelAI.flush st =
  {| NovelAI.segments := NovelAI.segments st;
     NovelAI.curlyDepth := NovelAI.curlyDepth st;
     NovelAI.squareDepth := NovelAI.squareDepth st;
     NovelAI.activeBaseWeight := NovelAI.activeBaseWeight st;
     NovelAI.buffer := []; NovelAI.rng := NovelAI.rng st |}.
Proof.
  intros H. unfold NovelAI.flush. apply trim_nil_iff in H. now rewrite H.
Qed.

Lemma nai_step_comma_head st (c : cu) t :
  c = 44%N -> weightControlRegex (c :: t) = None ->
  NovelAI.step st c t = (NovelAI.flush st, t).
Proof. intros -> E. unfold NovelAI.step. cbv zeta. now rewrite E. Qed.

(** The separator between two rendered tags: a flush, then a space in
    the buffer. *)
Lemma nai_run_separator st t :
  nai_run st (44%N :: 32%N :: t)
  = nai_run (NovelAI.append 32%N (NovelAI.flush st)) t.
Proof.
  rewrite nai_run_cons, (nai_step_comma_head _ 44%N _ eq_refl)
    by (apply weightControlRegex_head; reflexivity).
  cbn [fst snd].
  rewrite nai_run_cons, nai_step_append;
    [reflexivity|apply weightControlRegex_head; reflexivity|reflexivity].
Qed.

Lemma skipn_app_two {A} (a : list A) x y t :
  skipn (List.length a + 2) (a ++ x :: y :: t) = t.
Proof. induction a as [|c a IH]; [reflexivity|exact IH]. Qed.

Lemma nai_step_token st (d : cu) num' rest :
  decimal_lit (d :: num') = true ->
  NovelAI.step st d (num' ++ 58%N :: 58%N :: rest)
  = (NovelAI.weightControl (Some (d :: num')) st, rest).
Proof.
  intros H. pose proof (weightControlRegex_token (d :: num') rest H) as E.
  unfold NovelAI.step. cbv zeta.
  transitivity
    (match weightControlRegex ((d :: num') ++ 58%N :: 58%N :: rest) with
     | Some (numStr, len) =>
         (NovelAI.weightControl numStr st,
          skipn len ((d :: num') ++ 58%N :: 58%N :: rest))
     | None => (NovelAI.append d st, rest)
     end); [|rewrite E; f_equal; apply skipn_app_two].
  cbn [app]. destruct (weightControlRegex _) as [[o len]|] eqn:E';
    [reflexivity|].
  exfalso. cbn [app] in E. rewrite E in E'. discriminate.
Qed.

Lemma nai_step_close st (c : cu) rest :
  c = 58%N ->
  NovelAI.step st c (c :: rest) = (NovelAI.weightControl None st, rest).
Proof. intros ->. reflexivity. Qed.

(** A rendered tag [w::content::] scanned from an idle state. *)
Lemma nai_run_weighted segs b0 r num content w rest :
  forallb is_space b0 = true ->
  decimal_lit num = true -> parseFloat num = w -> is_nan w = false ->
  roundWeight (mul (mul w (Math_pow (lit "1.05") 0))
                   (Math_pow (lit "0.95") 0)) = w ->
  nai_token_safe content = true -> content <> [] -> trim content = content ->
  exists i r',
    nai_run {| NovelAI.segments := segs; NovelAI.curlyDepth := 0;
               NovelAI.squareDepth := 0; NovelAI.activeBaseWeight := one;
               NovelAI.buffer := b0; NovelAI.rng := r |}
            (num ++ 58%N :: 58%N :: content ++ 58%N :: 58%N :: rest)
    = nai_run
        {| NovelAI.segments :=
             segs ++
             [{| seg_id := i;
                 seg_type := if strict_eq w one then TText else TWeight;
                 seg_raw := content; seg_content := Some content;
                 seg_weight := Some w |}];
           NovelAI.curlyDepth := 0; NovelAI.squareDepth := 0;
           NovelAI.activeBaseWeight := one; NovelAI.buffer := [];
           NovelAI.rng := r' |} rest.
Proof.
  intros Hb Hd Hpf Hnan Hfix Hsafe Hne Htrim.
  destruct num as [|d num']; [discriminate|].
  unfold nai_token_safe in Hsafe. apply andb_prop in Hsafe as [Hp Hl].
  apply negb_true_iff in Hl.
  cbn [app]. rewrite nai_run_cons, (nai_step_token _ d num' _ Hd).
  cbn [fst snd]. unfold NovelAI.weightControl at 1.
  rewrite nai_flush_blank by exact Hb.
  cbn [NovelAI.segments NovelAI.buffer NovelAI.rng NovelAI.activeBaseWeight].
  rewrite Hpf, Hnan. cbn [negb].
  rewrite (nai_run_content content _ rest Hp (or_intror Hl)).
  cbn [NovelAI.segments NovelAI.curlyDepth NovelAI.squareDepth
       NovelAI.activeBaseWeight NovelAI.buffer NovelAI.rng app].
  rewrite nai_run_cons, (nai_step_close _ 58%N rest eq_refl).
  cbn [fst snd]. unfold NovelAI.weightControl, NovelAI.flush,
    NovelAI.resolvedWeight.
  cbn [NovelAI.segments NovelAI.curlyDepth NovelAI.squareDepth
       NovelAI.activeBaseWeight NovelAI.buffer NovelAI.rng].
  rewrite Htrim, Hfix.
  destruct content as [|c0 content0]; [congruence|].
  cbn [JsString.truthy].
  destruct (generateId r) as [i r']. exists i, r'. reflexivity.
Qed.

Lemma nai_roundtrip_cases s :
  nai_roundtrip_segment s ->
  exists content w,
    seg_content s = Some content /\ seg_weight s = Some w
    /\ content <> [] /\ trim content = content
    /\ ((w = one /\ seg_type s = TText
         /\ forallb nai_plain_char content = true
         /\ renderNovelAI s = content)
        \/ (seg_type s = TWeight /\ strict_eq w one = false
            /\ nai_token_safe content = true
            /\ decimal_lit (toString w) = true
            /\ parseFloat (toString w) = w /\ is_nan w = false
            /\ roundWeight (mul (mul w (Math_pow (lit "1.05") 0))
                                (Math_pow (lit "0.95") 0)) = w
            /\ renderNovelAI s =
               toString w ++ 58%N :: 58%N :: content ++ [58%N; 58%N])).
Proof.
  intros (content & c & Hc & Hw & Hr & Hty & Hne & Htrim & Hsafe).
  pose proof (centi_ok_range c Hr) as Hok. unfold centi_ok in Hok.
  apply andb_prop in Hok as [Htru Hok].
  exists content, (centi c). repeat (split; [assumption|]).
  destruct (c =? 100).
  - left. apply number_eqb_eq in Hok. rewrite Hok.
    repeat (split; [assumption || reflexivity|]).
    unfold renderNovelAI. rewrite Hty, Hc. cbn [segment_type_eqb orb].
    destruct content; [congruence|reflexivity].
  - right. apply andb_prop in Hok as [Hok Hpf].
    apply andb_prop in Hok as [Hne1 Hdl]. apply negb_true_iff in Hne1.
    apply number_eqb_eq in Hpf.
    repeat (split; [assumption|]).
    split; [apply of_decimal_not_nan|].
    split; [now apply centi_fixed_ok|].
    unfold renderNovelAI. rewrite Hty, Hw, Hc, Hne1. reflexivity.
Qed.

Lemma nai_flush_plain_segment segs b0 content r :
  forallb is_space b0 = true -> content <> [] -> trim content = content ->
  exists i r',
    NovelAI.flush {| NovelAI.segments := segs; NovelAI.curlyDepth := 0;
                     NovelAI.squareDepth := 0;
                     NovelAI.activeBaseWeight := one;
                     NovelAI.buffer := b0 ++ content; NovelAI.rng := r |}
    = {| NovelAI.segments :=
           segs ++ [{| seg_id := i; seg_type := TText; seg_raw := content;
                       seg_content := Some content;
                       seg_weight := Some one |}];
         NovelAI.curlyDepth := 0; NovelAI.squareDepth := 0;
         NovelAI.activeBaseWeight := one; NovelAI.buffer := [];
         NovelAI.rng := r' |}.
Proof.
  intros Hb Hne Htrim. unfold NovelAI.flush, NovelAI.resolvedWeight.
  cbn [NovelAI.segments NovelAI.curlyDepth NovelAI.squareDepth
       NovelAI.activeBaseWeight NovelAI.buffer NovelAI.rng].
  rewrite (trim_blank_prefix _ _ Hb), Htrim, nai_resolved_neutral.
  destruct content as [|c0 content0]; [congruence|]. cbn [JsString.truthy].
  destruct (generateId r) as [i r']. exists i, r'. reflexivity.
Qed.

Lemma nai_roundtrip_run segs :
  Forall nai_roundtrip_segment segs ->
  forall acc b0 r, forallb is_space b0 = true ->
  exists st',
    nai_run {| NovelAI.segments := acc; NovelAI.curlyDepth := 0;
               NovelAI.squareDepth := 0; NovelAI.activeBaseWeight := one;
               NovelAI.buffer := b0; NovelAI.rng := r |}
            (join (js ", ") (map renderNovelAI segs)) = Some st'
    /\ map erase_id (NovelAI.segments (NovelAI.flush st'))
       = map erase_id acc ++ map nai_rescanned segs.
Proof.
  induction 1 as [|s l Hs Hl IH]; intros acc b0 r Hb.
  - eexists. split; [reflexivity|]. rewrite nai_flush_blank by exact Hb.
    cbn. now rewrite app_nil_r.
  - destruct (nai_roundtrip_cases s Hs)
      as (content & w & Hc & Hw & Hne & Htrim
          & [(-> & Hty & Hsafe & Hr)
            | (Hty & Hne1 & Hsafe & Hdl & Hpf & Hnan & Hfix & Hr)]).
    + (* a tag of weight 1 *)
      destruct (nai_flush_plain_segment acc b0 content r Hb Hne Htrim)
        as (i & r' & Hf).
      assert (Eseg : erase_id
          {| seg_id := i; seg_type := TText; seg_raw := content;
             seg_content := Some content; seg_weight := Some one |}
          = nai_rescanned s).
      { unfold nai_rescanned, erase_id.
        cbn [seg_id seg_type seg_raw seg_content seg_weight].
        now rewrite Hty, Hc, Hw. }
      destruct l as [|s2 l2].
      * cbn [map join]. rewrite Hr.
        pose proof (nai_run_plain content
          {| NovelAI.segments := acc; NovelAI.curlyDepth := 0;
             NovelAI.squareDepth := 0; NovelAI.activeBaseWeight := one;
             NovelAI.buffer := b0; NovelAI.rng := r |} [] Hsafe eq_refl) as R.
        rewrite app_nil_r in R. rewrite R.
        cbn [NovelAI.segments NovelAI.curlyDepth NovelAI.squareDepth
             NovelAI.activeBaseWeight NovelAI.buffer NovelAI.rng].
        eexists. split; [reflexivity|]. rewrite Hf.
        cbn [NovelAI.segments]. rewrite map_app. cbn [map].
        do 2 f_equal. apply Eseg.
      * cbn [map]. rewrite join_cons2, Hr.
        change (js ", " ++ join (js ", ")
                  (renderNovelAI s2 :: map renderNovelAI l2))
          with (44%N :: 32%N :: join (js ", ")
                  (map renderNovelAI (s2 :: l2))).
        rewrite (nai_run_before_comma content _ _ Hsafe).
        cbn [NovelAI.segments NovelAI.curlyDepth NovelAI.squareDepth
             NovelAI.activeBaseWeight NovelAI.buffer NovelAI.rng].
        rewrite nai_run_separator, Hf.
        destruct (IH (acc ++ [{| seg_id := i; seg_type := TText;
                                 seg_raw := content;
                                 seg_content := Some content;
                                 seg_weight := Some one |}])
                     [32%N] r' eq_refl) as (st' & Hrun & Hws).
        exists st'. split; [exact Hrun|]. rewrite Hws, map_app. cbn [map].
        rewrite <- app_assoc. cbn [app]. do 2 f_equal. apply Eseg.
    + (* a weighted tag *)
      assert (Eseg : forall i, erase_id
          {| seg_id := i;
             seg_type := if strict_eq w one then TText else TWeight;
             seg_raw := content; seg_content := Some content;
             seg_weight := Some w |}
          = nai_rescanned s).
      { intros i. unfold nai_rescanned, erase_id.
        cbn [seg_id seg_type seg_raw seg_content seg_weight].
        now rewrite Hty, Hc, Hw, Hne1. }
      destruct l as [|s2 l2].
      * cbn [map join]. rewrite Hr.
        destruct (nai_run_weighted acc b0 r (toString w) content w []
                    Hb Hdl Hpf Hnan Hfix Hsafe Hne Htrim)
          as (i & r' & Hrun).
        rewrite Hrun. eexists. split; [reflexivity|].
        rewrite nai_flush_empty by reflexivity.
        cbn [NovelAI.segments]. rewrite map_app. cbn [map].
        do 2 f_equal. apply Eseg.
      * cbn [map]. rewrite join_cons2, Hr.
        replace ((toString w ++ 58%N :: 58%N :: content ++ [58%N; 58%N])
                 ++ js ", " ++ join (js ", ")
                      (renderNovelAI s2 :: map renderNovelAI l2))
          with (toString w ++ 58%N :: 58%N :: content ++ 58%N :: 58%N ::
                44%N :: 32%N :: join (js ", ")
                  (map renderNovelAI (s2 :: l2)))
          by (rewrite <- app_assoc; cbn [app]; rewrite <- app_assoc;
              reflexivity).
        destruct (nai_run_weighted acc b0 r (toString w) content w
                    (44%N :: 32%N :: join (js ", ")
                       (map renderNovelAI (s2 :: l2)))
                    Hb Hdl Hpf Hnan Hfix Hsafe Hne Htrim)
          as (i & r' & Hrun).
        rewrite Hrun, nai_run_separator.
        rewrite nai_flush_empty by reflexivity.
        destruct (IH (acc ++ [{| seg_id := i;
                                 seg_type := if strict_eq w one
                                             then TText else TWeight;
                                 seg_raw := content;
                                 seg_content := Some content;
                                 seg_weight := Some w |}])
                     [32%N] r' eq_refl) as (st' & Hrun' & Hws).
        exists st'. split; [exact Hrun'|]. rewrite Hws, map_app. cbn [map].
        rewrite <- app_assoc. cbn [app]. do 2 f_equal. apply Eseg.
Qed.

Lemma renderNovelAI_rescanned s :
  nai_roundtrip_segment s -> renderNovelAI (nai_rescanned s) = renderNovelAI s.
Proof.
  intros (content & c & Hc & _ & _ & _ & Hne & _).
  unfold renderNovelAI, nai_rescanned.
  cbn [seg_type seg_weight seg_content seg_raw]. rewrite Hc.
  destruct content; [congruence|reflexivity].
Qed.

Lemma parseNovelAI_rendered segs r :
  Forall nai_roundtrip_segment segs ->
  map erase_id (fst (NovelAI.parseNovelAI r (segmentsToNovelAI segs)))
  = map nai_rescanned segs.
Proof.
  intros H. rewrite parseNovelAI_run. unfold segmentsToNovelAI.
  destruct (nai_roundtrip_run segs H [] [] r eq_refl) as (st' & R & Hw).
  change (NovelAI.init r)
    with {| NovelAI.segments := []; NovelAI.curlyDepth := 0;
            NovelAI.squareDepth := 0; NovelAI.activeBaseWeight := one;
            NovelAI.buffer := []; NovelAI.rng := r |}.
  rewrite R. exact Hw.
Qed.

(** X10. Scanning the NovelAI rendering of segments gives the segments back:
    for segments of weight 0.01 to 99.99 in steps of 0.01, of type [text]
    exactly at weight 1, whose contents are trimmed and free of the
    characters NovelAI reads as syntax, [parseNovelAI] of
    [segmentsToNovelAI] yields as many segments, with the same types,
    contents and weights, and rendering them again gives the same text. *)
Theorem format_a_roundtrip_segments segs r :
  Forall nai_roundtrip_segment segs ->
  let back := fst (NovelAI.parseNovelAI r (segmentsToNovelAI segs)) in
  map erase_id back = map nai_rescanned segs
  /\ map seg_type back = map seg_type segs
  /\ map seg_content back = map seg_content segs
  /\ map seg_weight back = map seg_weight segs
  /\ segmentsToNovelAI back = segmentsToNovelAI segs.
Proof.
  intros H. cbv zeta.
  pose proof (parseNovelAI_rendered segs r H) as E.
  split; [exact E|]. repeat split.
  - change seg_type with (fun s => seg_type (erase_id s)) at 1.
    rewrite <- (map_map erase_id seg_type), E, map_map. reflexivity.
  - change seg_content with (fun s => seg_content (erase_id s)) at 1.
    rewrite <- (map_map erase_id seg_content), E, map_map. reflexivity.
  - change seg_weight with (fun s => seg_weight (erase_id s)) at 1.
    rewrite <- (map_map erase_id seg_weight), E, map_map. reflexivity.
  - rewrite <- segmentsToNovelAI_erase, E. unfold segmentsToNovelAI.
    f_equal. rewrite map_map. apply map_ext_in. intros s Hin.
    apply renderNovelAI_rescanned. rewrite Forall_forall in H. now apply H.
Qed.

Lemma format_a_roundtrip_segments_witness :
  let segs :=
    [{| seg_id := []; seg_type := TWeight; seg_raw := js "1girl (solo)";
        seg_content := Some (js "1girl (solo)");
        seg_weight := Some (centi 130) |};
     {| seg_id := []; seg_type := TText; seg_raw := js "top 10";
        seg_content := Some (js "top 10"); seg_weight := Some (centi 100) |}] in
  segmentsToNovelAI
    (fst (NovelAI.parseNovelAI sample_rng (segmentsToNovelAI segs)))
  = segmentsToNovelAI segs.
Proof.
  refine (proj2 (proj2 (proj2 (proj2
            (format_a_roundtrip_segments _ sample_rng _))))).
  repeat constructor.
  - exists (js "1girl (solo)"), 130.
    repeat split; try reflexivity; try lia. discriminate.
  - exists (js "top 10"), 100.
    repeat split; try reflexivity; try lia. discriminate.
Defined.

(** ** Converting rendered prompts *)

Lemma segmentsToPixAI_nai_rescanned segs :
  segmentsToPixAI (map nai_rescanned segs) = segmentsToPixAI segs.
Proof.
  unfold segmentsToPixAI. f_equal.
  induction segs as [|s l IH]; [reflexivity|]. cbn [map filter].
  change (has_content (nai_rescanned s)) with (has_content s).
  destruct (has_content s); [|exact IH]. cbn [map]. now rewrite IH.
Qed.

Lemma nai_roundtrip_trimmed s : nai_roundtrip_segment s -> trimmed_content s.
Proof. intros (content & c & Hc & _ & _ & _ & _ & Ht & _). now exists content. Qed.

Lemma renderNovelAI_pix_rescanned s :
  nai_roundtrip_segment s -> renderNovelAI (rescanned s) = renderNovelAI s.
Proof.
  intros Hs. destruct (nai_roundtrip_cases s Hs)
    as (content & w & Hc & Hw & Hne & Htrim
        & [(-> & Hty & _) | (Hty & Hne1 & _)]);
    unfold renderNovelAI, rescanned;
    cbn [seg_type seg_weight seg_content seg_raw]; rewrite Hw, Hc, Hty.
  - destruct content; [congruence|reflexivity].
  - now rewrite Hne1.
Qed.

(** X11. For segments that both formats render and scan back, converting the
    rendering in one format gives the rendering in the other format, and
    converting that again gives the first text back. *)
Theorem rendered_prompt_cycle segs r r' :
  Forall nai_roundtrip_segment segs -> Forall roundtrip_segment segs ->
  fst (convertToPixAI r (segmentsToNovelAI segs)) = segmentsToPixAI segs
  /\ fst (convertToNovelAI r (segmentsToPixAI segs)) = segmentsToNovelAI segs
  /\ fst (convertToNovelAI r'
            (fst (convertToPixAI r (segmentsToNovelAI segs))))
     = segmentsToNovelAI segs
  /\ fst (convertToPixAI r'
            (fst (convertToNovelAI r (segmentsToPixAI segs))))
     = segmentsToPixAI segs.
Proof.
  intros Ha Hb.
  assert (Ht : Forall trimmed_content segs)
    by (eapply Forall_impl; [|exact Ha]; apply nai_roundtrip_trimmed).
  assert (A : forall r0,
            fst (convertToPixAI r0 (segmentsToNovelAI segs))
            = segmentsToPixAI segs).
  { intros r0. rewrite convertToPixAI_fst, <- segmentsToPixAI_erase.
    rewrite (parseNovelAI_rendered segs r0 Ha).
    apply segmentsToPixAI_nai_rescanned. }
  assert (B : forall r0,
            fst (convertToNovelAI r0 (segmentsToPixAI segs))
            = segmentsToNovelAI segs).
  { intros r0. rewrite convertToNovelAI_fst, <- segmentsToNovelAI_erase.
    rewrite (parsePixAI_rendered segs r0 Hb Ht).
    unfold segmentsToNovelAI. f_equal. rewrite map_map.
    apply map_ext_in. intros s Hin. apply renderNovelAI_pix_rescanned.
    rewrite Forall_forall in Ha. now apply Ha. }
  rewrite !A, !B. auto.
Qed.

Lemma rendered_prompt_cycle_witness :
  let segs :=
    [{| seg_id := []; seg_type := TWeight; seg_raw := js "1girl (solo)";
        seg_content := Some (js "1girl (solo)");
        seg_weight := Some (centi 130) |};
     {| seg_id := []; seg_type := TText; seg_raw := js "top 10";
        seg_content := Some (js "top 10"); seg_weight := Some (centi 100) |}] in
  fst (convertToNovelAI sample_rng
         (fst (convertToPixAI sample_rng (segmentsToNovelAI segs))))
  = segmentsToNovelAI segs.
Proof.
  refine (proj1 (proj2 (proj2
            (rendered_prompt_cycle _ sample_rng sample_rng _ _)))).
  - repeat constructor.
    + exists (js "1girl (solo)"), 130.
      repeat split; try reflexivity; try lia. discriminate.
    + exists (js "top 10"), 100.
      repeat split; try reflexivity; try lia. discriminate.
  - repeat constructor.
    + exists (js "1girl (solo)"), 130. repeat split; try reflexivity; lia.
    + exists (js "top 10"), 100. repeat split; try reflexivity; lia.
Defined.

(** ** The highlighter *)

Lemma one_finite : one = S754_finite false 4503599627370496 (-52).
Proof. vm_compute. reflexivity. Qed.

Lemma finite_above_or_below x q f :
  JsNumber.truthy x = true -> SFeqb x (S754_finite false q f) = false ->
  SFltb (S754_finite false q f) x = true
  \/ SFltb x (S754_finite false q f) = true.
Proof.
  unfold SFeqb, SFltb.
  destruct x as [s|[]| |[] m e]; try discriminate; unfold SFcompare; auto.
  intros _.
  rewrite (Z.compare_antisym e f).
  destruct (e ?= f) eqn:Ee; unfold CompOpp; auto.
  fold (Pos.compare m q). fold (Pos.compare q m).
  rewrite (Pos.compare_antisym m q).
  destruct (Pos.compare m q) eqn:Em; unfold CompOpp; auto.
Qed.

Lemma not_one_above_or_below x :
  JsNumber.truthy x = true -> strict_eq x one = false ->
  SFltb one x = true \/ SFltb x one = true.
Proof. rewrite one_finite. apply finite_above_or_below. Qed.

Lemma colours_distinct :
  PromptHighlighter.high <> PromptHighlighter.neutral
  /\ PromptHighlighter.low <> PromptHighlighter.neutral
  /\ PromptHighlighter.low <> PromptHighlighter.high.
Proof.
  repeat split; intros H; apply (f_equal (fun l => nth 3 l 0%N)) in H;
    vm_compute in H; discriminate H.
Qed.

Lemma getWeightColor_one :
  PromptHighlighter.getWeightColor one = PromptHighlighter.neutral.
Proof. vm_compute. reflexivity. Qed.

Lemma falsy_not_above x : JsNumber.truthy x = false -> SFltb one x = false.
Proof.
  rewrite one_finite. destruct x as [[]|[]| |? ? ?]; try discriminate;
    reflexivity.
Qed.

(** X12. The highlighter shows a segment as a badge in the neutral colour
    exactly when its weight is missing, zero or NaN, and in the high colour
    exactly when its weight is above 1. *)
Theorem highlighter_neutral_colour s k cls w c :
  PromptHighlighter.segmentSpan s = PromptHighlighter.Badge k cls w c ->
  w = seg_weight s
  /\ (cls = PromptHighlighter.neutral <->
      match w with Some x => JsNumber.truthy x = false | None => True end)
  /\ (cls = PromptHighlighter.high <->
      match w with Some x => SFltb one x = true | None => False end).
Proof.
  destruct colours_distinct as (Hn & Ln & Lh).
  unfold PromptHighlighter.segmentSpan.
  destruct (segment_type_eqb (seg_type s) TText
            || match seg_weight s with
               | Some w0 => strict_eq w0 one
               | None => false
               end) eqn:E; [discriminate|].
  intros H. injection H as _ <- <- _. split; [reflexivity|].
  apply orb_false_elim in E as [_ E].
  destruct (seg_weight s) as [x|]; cbn [weight_or_one].
  - destruct (JsNumber.truthy x) eqn:T.
    + unfold PromptHighlighter.getWeightColor.
      destruct (SFltb one x) eqn:G.
      * split; split; intros; congruence.
      * destruct (not_one_above_or_below x T E) as [G'|L]; [congruence|].
        rewrite L. split; split; intros; congruence.
    + rewrite getWeightColor_one, (falsy_not_above x T).
      split; split; intros; congruence.
  - rewrite getWeightColor_one. split; split; intros; try congruence; auto.
    contradiction.
Qed.

(** ** Identifiers *)

Lemma digit36_base36 d : 0 <= d < 36 -> is_base36 (digit36 d) = true.
Proof.
  intros H. unfold digit36, is_base36, is_digit.
  destruct (d <? 10) eqn:E.
  - apply Z.ltb_lt in E. apply orb_true_intro. left.
    apply andb_true_intro. split; apply N.leb_le; lia.
  - apply Z.ltb_ge in E. apply orb_true_intro. right.
    apply andb_true_intro. split; apply N.leb_le; lia.
Qed.

Lemma frac36_base36 fuel : forall p q,
  0 <= p < q -> forallb is_base36 (frac36 fuel p q) = true.
Proof.
  induction fuel as [|f IH]; intros p q H; [reflexivity|].
  cbn [frac36]. destruct (p =? 0); [reflexivity|]. cbn [forallb].
  rewrite IH by (apply Z.mod_pos_bound; lia).
  rewrite digit36_base36; [reflexivity|].
  split; [apply Z.div_pos; lia|apply Z.div_lt_upper_bound; lia].
Qed.

Lemma forallb_firstn {A} (p : A -> bool) n : forall l,
  forallb p l = true -> forallb p (firstn n l) = true.
Proof.
  induction n as [|n IH]; intros [|x l] H; try reflexivity.
  cbn [forallb firstn] in *. apply andb_prop in H as [Hx Hl].
  now rewrite Hx, IH.
Qed.

Lemma Math_random_range r :
  match fst (Math_random r) with
  | S754_zero _ => True
  | S754_finite false m e =>
      Zpos (digits2_pos m) + e <= 1
  | _ => False
  end.
Proof.
  unfold Math_random. cbn [fst]. unfold binary_normalize.
  pose proof (Z.mod_pos_bound (Z.of_N (draws r (pos r))) (2 ^ 53) eq_refl)
    as B.
  destruct (Z.of_N (draws r (pos r)) mod 2 ^ 53) as [|p|p]; [exact I| |lia].
  assert (D : Zpos (digits2_pos p) + -53 <= 0).
  { pose proof (Zdigits2_lt_pow (Zpos p) 53 ltac:(lia) ltac:(lia)) as D.
    change (Zdigits2 (Zpos p)) with (Zpos (digits2_pos p)) in D. lia. }
  pose proof (binary_round_bounded false p (-53) 0 D ltac:(lia)) as Bd.
  pose proof (binary_round_sign false p (-53)) as Sg.
  destruct (binary_round prec emax false p (-53)) as [s|s| |s m e];
    try contradiction; [exact I|].
  cbn [sign_is] in Sg. subst s. cbn [bounded_by] in Bd. lia.
Qed.

Lemma int36_small f n acc :
  (n <? 36) = true -> int36 (S f) n acc = digit36 n :: acc.
Proof. intros H. cbn [int36]. now rewrite H. Qed.

Lemma skipn_two {A} (a b : A) l : skipn 2 (a :: b :: l) = l.
Proof. reflexivity. Qed.

Lemma toString36_random x :
  match x with
  | S754_zero _ => True
  | S754_finite false m e => Zpos (digits2_pos m) + e <= 1
  | _ => False
  end ->
  forallb is_base36 (skipn 2 (toString36 x)) = true.
Proof.
  destruct x as [s|s| |[] m e]; try contradiction; [reflexivity|].
  intros H. unfold toString36.
  set (p := if 0 <=? e then Zpos m * 2 ^ e else Zpos m).
  set (q := if 0 <=? e then 1 else 2 ^ (- e)).
  assert (Hq : 0 < q).
  { unfold q. destruct (0 <=? e); [lia|]. apply Z.pow_pos_nonneg; lia. }
  assert (Hp : 0 <= p < 2 * q).
  { pose proof (Zdigits2_bounds (Zpos m) ltac:(lia)) as [_ U].
    change (Zdigits2 (Zpos m)) with (Zpos (digits2_pos m)) in U.
    unfold p, q. destruct (0 <=? e) eqn:E.
    - apply Z.leb_le in E. assert (e = 0) by lia. subst e.
      assert (Zpos (digits2_pos m) = 1) by lia.
      rewrite H0 in U. change (2 ^ 1) with 2 in U.
      rewrite Z.pow_0_r. lia.
    - apply Z.leb_gt in E. split; [lia|].
      assert (2 ^ Zpos (digits2_pos m) <= 2 ^ (1 + - e))
        by (apply Z.pow_le_mono_r; lia).
      rewrite Z.pow_add_r in H0 by lia. change (2 ^ 1) with 2 in H0. lia. }
  assert (Hd : (p / q <? 36) = true).
  { apply Z.ltb_lt, Z.div_lt_upper_bound; lia. }
  rewrite (int36_small _ _ _ Hd), app_nil_l.
  destruct (p mod q =? 0); [reflexivity|].
  change (js ".") with [46%N].
  rewrite <- app_comm_cons, app_nil_l, <- app_comm_cons, app_nil_l, skipn_two.
  apply frac36_base36. apply Z.mod_pos_bound. lia.
Qed.

(** X13. An identifier has at most nine characters, all of them digits or
    lower case letters, and costs one draw of the generator. *)
Theorem generateId_alphabet r :
  (List.length (fst (generateId r)) <= 9)%nat
  /\ forallb is_base36 (fst (generateId r)) = true
  /\ draws (snd (generateId r)) = draws r
  /\ pos (snd (generateId r)) = S (pos r).
Proof.
  pose proof (generateId_rng r) as [Hd Hp].
  pose proof (Math_random_range r) as Hr.
  unfold generateId in *. destruct (Math_random r) as [x r'].
  cbn [fst snd] in *. unfold substr. repeat split; try assumption.
  - rewrite length_firstn. lia.
  - apply forallb_firstn. now apply toString36_random.
Qed.

Lemma highlighter_neutral_colour_witness :
  PromptHighlighter.neutral = PromptHighlighter.neutral <->
  JsNumber.truthy (S754_zero false) = false.
Proof.
  exact (proj1 (proj2 (highlighter_neutral_colour
           {| seg_id := []; seg_type := TWeight; seg_raw := js "tag";
              seg_content := Some (js "tag");
              seg_weight := Some (S754_zero false) |}
           [] PromptHighlighter.neutral (Some (S754_zero false))
           (Some (js "tag")) eq_refl))).
Defined.

(** ** Closing brackets in a PixAI prompt *)

Lemma pix_plain_depths st c :
  0 <= PixAI.parenDepth st -> 0 <= PixAI.squareDepth st ->
  0 <= PixAI.parenDepth (PixAI.plain st c)
  /\ 0 <= PixAI.squareDepth (PixAI.plain st c).
Proof.
  intros Hp Hs. pose proof (pix_flush_depths None st) as [Ep Es].
  unfold PixAI.plain.
  repeat match goal with |- context [if ?x then _ else _] => destruct x end;
    cbn [PixAI.setDepths PixAI.append PixAI.parenDepth PixAI.squareDepth];
    rewrite ?Ep, ?Es; lia.
Qed.

Lemma pix_step_depths st c tl :
  0 <= PixAI.parenDepth st /\ 0 <= PixAI.squareDepth st ->
  0 <= PixAI.parenDepth (fst (PixAI.step st c tl))
  /\ 0 <= PixAI.squareDepth (fst (PixAI.step st c tl)).
Proof.
  intros [Hp Hs]. pose proof (pix_plain_depths st c Hp Hs) as HP.
  pose proof (pix_flush_depths None st) as [Ep Es].
  unfold PixAI.step. destruct (c =? 92)%N; [destruct tl as [|d tl']|];
    try (cbn [fst PixAI.append PixAI.parenDepth PixAI.squareDepth]; lia);
    destruct (c =? 40)%N; try exact HP;
    match goal with |- context [explicitWeightRegex ?t] =>
      destruct (explicitWeightRegex t) as [[[bd ns] len]|] end;
    try exact HP;
    cbn [fst]; unfold PixAI.explicitWeight;
    destruct (generateId _) as [i r'];
    cbn [PixAI.parenDepth PixAI.squareDepth]; rewrite Ep, Es; lia.
Qed.

(** Closing brackets scanned at depth zero from an empty buffer change
    nothing. *)
Lemma pix_run_unmatched n m : forall st tl,
  PixAI.buffer st = [] -> PixAI.parenDepth st = 0 ->
  PixAI.squareDepth st = 0 ->
  pix_run st (repeat 41%N n ++ repeat 93%N m ++ tl) = pix_run st tl.
Proof.
  intros st tl Hb Hp Hs.
  assert (F : PixAI.flush None st = st) by now apply pix_flush_empty.
  assert (S1 : forall t, PixAI.step st 41%N t = (st, t)).
  { intros t. change (PixAI.step st 41%N t) with (PixAI.plain st 41%N, t).
    unfold PixAI.plain. change ((41 =? 40)%N) with false.
    change ((41 =? 41)%N) with true. cbv iota zeta.
    rewrite F, Hp. destruct st; cbn in *. now subst. }
  assert (S2 : forall t, PixAI.step st 93%N t = (st, t)).
  { intros t. change (PixAI.step st 93%N t) with (PixAI.plain st 93%N, t).
    unfold PixAI.plain. change ((93 =? 40)%N) with false.
    change ((93 =? 41)%N) with false. change ((93 =? 91)%N) with false.
    change ((93 =? 93)%N) with true. cbv iota zeta.
    rewrite F, Hs. destruct st; cbn in *. now subst. }
  induction n as [|n IH].
  - cbn [repeat app]. induction m as [|m IHm]; [reflexivity|].
    cbn [repeat app]. now rewrite pix_run_cons, S2.
  - cbn [repeat app]. now rewrite pix_run_cons, S1.
Qed.

(** X14. [parsePixAI] never takes a depth below zero: the loop ends, on every
    text, in a state whose two depths are at least zero; closing brackets
    in front of a text, which no bracket opens, change nothing of its
    segments. *)
Theorem pixai_depth_floor r text n m :
  (exists st,
     PixAI.scan (List.length text) (PixAI.init r) text = Some st
     /\ 0 <= PixAI.parenDepth st /\ 0 <= PixAI.squareDepth st)
  /\ fst (PixAI.parsePixAI r (repeat 41%N n ++ repeat 93%N m ++ text))
     = fst (PixAI.parsePixAI r text).
Proof.
  split.
  - destruct (pix_scan_total (List.length text) (PixAI.init r) text (le_n _))
      as [st E].
    exists st. split; [exact E|].
    refine (pix_scan_inv
              (fun st => 0 <= PixAI.parenDepth st /\ 0 <= PixAI.squareDepth st)
              pix_step_depths _ _ _ _ _ E).
    cbn. lia.
  - rewrite !parsePixAI_run.
    now rewrite (pix_run_unmatched n m (PixAI.init r) text).
Qed.

(** ** A weight of zero *)

Lemma nai_resolved_zero :
  roundWeight (mul (mul (parseFloat (js "0")) (Math_pow (lit "1.05") 0))
                   (Math_pow (lit "0.95") 0)) = S754_zero false.
Proof. vm_compute. reflexivity. Qed.

Lemma parseFloat_zero : parseFloat (js "0") = S754_zero false.
Proof. vm_compute. reflexivity. Qed.

(** X15. A tag under the base weight [0::] is scanned with the weight 0, and
    [segmentsToPixAI] renders it without weight, as it renders a tag of
    weight 1. *)
Theorem zero_weight_rendered_plain r tag :
  forallb nai_plain_char tag = true -> nonblank tag = true ->
  map erase_id (fst (NovelAI.parseNovelAI r (js "0::" ++ tag)))
  = [{| seg_id := []; seg_type := TWeight; seg_raw := trim tag;
        seg_content := Some (trim tag);
        seg_weight := Some (S754_zero false) |}]
  /\ fst (convertToPixAI r (js "0::" ++ tag)) = escapePixAI (trim tag).
Proof.
  intros Hp Hn.
  assert (E : map erase_id (fst (NovelAI.parseNovelAI r (js "0::" ++ tag)))
              = [{| seg_id := []; seg_type := TWeight; seg_raw := trim tag;
                    seg_content := Some (trim tag);
                    seg_weight := Some (S754_zero false) |}]).
  { rewrite parseNovelAI_run.
    change (js "0::" ++ tag) with (48%N :: [] ++ 58%N :: 58%N :: tag).
    rewrite nai_run_cons, (nai_step_token _ 48%N [] tag eq_refl).
    cbn [fst snd]. unfold NovelAI.weightControl.
    rewrite nai_flush_empty by reflexivity.
    cbn [NovelAI.init NovelAI.segments NovelAI.buffer NovelAI.rng
         NovelAI.activeBaseWeight].
    change (parseFloat [48%N]) with (parseFloat (js "0")).
    rewrite parseFloat_zero. cbn [is_nan negb].
    pose proof (nai_run_plain tag
      {| NovelAI.segments := []; NovelAI.curlyDepth := 0;
         NovelAI.squareDepth := 0;
         NovelAI.activeBaseWeight := S754_zero false;
         NovelAI.buffer := []; NovelAI.rng := r |} [] Hp eq_refl) as R.
    rewrite app_nil_r in R. rewrite R.
    cbn [nai_run List.length NovelAI.scan NovelAI.segments NovelAI.curlyDepth
         NovelAI.squareDepth NovelAI.activeBaseWeight NovelAI.buffer
         NovelAI.rng app].
    unfold NovelAI.flush, NovelAI.resolvedWeight.
    cbn [NovelAI.segments NovelAI.curlyDepth NovelAI.squareDepth
         NovelAI.activeBaseWeight NovelAI.buffer NovelAI.rng].
    unfold nonblank in Hn. rewrite Hn.
    rewrite <- parseFloat_zero, nai_resolved_zero.
    destruct (generateId r) as [i r']. reflexivity. }
  split; [exact E|].
  rewrite convertToPixAI_fst, <- segmentsToPixAI_erase, E.
  unfold segmentsToPixAI. cbn [filter].
  assert (Hc : has_content
            {| seg_id := []; seg_type := TWeight; seg_raw := trim tag;
               seg_content := Some (trim tag);
               seg_weight := Some (S754_zero false) |} = true).
  { unfold has_content, nonblank in *. cbn [seg_content]. rewrite Hn.
    apply trim_trim_truthy in Hn.
    destruct (trim (trim tag)); [discriminate|reflexivity]. }
  rewrite Hc. reflexivity.
Qed.

Lemma zero_weight_rendered_plain_witness :
  fst (convertToPixAI sample_rng (js "0::blurry (bg)")) = js "blurry \(bg\)".
Proof.
  exact (proj2 (zero_weight_rendered_plain sample_rng (js "blurry (bg)")
                  eq_refl eq_refl)).
Defined.

(** ** The earlier revision of parseNovelAI *)

Lemma legacy_step_shrinks st c tl :
  (List.length (snd (Legacy.step st c tl)) <= List.length tl)%nat.
Proof.
  unfold Legacy.step. destruct (weightControlRegex (c :: tl)) as [[ns len]|] eqn:E.
  - simpl. unfold weightControlRegex in E.
    destruct (span is_digit (c :: tl)) as [ip r1].
    destruct (fraction_opt r1) as [fp r2].
    destruct (starts_with (js "::") r2); [|discriminate].
    injection E as _ <-. rewrite Nat.add_comm.
    exact (skipn_length_le (S (List.length (ip ++ fp))) tl).
  - repeat match goal with |- context [if ?x then _ else _] => destruct x end;
      simpl; lia.
Qed.

Lemma legacy_scan_total fuel : forall st rest,
  (List.length rest <= fuel)%nat ->
  exists st', Legacy.scan fuel st rest = Some st'.
Proof.
  induction fuel as [|f IH]; intros st [|c tl] H; simpl in *; eauto; try lia.
  pose proof (legacy_step_shrinks st c tl) as Hs.
  destruct (Legacy.step st c tl) as [st' rest']. simpl in Hs. apply IH. lia.
Qed.

Lemma legacy_scan_inv (P : Legacy.State -> Prop) :
  (forall st c tl, P st -> P (fst (Legacy.step st c tl))) ->
  forall fuel st rest st',
    P st -> Legacy.scan fuel st rest = Some st' -> P st'.
Proof.
  intros Hstep. induction fuel as [|f IH]; intros st [|c tl] st' HP H;
    simpl in H; try discriminate; try (injection H as <-; exact HP).
  - specialize (Hstep st c tl HP).
    destruct (Legacy.step st c tl) as [s1 r1]. simpl in Hstep.
    exact (IH _ _ _ Hstep H).
Qed.

Lemma legacy_scan_fuel f1 : forall f2 st rest,
  (List.length rest <= f1)%nat -> (List.length rest <= f2)%nat ->
  Legacy.scan f1 st rest = Legacy.scan f2 st rest.
Proof.
  induction f1 as [|f1 IH]; intros [|f2] st [|c tl] H1 H2; simpl in *;
    try reflexivity; try lia.
  pose proof (legacy_step_shrinks st c tl) as Hs.
  destruct (Legacy.step st c tl) as [st' rest']. simpl in Hs.
  apply IH; lia.
Qed.

Lemma legacy_run_cons st c tl :
  legacy_run st (c :: tl) =
  legacy_run (fst (Legacy.step st c tl)) (snd (Legacy.step st c tl)).
Proof.
  unfold legacy_run. simpl.
  pose proof (legacy_step_shrinks st c tl) as Hs.
  destruct (Legacy.step st c tl) as [st' rest']. simpl in *.
  apply legacy_scan_fuel; lia.
Qed.

Lemma legacy_parse_run r text :
  fst (Legacy.parseNovelAI r text) =
  match legacy_run (Legacy.init r) text with
  | Some st => Legacy.segments (Legacy.flush st)
  | None => []
  end.
Proof.
  unfold Legacy.parseNovelAI, legacy_run.
  destruct text as [|c tl]; [reflexivity|].
  cbn [JsString.truthy negb].
  destruct (Legacy.scan _ _ _); reflexivity.
Qed.

Lemma legacy_flush_fields st :
  Legacy.curlyDepth (Legacy.flush st) = Legacy.curlyDepth st
  /\ Legacy.squareDepth (Legacy.flush st) = Legacy.squareDepth st
  /\ Legacy.currentBaseWeight (Legacy.flush st) = Legacy.currentBaseWeight st
  /\ Legacy.buffer (Legacy.flush st) = [].
Proof.
  unfold Legacy.flush. destruct (JsString.truthy _);
    [destruct (generateId _)|]; cbn; auto.
Qed.

Lemma legacy_flush_empty st :
  Legacy.buffer st = [] -> Legacy.flush st = st.
Proof. destruct st. simpl. intros ->. reflexivity. Qed.

Lemma legacy_step_depths st c tl :
  0 <= Legacy.curlyDepth st /\ 0 <= Legacy.squareDepth st ->
  0 <= Legacy.curlyDepth (fst (Legacy.step st c tl))
  /\ 0 <= Legacy.squareDepth (fst (Legacy.step st c tl)).
Proof.
  intros [Hc Hs]. pose proof (legacy_flush_fields st) as (Ec & Es & _).
  unfold Legacy.step. cbv zeta.
  destruct (weightControlRegex (c :: tl)) as [[o len]|];
    [cbn [fst Legacy.weightControl Legacy.curlyDepth Legacy.squareDepth];
     rewrite Ec, Es; lia|].
  repeat match goal with |- context [if ?x then _ else _] => destruct x end;
    cbn [fst Legacy.setDepths Legacy.append Legacy.curlyDepth
         Legacy.squareDepth]; rewrite ?Ec, ?Es; lia.
Qed.

Lemma legacy_step_append st (c : cu) tl :
  weightControlRegex (c :: tl) = None -> nai_plain_char c = true ->
  Legacy.step st c tl = (Legacy.append c st, tl).
Proof.
  intros E Hc. unfold Legacy.step. cbv zeta. rewrite E.
  destruct (nai_plain_char_cases c Hc) as (_ & -> & -> & -> & -> & ->).
  reflexivity.
Qed.

Lemma legacy_run_plain tag : forall st,
  forallb nai_plain_char tag = true ->
  legacy_run st tag =
  Some {| Legacy.segments := Legacy.segments st;
          Legacy.currentBaseWeight := Legacy.currentBaseWeight st;
          Legacy.curlyDepth := Legacy.curlyDepth st;
          Legacy.squareDepth := Legacy.squareDepth st;
          Legacy.buffer := Legacy.buffer st ++ tag;
          Legacy.rng := Legacy.rng st |}.
Proof.
  induction tag as [|c tag IH]; intros st H.
  - cbn. rewrite app_nil_r. now destruct st.
  - cbn [forallb] in H. apply andb_prop in H as [Hc Hs].
    rewrite legacy_run_cons, legacy_step_append; [| |exact Hc].
    + cbn [fst snd]. rewrite (IH _ Hs). unfold Legacy.append. cbn.
      now rewrite <- app_assoc.
    + apply weightControlRegex_no_colon. cbn [forallb].
      rewrite (nai_plain_char_no_colon tag Hs), andb_true_r.
      unfold not_colon. now destruct (nai_plain_char_cases c Hc) as (-> & _).
Qed.

Lemma legacy_step_open st tl :
  Legacy.step st 123%N tl
  = (Legacy.setDepths (Legacy.curlyDepth (Legacy.flush st) + 1)
       (Legacy.squareDepth (Legacy.flush st)) (Legacy.flush st), tl)
  /\ Legacy.step st 91%N tl
     = (Legacy.setDepths (Legacy.curlyDepth (Legacy.flush st))
          (Legacy.squareDepth (Legacy.flush st) + 1) (Legacy.flush st), tl).
Proof. split; reflexivity. Qed.

Lemma legacy_run_open n m : forall st tl,
  Legacy.buffer st = [] ->
  legacy_run st (repeat 123%N n ++ repeat 91%N m ++ tl) =
  legacy_run {| Legacy.segments := Legacy.segments st;
                Legacy.currentBaseWeight := Legacy.currentBaseWeight st;
                Legacy.curlyDepth := Legacy.curlyDepth st + Z.of_nat n;
                Legacy.squareDepth := Legacy.squareDepth st + Z.of_nat m;
                Legacy.buffer := []; Legacy.rng := Legacy.rng st |} tl.
Proof.
  induction n as [|n IHn].
  - induction m as [|m IHm]; intros st tl Hb.
    + cbn [repeat app Z.of_nat]. rewrite !Z.add_0_r. destruct st.
      cbn in *. now subst.
    + cbn [repeat app]. rewrite legacy_run_cons.
      destruct (legacy_step_open st (repeat 91%N m ++ tl)) as [_ ->].
      cbn [fst snd]. rewrite (legacy_flush_empty st Hb).
      pose proof (IHm (Legacy.setDepths (Legacy.curlyDepth st)
                         (Legacy.squareDepth st + 1) st) tl Hb) as R.
      cbn [repeat app] in R. rewrite R.
      cbn [Legacy.setDepths Legacy.segments Legacy.currentBaseWeight
           Legacy.curlyDepth Legacy.squareDepth Legacy.rng].
      do 2 f_equal; lia.
  - intros st tl Hb. cbn [repeat app]. rewrite legacy_run_cons.
    destruct (legacy_step_open st (repeat 123%N n ++ repeat 91%N m ++ tl))
      as [-> _].
    cbn [fst snd]. rewrite (legacy_flush_empty st Hb).
    rewrite (IHn (Legacy.setDepths (Legacy.curlyDepth st + 1)
                    (Legacy.squareDepth st) st) tl Hb).
    cbn [Legacy.setDepths Legacy.segments Legacy.currentBaseWeight
         Legacy.curlyDepth Legacy.squareDepth Legacy.rng].
    do 2 f_equal; lia.
Qed.

(** X16. The earlier [parseNovelAI] of src/utils/converter.ts keeps its depths
    at zero or above on every text, and resolves a tag behind [n] opening
    braces and [m] opening square brackets to the weight
    1 + (n * 0.1 - m * 0.1), rounded to three decimals. *)
Theorem legacy_additive_weight r text n m tag :
  (exists st,
     Legacy.scan (List.length text) (Legacy.init r) text = Some st
     /\ 0 <= Legacy.curlyDepth st /\ 0 <= Legacy.squareDepth st)
  /\ (forallb nai_plain_char tag = true -> nonblank tag = true ->
      map seg_weight
        (fst (Legacy.parseNovelAI r
                (repeat 123%N n ++ repeat 91%N m ++ tag)))
      = [Some
           (div
              (Math_round
                 (mul
                    (Legacy.add one
                       (Legacy.sub
                          (mul (of_Z (Z.of_nat n)) (lit "0.1"))
                          (mul (of_Z (Z.of_nat m)) (lit "0.1"))))
                    Legacy.thousand))
              Legacy.thousand)]).
Proof.
  split.
  - destruct (legacy_scan_total (List.length text) (Legacy.init r) text
                (le_n _)) as [st E].
    exists st. split; [exact E|].
    refine (legacy_scan_inv
              (fun st => 0 <= Legacy.curlyDepth st
                         /\ 0 <= Legacy.squareDepth st)
              legacy_step_depths _ _ _ _ _ E).
    cbn. lia.
  - intros Hp Hn. rewrite legacy_parse_run.
    rewrite (legacy_run_open n m (Legacy.init r) tag eq_refl).
    rewrite (legacy_run_plain tag _ Hp).
    unfold Legacy.flush, Legacy.resolvedWeight.
    cbn [Legacy.init Legacy.segments Legacy.currentBaseWeight
         Legacy.curlyDepth Legacy.squareDepth Legacy.buffer Legacy.rng app].
    unfold nonblank in Hn. rewrite Hn.
    destruct (generateId r) as [i r']. reflexivity.
Qed.

Lemma legacy_additive_weight_witness :
  map seg_weight (fst (Legacy.parseNovelAI sample_rng (js "{{[tag")))
  = [Some
       (div
          (Math_round
             (mul
                (Legacy.add one
                   (Legacy.sub (mul (of_Z 2) (lit "0.1"))
                               (mul (of_Z 1) (lit "0.1"))))
                Legacy.thousand))
          Legacy.thousand)].
Proof.
  exact (proj2 (legacy_additive_weight sample_rng [] 2 1 (js "tag"))
           eq_refl eq_refl).
Defined.

(** ** Groups of tags in brackets *)

Lemma nai_flush_at segs dc ds buf r :
  exists segs' r',
    NovelAI.flush
      {| NovelAI.segments := segs; NovelAI.curlyDepth := dc;
         NovelAI.squareDepth := ds; NovelAI.activeBaseWeight := one;
         NovelAI.buffer := buf; NovelAI.rng := r |}
    = {| NovelAI.segments := segs'; NovelAI.curlyDepth := dc;
         NovelAI.squareDepth := ds; NovelAI.activeBaseWeight := one;
         NovelAI.buffer := []; NovelAI.rng := r' |}
    /\ map erase_id segs'
       = map erase_id segs
         ++ map (nai_group_segment dc ds) (filter nonblank [buf]).
Proof.
  unfold NovelAI.flush, NovelAI.resolvedWeight, nonblank.
  cbn [NovelAI.buffer NovelAI.segments NovelAI.curlyDepth NovelAI.squareDepth
       NovelAI.activeBaseWeight NovelAI.rng filter].
  destruct (JsString.truthy (trim buf)).
  - destruct (generateId r) as [i r']. eexists _, r'. split; [reflexivity|].
    rewrite map_app. reflexivity.
  - exists segs, r. split; [reflexivity|]. cbn. now rewrite app_nil_r.
Qed.

Lemma not_colon_app (a b : jsstring) :
  forallb not_colon a = true -> forallb not_colon b = true ->
  forallb not_colon (a ++ b) = true.
Proof. intros Ha Hb. now rewrite forallb_app, Ha, Hb. Qed.

Lemma not_colon_repeat (c : cu) k :
  not_colon c = true -> forallb not_colon (repeat c k) = true.
Proof.
  intros H. induction k as [|k IH]; [reflexivity|]. cbn [repeat forallb].
  now rewrite H, IH.
Qed.

(** Tags between commas, scanned at fixed depths in front of colon-free
    text. *)
Lemma nai_run_tags_at (tags : list jsstring) : forall segs dc ds r tl,
  forallb (forallb nai_plain_char) tags = true ->
  forallb not_colon tl = true ->
  exists segs' buf r',
    nai_run {| NovelAI.segments := segs; NovelAI.curlyDepth := dc;
               NovelAI.squareDepth := ds; NovelAI.activeBaseWeight := one;
               NovelAI.buffer := []; NovelAI.rng := r |}
            (join [44%N] tags ++ tl)
    = nai_run {| NovelAI.segments := segs'; NovelAI.curlyDepth := dc;
                 NovelAI.squareDepth := ds; NovelAI.activeBaseWeight := one;
                 NovelAI.buffer := buf; NovelAI.rng := r' |} tl
    /\ map erase_id segs' ++ map (nai_group_segment dc ds) (filter nonblank [buf])
       = map erase_id segs
         ++ map (nai_group_segment dc ds) (filter nonblank tags).
Proof.
  induction tags as [|t tags IH]; intros segs dc ds r tl H Htl.
  - exists segs, [], r. split; [reflexivity|]. reflexivity.
  - cbn [forallb] in H. apply andb_prop in H as [Ht Hs].
    destruct tags as [|t2 tags].
    + cbn [join]. rewrite (nai_run_plain t _ tl Ht Htl).
      cbn [NovelAI.segments NovelAI.curlyDepth NovelAI.squareDepth
           NovelAI.activeBaseWeight NovelAI.buffer NovelAI.rng app].
      exists segs, t, r. split; reflexivity.
    + rewrite join_cons2, <- !app_assoc.
      pose proof (join_no_colon (t2 :: tags) Hs) as Hj.
      assert (Hjl : forallb not_colon (join [44%N] (t2 :: tags) ++ tl) = true)
        by now apply not_colon_app.
      rewrite (nai_run_plain t _ _ Ht)
        by (cbn [app forallb]; exact Hjl).
      cbn [NovelAI.segments NovelAI.curlyDepth NovelAI.squareDepth
           NovelAI.activeBaseWeight NovelAI.buffer NovelAI.rng app].
      rewrite nai_run_cons, (nai_step_comma _ _ Hjl). cbn [fst snd].
      destruct (nai_flush_at segs dc ds t r) as (segs1 & r1 & -> & E1).
      destruct (IH segs1 dc ds r1 tl Hs Htl) as (segs' & buf & r' & R & E).
      exists segs', buf, r'. split; [exact R|].
      rewrite E, E1. cbn [filter].
      destruct (nonblank t); cbn [map app]; rewrite <- app_assoc;
        reflexivity.
Qed.

(** Closing brackets after the last tag flush it and emit nothing more. *)
Lemma nai_run_closers k j : forall st,
  exists st',
    nai_run st (repeat 93%N k ++ repeat 125%N j) = Some st'
    /\ NovelAI.segments (NovelAI.flush st')
       = NovelAI.segments (NovelAI.flush st).
Proof.
  assert (F : forall st, NovelAI.flush (NovelAI.flush st) = NovelAI.flush st).
  { intros st. apply nai_flush_empty.
    now destruct (nai_flush_fields st) as (_ & _ & _ & ->). }
  assert (B : forall dc ds st,
            NovelAI.segments (NovelAI.flush (NovelAI.bracket dc ds st))
            = NovelAI.segments (NovelAI.flush st)).
  { intros dc ds st. unfold NovelAI.bracket.
    destruct (nai_flush_fields st) as (_ & _ & _ & Eb).
    unfold NovelAI.flush at 1. cbn [NovelAI.buffer NovelAI.segments].
    rewrite Eb. reflexivity. }
  induction k as [|k IH].
  - induction j as [|j IHj]; intros st.
    + exists st. split; reflexivity.
    + cbn [repeat app]. rewrite nai_run_cons.
      destruct (nai_step_bracket st (repeat 125%N j)) as (_ & -> & _).
      cbn [fst snd].
      destruct (IHj (NovelAI.bracket (-1) 0 st)) as (st' & R & E).
      cbn [repeat app] in R. exists st'. split; [exact R|]. now rewrite E, B.
  - intros st. cbn [repeat app]. rewrite nai_run_cons.
    destruct (nai_step_bracket st (repeat 93%N k ++ repeat 125%N j))
      as (_ & _ & _ & ->).
    cbn [fst snd].
    destruct (IH (NovelAI.bracket 0 (-1) st)) as (st' & R & E).
    exists st'. split; [exact R|]. now rewrite E, B.
Qed.

(** X18. A group of tags in NovelAI brackets: after [n] opening braces and
    [m] opening square brackets, every non-blank tag between the commas is
    scanned with the weight 1.05 to the [n] times 0.95 to the [m], rounded,
    whatever closing brackets follow the last tag. *)
Theorem novelai_group_weight r n m k j tags :
  forallb (forallb nai_plain_char) tags = true ->
  map erase_id
    (fst (NovelAI.parseNovelAI r
            (repeat 123%N n ++ repeat 91%N m ++ join (js ",") tags
               ++ repeat 93%N k ++ repeat 125%N j)))
  = map (nai_group_segment (Z.of_nat n) (Z.of_nat m)) (filter nonblank tags).
Proof.
  intros H. rewrite parseNovelAI_run.
  rewrite (nai_run_open n m (NovelAI.init r) _ eq_refl).
  cbn [NovelAI.init NovelAI.segments NovelAI.curlyDepth NovelAI.squareDepth
       NovelAI.activeBaseWeight NovelAI.rng Z.add].
  assert (Hcl : forallb not_colon (repeat 93%N k ++ repeat 125%N j) = true)
    by (apply not_colon_app; now apply not_colon_repeat).
  change (js ",") with [44%N].
  destruct (nai_run_tags_at tags [] (Z.of_nat n) (Z.of_nat m) r _ H Hcl)
    as (segs' & buf & r' & -> & E).
  destruct (nai_run_closers k j
              {| NovelAI.segments := segs'; NovelAI.curlyDepth := Z.of_nat n;
                 NovelAI.squareDepth := Z.of_nat m;
                 NovelAI.activeBaseWeight := one; NovelAI.buffer := buf;
                 NovelAI.rng := r' |}) as (st' & -> & Es).
  rewrite Es.
  destruct (nai_flush_at segs' (Z.of_nat n) (Z.of_nat m) buf r')
    as (segs2 & r2 & -> & E2).
  cbn [NovelAI.segments]. rewrite E2, E. reflexivity.
Qed.

Lemma novelai_group_weight_witness :
  map erase_id (fst (NovelAI.parseNovelAI sample_rng (js "{{[cat, ,dog]}")))
  = [nai_group_segment 2 1 (js "cat"); nai_group_segment 2 1 (js "dog")].
Proof.
  exact (novelai_group_weight sample_rng 2 1 1 1
           [js "cat"; js " "; js "dog"] eq_refl).
Defined.

(** The explicit weight pattern needs a colon. *)
Lemma explicitWeightRegex_no_colon s :
  forallb not_colon s = true -> explicitWeightRegex (40%N :: s) = None.
Proof.
  intros H. unfold explicitWeightRegex. change ((40 =? 40)%N) with true.
  cbv iota. pose proof (content_run_eq _ s (le_n _)) as E.
  destruct (content_run s) as [body r1]. cbn [fst snd] in E.
  destruct body as [|b body]; [reflexivity|].
  destruct r1 as [|colon r2]; [reflexivity|].
  destruct (colon =? 58)%N eqn:Ec; [|reflexivity].
  exfalso. apply N.eqb_eq in Ec. subst colon s.
  rewrite forallb_app in H. apply andb_prop in H as [_ H]. discriminate.
Qed.

Lemma pix_flush_at segs dp ds buf r :
  forallb pix_group_char buf = true ->
  exists segs' r',
    PixAI.flush None
      {| PixAI.segments := segs; PixAI.parenDepth := dp;
         PixAI.squareDepth := ds; PixAI.buffer := buf; PixAI.rng := r |}
    = {| PixAI.segments := segs'; PixAI.parenDepth := dp;
         PixAI.squareDepth := ds; PixAI.buffer := []; PixAI.rng := r' |}
    /\ map erase_id segs'
       = map erase_id segs
         ++ map (pix_group_segment dp ds) (filter nonblank [buf]).
Proof.
  intros Hp.
  assert (Hpl : forallb pix_plain_char buf = true).
  { clear -Hp. induction buf as [|c b IH]; [reflexivity|].
    cbn [forallb] in *. apply andb_prop in Hp as [Hc Hb].
    unfold pix_group_char in Hc. apply andb_prop in Hc as [-> _].
    now rewrite IH. }
  unfold PixAI.flush, PixAI.ambientWeight, nonblank.
  cbn [PixAI.buffer PixAI.segments PixAI.parenDepth PixAI.squareDepth
       PixAI.rng filter].
  rewrite (unescapePixAI_no_backslash (trim buf))
    by (apply forallb_trim; now apply pix_plain_char_no_backslash).
  destruct (JsString.truthy (trim buf)).
  - destruct (generateId r) as [i r']. eexists _, r'. split; [reflexivity|].
    rewrite map_app. reflexivity.
  - exists segs, r. split; [reflexivity|]. cbn. now rewrite app_nil_r.
Qed.

Lemma pix_group_plain s :
  forallb pix_group_char s = true -> forallb pix_plain_char s = true.
Proof.
  induction s as [|c b IH]; [reflexivity|]. cbn [forallb]. intros H.
  apply andb_prop in H as [Hc Hb]. unfold pix_group_char in Hc.
  apply andb_prop in Hc as [-> _]. now rewrite IH.
Qed.

Lemma pix_group_no_colon s :
  forallb pix_group_char s = true -> forallb not_colon s = true.
Proof.
  induction s as [|c b IH]; [reflexivity|]. cbn [forallb]. intros H.
  apply andb_prop in H as [Hc Hb]. unfold pix_group_char in Hc.
  apply andb_prop in Hc as [_ ->]. now rewrite IH.
Qed.

Lemma pix_join_no_colon (tags : list jsstring) :
  forallb (forallb pix_group_char) tags = true ->
  forallb not_colon (join [44%N] tags) = true.
Proof.
  induction tags as [|t tags IH]; [reflexivity|]. cbn [forallb]. intros H.
  apply andb_prop in H as [Ht Hs]. specialize (IH Hs).
  destruct tags as [|t2 tags].
  - cbn [join]. now apply pix_group_no_colon.
  - rewrite join_cons2, !forallb_app, IH, (pix_group_no_colon _ Ht).
    reflexivity.
Qed.

(** Opening brackets in front of colon-free text raise the depths. *)
Lemma pix_run_opens n m : forall st tl,
  PixAI.buffer st = [] -> forallb not_colon tl = true ->
  pix_run st (repeat 40%N n ++ repeat 91%N m ++ tl) =
  pix_run {| PixAI.segments := PixAI.segments st;
             PixAI.parenDepth := PixAI.parenDepth st + Z.of_nat n;
             PixAI.squareDepth := PixAI.squareDepth st + Z.of_nat m;
             PixAI.buffer := []; PixAI.rng := PixAI.rng st |} tl.
Proof.
  induction n as [|n IHn].
  - induction m as [|m IHm]; intros st tl Hb Htl.
    + cbn [repeat app Z.of_nat]. rewrite !Z.add_0_r. destruct st.
      cbn in *. now subst.
    + cbn [repeat app]. rewrite pix_run_cons.
      change (PixAI.step st 91%N (repeat 91%N m ++ tl))
        with (PixAI.plain st 91%N, repeat 91%N m ++ tl).
      cbn [fst snd]. unfold PixAI.plain. change ((91 =? 40)%N) with false.
      change ((91 =? 41)%N) with false. change ((91 =? 91)%N) with true.
      cbv iota zeta. rewrite (pix_flush_empty st Hb).
      pose proof (IHm (PixAI.setDepths (PixAI.parenDepth st)
                         (PixAI.squareDepth st + 1) st) tl Hb Htl) as R.
      cbn [repeat app] in R. rewrite R.
      cbn [PixAI.setDepths PixAI.segments PixAI.parenDepth PixAI.squareDepth
           PixAI.rng].
      do 2 f_equal; lia.
  - intros st tl Hb Htl. cbn [repeat app]. rewrite pix_run_cons, pix_step_paren.
    rewrite explicitWeightRegex_no_colon
      by (apply not_colon_app; [now apply not_colon_repeat|];
          apply not_colon_app; [now apply not_colon_repeat|exact Htl]).
    cbn [fst snd]. unfold PixAI.plain. change ((40 =? 40)%N) with true.
    cbv iota zeta. rewrite (pix_flush_empty st Hb).
    rewrite (IHn (PixAI.setDepths (PixAI.parenDepth st + 1)
                    (PixAI.squareDepth st) st) tl Hb Htl).
    cbn [PixAI.setDepths PixAI.segments PixAI.parenDepth PixAI.squareDepth
         PixAI.rng].
    do 2 f_equal; lia.
Qed.

Lemma pix_run_tags_at (tags : list jsstring) : forall segs dp ds r tl,
  forallb (forallb pix_group_char) tags = true ->
  exists segs' buf r',
    pix_run {| PixAI.segments := segs; PixAI.parenDepth := dp;
               PixAI.squareDepth := ds; PixAI.buffer := []; PixAI.rng := r |}
            (join [44%N] tags ++ tl)
    = pix_run {| PixAI.segments := segs'; PixAI.parenDepth := dp;
                 PixAI.squareDepth := ds; PixAI.buffer := buf;
                 PixAI.rng := r' |} tl
    /\ forallb pix_group_char buf = true
    /\ map erase_id segs'
         ++ map (pix_group_segment dp ds) (filter nonblank [buf])
       = map erase_id segs
         ++ map (pix_group_segment dp ds) (filter nonblank tags).
Proof.
  induction tags as [|t tags IH]; intros segs dp ds r tl H.
  - exists segs, [], r. repeat split.
  - cbn [forallb] in H. apply andb_prop in H as [Ht Hs].
    destruct tags as [|t2 tags].
    + cbn [join]. rewrite (pix_run_plain_tag t _ tl (pix_group_plain t Ht)).
      unfold PixAI.append.
      cbn [PixAI.segments PixAI.parenDepth PixAI.squareDepth PixAI.buffer
           PixAI.rng app].
      exists segs, t, r. repeat split. exact Ht.
    + rewrite join_cons2, <- !app_assoc.
      rewrite (pix_run_plain_tag t _ _ (pix_group_plain t Ht)).
      unfold PixAI.append.
      cbn [PixAI.segments PixAI.parenDepth PixAI.squareDepth PixAI.buffer
           PixAI.rng app].
      rewrite pix_run_cons, pix_step_comma. cbn [fst snd].
      destruct (pix_flush_at segs dp ds t r Ht) as (segs1 & r1 & -> & E1).
      destruct (IH segs1 dp ds r1 tl Hs) as (segs' & buf & r' & R & Hb & E).
      exists segs', buf, r'. split; [exact R|]. split; [exact Hb|].
      rewrite E, E1. cbn [filter].
      destruct (nonblank t); cbn [map app]; rewrite <- app_assoc;
        reflexivity.
Qed.

Lemma pix_run_closers k j : forall st,
  exists st',
    pix_run st (repeat 93%N k ++ repeat 41%N j) = Some st'
    /\ PixAI.segments (PixAI.flush None st')
       = PixAI.segments (PixAI.flush None st).
Proof.
  assert (B : forall p q st,
            PixAI.segments
              (PixAI.flush None (PixAI.setDepths p q (PixAI.flush None st)))
            = PixAI.segments (PixAI.flush None st)).
  { intros p q st. unfold PixAI.flush at 1.
    assert (Eb : PixAI.buffer (PixAI.flush None st) = []).
    { unfold PixAI.flush. destruct (JsString.truthy _);
        [destruct (generateId _)|]; reflexivity. }
    cbn [PixAI.setDepths PixAI.buffer PixAI.segments]. rewrite Eb.
    reflexivity. }
  induction k as [|k IH].
  - induction j as [|j IHj]; intros st.
    + exists st. split; reflexivity.
    + cbn [repeat app]. rewrite pix_run_cons.
      change (PixAI.step st 41%N (repeat 41%N j))
        with (PixAI.plain st 41%N, repeat 41%N j).
      cbn [fst snd]. unfold PixAI.plain. change ((41 =? 40)%N) with false.
      change ((41 =? 41)%N) with true. cbv iota zeta.
      destruct (IHj (PixAI.setDepths
                       (Z.max 0 (PixAI.parenDepth (PixAI.flush None st) - 1))
                       (PixAI.squareDepth (PixAI.flush None st))
                       (PixAI.flush None st))) as (st' & R & E).
      cbn [repeat app] in R. exists st'. split; [exact R|]. now rewrite E, B.
  - intros st. cbn [repeat app]. rewrite pix_run_cons.
    change (PixAI.step st 93%N (repeat 93%N k ++ repeat 41%N j))
      with (PixAI.plain st 93%N, repeat 93%N k ++ repeat 41%N j).
    cbn [fst snd]. unfold PixAI.plain. change ((93 =? 40)%N) with false.
    change ((93 =? 41)%N) with false. change ((93 =? 91)%N) with false.
    change ((93 =? 93)%N) with true. cbv iota zeta.
    destruct (IH (PixAI.setDepths
                    (PixAI.parenDepth (PixAI.flush None st))
                    (Z.max 0 (PixAI.squareDepth (PixAI.flush None st) - 1))
                    (PixAI.flush None st))) as (st' & R & E).
    exists st'. split; [exact R|]. now rewrite E, B.
Qed.

(** X19. A group of tags in PixAI brackets: after [n] opening parentheses
    and [m] opening square brackets, every non-blank tag between the
    commas is scanned with the weight 1.1 to the [n] times 0.9 to the [m],
    rounded, whatever closing brackets follow the last tag. *)
Theorem pixai_group_weight r n m k j tags :
  forallb (forallb pix_group_char) tags = true ->
  map erase_id
    (fst (PixAI.parsePixAI r
            (repeat 40%N n ++ repeat 91%N m ++ join (js ",") tags
               ++ repeat 93%N k ++ repeat 41%N j)))
  = map (pix_group_segment (Z.of_nat n) (Z.of_nat m)) (filter nonblank tags).
Proof.
  intros H. rewrite parsePixAI_run. change (js ",") with [44%N].
  assert (Hcl : forallb not_colon (repeat 93%N k ++ repeat 41%N j) = true)
    by (apply not_colon_app; now apply not_colon_repeat).
  rewrite (pix_run_opens n m (PixAI.init r) _ eq_refl)
    by (apply not_colon_app; [now apply pix_join_no_colon|exact Hcl]).
  cbn [PixAI.init PixAI.segments PixAI.parenDepth PixAI.squareDepth
       PixAI.rng Z.add].
  destruct (pix_run_tags_at tags [] (Z.of_nat n) (Z.of_nat m) r
              (repeat 93%N k ++ repeat 41%N j) H)
    as (segs' & buf & r' & -> & Hb & E).
  destruct (pix_run_closers k j
              {| PixAI.segments := segs'; PixAI.parenDepth := Z.of_nat n;
                 PixAI.squareDepth := Z.of_nat m; PixAI.buffer := buf;
                 PixAI.rng := r' |}) as (st' & -> & Es).
  rewrite Es.
  destruct (pix_flush_at segs' (Z.of_nat n) (Z.of_nat m) buf r' Hb)
    as (segs2 & r2 & -> & E2).
  cbn [PixAI.segments]. rewrite E2. exact E.
Qed.

Lemma pixai_group_weight_witness :
  map erase_id (fst (PixAI.parsePixAI sample_rng (js "(([cat, ,dog])")))
  = [pix_group_segment 2 1 (js "cat"); pix_group_segment 2 1 (js "dog")].
Proof.
  exact (pixai_group_weight sample_rng 2 1 1 1
           [js "cat"; js " "; js "dog"] eq_refl).
Defined.
